(** * SLADE archive manager: a shallow embedding of [ArchiveManager.cpp]

    The manager owns the list of open archives, the bookmark list, the base
    resource slot and two configuration variables.  Everything it reaches
    through a pointer ([Archive], [ArchiveDir], [ArchiveEntry], the format
    recognisers, the file system, the clock) lives outside
    [ArchiveManager.cpp]; that part of the program is the type class
    [Collaborators] below, one method per member function the manager calls.
    The manager's own functions are translated statement by statement over a
    state record. *)

From stdpp Require Import base option list strings gmap.
From Stdlib Require Import ZArith Lia.

Local Open Scope Z_scope.

(** ** Object identities

    [Archive*], [ArchiveEntry*] and [ArchiveDir*] are object identities; a
    nullable pointer is an [option].  An identity names one object for ever
    (it is never given to a second object), so a [weak_ptr] is modelled by the
    identity of its target: a [weak_ptr<Archive>] that has expired names no
    archive of the open list, because the list owns the archives it holds. *)

Definition aptr := nat.
Definition eptr := nat.
Definition dptr := nat.

(** The archive classes [openArchive] can instantiate. *)
Inductive Format :=
| Wad | Zip | Res | Dat | Lib | Pak | BSP | Grp | Rff | Gob | Lfd | Hog
| ADat | Wad2 | WadJ | Wolf | GZip | BZip2 | Tar | Disk | Pod | ChasmBin
| SiN | Dir.

#[global] Instance Format_eq_dec : EqDecision Format.
Proof. solve_decision. Defined.

(** ** The collaborators of the manager *)

Class Collaborators (W Opt : Type) := {
  (* Archive *)
  Archive_filename : W → aptr → string;
  Archive_formatId : W → aptr → string;
  Archive_parentEntry : W → aptr → option eptr;
  Archive_rootDir : W → aptr → dptr;
  Archive_entry : W → aptr → string → option eptr;
  Archive_findLast : W → aptr → Opt → option eptr;
  Archive_findAll : W → aptr → Opt → list eptr;
  Archive_open_file : aptr → string → W → bool * W;
  Archive_open_entry : aptr → eptr → W → bool * W;
  Archive_close : aptr → W → W;
  (* std::make_shared<XArchive>() *)
  make_shared : Format → W → aptr * W;
  (* XArchive::isXArchive(filename), XArchive::isXArchive(entry->data()) *)
  isArchive_file : W → Format → string → bool;
  isArchive_data : W → Format → eptr → bool;
  (* ArchiveDir *)
  ArchiveDir_allEntries : W → dptr → list eptr;
  ArchiveDir_archive : W → dptr → option aptr;
  ArchiveDir_dirEntry : W → dptr → option eptr;
  ArchiveDir_parent : W → dptr → option dptr;
  (* ArchiveEntry; [ArchiveEntry_lock] is weak_ptr<ArchiveEntry>::lock() *)
  ArchiveEntry_lock : W → eptr → bool;
  ArchiveEntry_parent : W → eptr → option aptr;
  ArchiveEntry_parentDir : W → eptr → option dptr;
  ArchiveEntry_name : W → eptr → string;
  ArchiveEntry_type : W → eptr → string;
  EntryType_detectEntryType : eptr → W → W;
  (* StrUtil, FileUtil, SFile, DateTime *)
  StrUtil_endsWithCI : string → string → bool;
  FileUtil_dirExists : W → string → bool;
  FileUtil_fileModifiedTime : W → string → Z;
  SFile_size : W → string → Z;
  SFile_calculateMD5 : W → string → string;
  DateTime_now : W → Z
}.

(** [EntryType::unknownType()->id()]. *)
Definition unknownType : string := "unknown".

(** ** The state of the manager *)

(** [struct OpenArchive]. *)
Record OpenArchive := mkOpenArchive {
  archive : aptr;
  resource : bool;
  open_children : list aptr
}.

#[global] Instance OpenArchive_eq_dec : EqDecision OpenArchive.
Proof. solve_decision. Defined.

(** An announcement: the event name and, when a [MemChunk] goes with it, the
    32-bit value written into it. *)
Record Announcement := mkAnnouncement {
  event_name : string;
  event_data : option Z
}.

(** A call on [App::resources()]. *)
Inductive ResourceCall :=
| res_addArchive (a : aptr)
| res_removeArchive (a : aptr).

(** Modelled from the spec: the Resource Index ([General/ResourceManager] is
    not part of the sources at hand).  "Append/remove only, idempotent": the
    archives it holds after a sequence of calls. *)
Fixpoint resource_index (calls : list ResourceCall) : gset aptr :=
  match calls with
  | [] => ∅
  | res_addArchive a :: calls => {[ a ]} ∪ resource_index calls
  | res_removeArchive a :: calls => resource_index calls ∖ {[ a ]}
  end.

(** A row of table [archive_file], without its key [path]. *)
Record ArchiveFileRow := mkArchiveFileRow {
  row_size : Z;
  row_md5 : string;
  row_format_id : string;
  row_last_opened : Z;
  row_last_modified : Z
}.

(** The database: whether cached queries and the read-only connection can be
    had, table [archive_file] keyed by its UNIQUE column [path], and table
    [base_resource_path] keyed by rowid. *)
Record Database := mkDatabase {
  db_query_ok : bool;
  db_connectionRO : bool;
  archive_file : gmap string ArchiveFileRow;
  base_resource_path : gmap Z string
}.

Record Manager (W : Type) := mkManager {
  world : W;
  open_archives_ : list OpenArchive;
  bookmarks_ : list (option eptr);
  base_resource_archive_ : option aptr;
  base_resource : Z;
  auto_open_wads_root : bool;
  announced : list Announcement;
  listening : list aptr;
  resources : list ResourceCall;
  database : Database;
  Global_error : string
}.

Arguments mkManager {W}.
Arguments world {W}.
Arguments open_archives_ {W}.
Arguments bookmarks_ {W}.
Arguments base_resource_archive_ {W}.
Arguments base_resource {W}.
Arguments auto_open_wads_root {W}.
Arguments announced {W}.
Arguments listening {W}.
Arguments resources {W}.
Arguments database {W}.
Arguments Global_error {W}.

Section Setters.
Context {W : Type}.
Implicit Type s : Manager W.

Definition set_world (w : W) s : Manager W :=
  mkManager w (open_archives_ s) (bookmarks_ s) (base_resource_archive_ s)
    (base_resource s) (auto_open_wads_root s) (announced s) (listening s)
    (resources s) (database s) (Global_error s).

Definition set_open_archives (l : list OpenArchive) s : Manager W :=
  mkManager (world s) l (bookmarks_ s) (base_resource_archive_ s)
    (base_resource s) (auto_open_wads_root s) (announced s) (listening s)
    (resources s) (database s) (Global_error s).

Definition set_bookmarks (l : list (option eptr)) s : Manager W :=
  mkManager (world s) (open_archives_ s) l (base_resource_archive_ s)
    (base_resource s) (auto_open_wads_root s) (announced s) (listening s)
    (resources s) (database s) (Global_error s).

Definition set_base_resource_archive (a : option aptr) s : Manager W :=
  mkManager (world s) (open_archives_ s) (bookmarks_ s) a
    (base_resource s) (auto_open_wads_root s) (announced s) (listening s)
    (resources s) (database s) (Global_error s).

Definition set_base_resource (i : Z) s : Manager W :=
  mkManager (world s) (open_archives_ s) (bookmarks_ s)
    (base_resource_archive_ s) i (auto_open_wads_root s) (announced s)
    (listening s) (resources s) (database s) (Global_error s).

Definition set_database (d : Database) s : Manager W :=
  mkManager (world s) (open_archives_ s) (bookmarks_ s)
    (base_resource_archive_ s) (base_resource s) (auto_open_wads_root s)
    (announced s) (listening s) (resources s) d (Global_error s).

Definition set_Global_error (e : string) s : Manager W :=
  mkManager (world s) (open_archives_ s) (bookmarks_ s)
    (base_resource_archive_ s) (base_resource s) (auto_open_wads_root s)
    (announced s) (listening s) (resources s) (database s) e.

(** [announce(name)] and [announce(name, mc)]: the trace grows at its end. *)
Definition announce (name : string) (data : option Z) s : Manager W :=
  mkManager (world s) (open_archives_ s) (bookmarks_ s)
    (base_resource_archive_ s) (base_resource s) (auto_open_wads_root s)
    (announced s ++ [mkAnnouncement name data]) (listening s) (resources s)
    (database s) (Global_error s).

(** [listenTo(archive.get())]. *)
Definition listenTo (a : aptr) s : Manager W :=
  mkManager (world s) (open_archives_ s) (bookmarks_ s)
    (base_resource_archive_ s) (base_resource s) (auto_open_wads_root s)
    (announced s) (listening s ++ [a]) (resources s) (database s)
    (Global_error s).

(** A call on [App::resources()]; the trace grows at its head, so that
    [resource_index] replays it latest call first. *)
Definition call_resources (c : ResourceCall) s : Manager W :=
  mkManager (world s) (open_archives_ s) (bookmarks_ s)
    (base_resource_archive_ s) (base_resource s) (auto_open_wads_root s)
    (announced s) (listening s) (c :: resources s) (database s)
    (Global_error s).
End Setters.

(** ** Outcomes

    A call that recurses is given fuel; [OutOfFuel] stands for a run that is
    still going, [Fault] for a run that dereferences a null pointer or indexes
    a vector out of range. *)

Inductive outcome (A : Type) :=
| Ok (a : A)
| OutOfFuel
| Fault.

Arguments Ok {A}.
Arguments OutOfFuel {A}.
Arguments Fault {A}.

Definition obind {A B : Type} (m : outcome A) (k : A → outcome B)
    : outcome B :=
  match m with
  | Ok a => k a
  | OutOfFuel => OutOfFuel
  | Fault => Fault
  end.

#[global] Instance outcome_bind : MBind outcome := λ A B k m, obind m k.
#[global] Instance outcome_ret : MRet outcome := λ A a, Ok a.

(** A loop over a vector whose body may fault. *)
Fixpoint ofold {A S : Type} (body : S → A → outcome S) (l : list A) (s : S)
    : outcome S :=
  match l with
  | [] => Ok s
  | x :: l => s ← body s x ; ofold body l s
  end.

(** A 32-bit unsigned value made from an [int]. *)
Definition to_uint32 (z : Z) : Z := z mod 2 ^ 32.

(** ** The manager's functions *)

Section ArchiveManager.
Context {W Opt : Type} {C : Collaborators W Opt}.
Implicit Type s : Manager W.

(** The loop of [archiveIndex], from position [a] on. *)
Fixpoint archiveIndex_from (a : nat) (l : list OpenArchive)
    (p : option aptr) : Z :=
  match l with
  | [] => -1
  | oa :: l =>
      if decide (Some (archive oa) = p) then Z.of_nat a
      else archiveIndex_from (S a) l p
  end.

(** [ArchiveManager::archiveIndex]. *)
Definition archiveIndex s (p : option aptr) : Z :=
  archiveIndex_from 0 (open_archives_ s) p.

(** [ArchiveManager::getArchive(int)]. *)
Definition getArchive_at s (index : Z) : option aptr :=
  if (index <? 0) || (index >=? Z.of_nat (length (open_archives_ s)))
  then None
  else archive <$> open_archives_ s !! Z.to_nat index.

(** The loop of [getArchive(string_view)]. *)
Fixpoint getArchive_in (w : W) (l : list OpenArchive) (filename : string)
    : option aptr :=
  match l with
  | [] => None
  | oa :: l =>
      if decide (Archive_filename w (archive oa) = filename)
      then Some (archive oa)
      else getArchive_in w l filename
  end.

(** [ArchiveManager::getArchive(string_view)]. *)
Definition getArchive s (filename : string) : option aptr :=
  getArchive_in (world s) (open_archives_ s) filename.

(** [ArchiveManager::archiveIsResource]. *)
Definition archiveIsResource s (p : option aptr) : bool :=
  let index := archiveIndex s p in
  if index <? 0 then false
  else match open_archives_ s !! Z.to_nat index with
       | Some oa => resource oa
       | None => false
       end.

(** [ArchiveManager::setArchiveResource].  [archiveIndex] only answers a
    position of the list, so the [None] branch of the lookup is dead. *)
Definition setArchiveResource (p : option aptr) (res : bool) s : Manager W :=
  let index := archiveIndex s p in
  if 0 <=? index then
    match open_archives_ s !! Z.to_nat index with
    | Some oa =>
        let was_resource := resource oa in
        let s := set_open_archives
                   (<[Z.to_nat index :=
                        mkOpenArchive (archive oa) res (open_children oa)]>
                      (open_archives_ s)) s in
        if res && negb was_resource
        then call_resources (res_addArchive (archive oa)) s
        else if negb res && was_resource
        then call_resources (res_removeArchive (archive oa)) s
        else s
    | None => s
    end
  else s.

(** [ArchiveManager::addOrUpdateArchiveDB]: REPLACE INTO [archive_file]. *)
Definition addOrUpdateArchiveDB (file_path : string) (a : aptr) s
    : Manager W :=
  let db := database s in
  if db_query_ok db then
    let w := world s in
    let row :=
      if decide (Archive_formatId w a ≠ "folder")
      then mkArchiveFileRow (SFile_size w file_path)
             (SFile_calculateMD5 w file_path) (Archive_formatId w a)
             (DateTime_now w) (FileUtil_fileModifiedTime w file_path)
      else mkArchiveFileRow 0 "" (Archive_formatId w a) (DateTime_now w) 0 in
    set_database
      (mkDatabase (db_query_ok db) (db_connectionRO db)
         (<[file_path := row]> (archive_file db)) (base_resource_path db)) s
  else s.

(** [ArchiveManager::getBaseResourcePath]: the row whose rowid is
    [index + 1], the empty string when there is none. *)
Definition getBaseResourcePath s (index : Z) : string :=
  if db_connectionRO (database s) then
    default "" (base_resource_path (database s) !! (index + 1))
  else "".

(** *** Resource lookup *)

(** The loop of [getResourceEntry]. *)
Fixpoint getResourceEntry_in (w : W) (l : list OpenArchive) (name : string)
    (ignore : option aptr) : option eptr :=
  match l with
  | [] => None
  | oa :: l =>
      if negb (resource oa) then getResourceEntry_in w l name ignore
      else if decide (Some (archive oa) = ignore)
      then getResourceEntry_in w l name ignore
      else match Archive_entry w (archive oa) name with
           | Some e => Some e
           | None => getResourceEntry_in w l name ignore
           end
  end.

(** [ArchiveManager::getResourceEntry]. *)
Definition getResourceEntry s (name : string) (ignore : option aptr)
    : option eptr :=
  match getResourceEntry_in (world s) (open_archives_ s) name ignore with
  | Some e => Some e
  | None =>
      match base_resource_archive_ s with
      | Some b => Archive_entry (world s) b name
      | None => None
      end
  end.

(** The loop of [findResourceEntry]. *)
Fixpoint findResourceEntry_in (w : W) (l : list OpenArchive) (options : Opt)
    (ignore : option aptr) : option eptr :=
  match l with
  | [] => None
  | oa :: l =>
      if negb (resource oa) then findResourceEntry_in w l options ignore
      else if decide (Some (archive oa) = ignore)
      then findResourceEntry_in w l options ignore
      else match Archive_findLast w (archive oa) options with
           | Some e => Some e
           | None => findResourceEntry_in w l options ignore
           end
  end.

(** [ArchiveManager::findResourceEntry]. *)
Definition findResourceEntry s (options : Opt) (ignore : option aptr)
    : option eptr :=
  match findResourceEntry_in (world s) (open_archives_ s) options ignore with
  | Some e => Some e
  | None =>
      match base_resource_archive_ s with
      | Some b => Archive_findLast (world s) b options
      | None => None
      end
  end.

(** The loop of [findAllResourceEntries], appending to [ret]. *)
Fixpoint findAllResourceEntries_in (w : W) (l : list OpenArchive)
    (options : Opt) (ignore : option aptr) (ret : list eptr) : list eptr :=
  match l with
  | [] => ret
  | oa :: l =>
      if negb (resource oa)
      then findAllResourceEntries_in w l options ignore ret
      else if decide (Some (archive oa) = ignore)
      then findAllResourceEntries_in w l options ignore ret
      else findAllResourceEntries_in w l options ignore
             (ret ++ Archive_findAll w (archive oa) options)
  end.

(** [ArchiveManager::findAllResourceEntries]. *)
Definition findAllResourceEntries s (options : Opt) (ignore : option aptr)
    : list eptr :=
  let ret :=
    match base_resource_archive_ s with
    | Some b => [] ++ Archive_findAll (world s) b options
    | None => []
    end in
  findAllResourceEntries_in (world s) (open_archives_ s) options ignore ret.

(** *** The base resource archive *)

(** [ArchiveManager::openBaseResource].  The splash window is not modelled. *)
Definition openBaseResource (index : Z) s : bool * Manager W :=
  if bool_decide (is_Some (base_resource_archive_ s))
     && (base_resource s =? index)
  then (true, s)
  else
    let s :=
      match base_resource_archive_ s with
      | Some b =>
          set_base_resource_archive None
            (call_resources (res_removeArchive b) s)
      | None => s
      end in
    let filename :=
      if 0 <=? index then getBaseResourcePath s index else "" in
    if decide (filename = "") then
      (false, announce "base_resource_changed" None (set_base_resource (-1) s))
    else
      let w := world s in
      let class :=
        if isArchive_file w Wad filename then Some Wad
        else if isArchive_file w Zip filename then Some Zip
        else None in
      match class with
      | None => (false, s)
      | Some f =>
          let '(a, w) := make_shared f w in
          let s := set_base_resource_archive (Some a) (set_world w s) in
          let '(ok, w) := Archive_open_file a filename (world s) in
          let s := set_world w s in
          if ok then
            let s := set_base_resource index s in
            let s := call_resources (res_addArchive a) s in
            (true, announce "base_resource_changed" None s)
          else
            let s := set_base_resource_archive None s in
            (false, announce "base_resource_changed" None s)
      end.

(** A 32-bit signed value made from an [unsigned]. *)
Definition to_int32 (z : Z) : Z := (z + 2 ^ 31) mod 2 ^ 32 - 2 ^ 31.

(** [ArchiveManager::removeBaseResourcePath]; [index] is an [unsigned].
    The DELETE removes the row whose rowid is [index + 1] and leaves the
    rowids of the other rows as they are. *)
Definition removeBaseResourcePath (index : Z) s : Manager W :=
  let s :=
    if index =? to_uint32 (base_resource s)
    then (openBaseResource (-1) s).2
    else if to_int32 index <? base_resource s
    then set_base_resource (base_resource s - 1) s
    else s in
  let db := database s in
  let rowid := to_uint32 (index + 1) in
  match base_resource_path db !! rowid with
  | Some _ =>
      announce "base_resource_path_removed" None
        (set_database
           (mkDatabase (db_query_ok db) (db_connectionRO db) (archive_file db)
              (delete rowid (base_resource_path db))) s)
  | None => s
  end.

(** *** Bookmarks

    A bookmark is a [weak_ptr<ArchiveEntry>]: [None] is the empty weak
    pointer, [Some e] refers to entry [e], which may be gone. *)

(** [weak_ptr::lock()]. *)
Definition lock (w : W) (b : option eptr) : option eptr :=
  match b with
  | Some e => if ArchiveEntry_lock w e then Some e else None
  | None => None
  end.

(** [ArchiveManager::addBookmark]. *)
Definition addBookmark (entry : option eptr) s : Manager W :=
  if existsb (λ b, bool_decide (lock (world s) b = entry)) (bookmarks_ s)
  then s
  else announce "bookmarks_changed" None
         (set_bookmarks (bookmarks_ s ++ [entry]) s).

(** The loop of [deleteBookmark] by entry: the list without the first
    bookmark that resolves to [entry], if there is one. *)
Fixpoint deleteBookmark_in (w : W) (entry : option eptr)
    (l : list (option eptr)) : option (list (option eptr)) :=
  match l with
  | [] => None
  | b :: l =>
      if decide (lock w b = entry) then Some l
      else (b ::.) <$> deleteBookmark_in w entry l
  end.

(** [ArchiveManager::deleteBookmark] by entry. *)
Definition deleteBookmark (entry : option eptr) s : bool * Manager W :=
  match deleteBookmark_in (world s) entry (bookmarks_ s) with
  | Some l => (true, announce "bookmarks_changed" None (set_bookmarks l s))
  | None => (false, s)
  end.

(** [ArchiveManager::deleteBookmark] by position. *)
Definition deleteBookmark_at (index : nat) s : bool * Manager W :=
  if decide (length (bookmarks_ s) ≤ index)%nat then (false, s)
  else (true, announce "bookmarks_changed" None
                (set_bookmarks (delete index (bookmarks_ s)) s)).

(** The loop of [deleteBookmarksInArchive]: the bookmarks that stay, and
    whether one was erased. *)
Fixpoint deleteBookmarksInArchive_in (w : W) (a : option aptr)
    (l : list (option eptr)) : list (option eptr) * bool :=
  match l with
  | [] => ([], false)
  | b :: l =>
      let '(l', removed) := deleteBookmarksInArchive_in w a l in
      match lock w b with
      | None => (l', true)
      | Some e =>
          if decide (ArchiveEntry_parent w e = a) then (l', true)
          else (b :: l', removed)
      end
  end.

(** [ArchiveManager::deleteBookmarksInArchive]. *)
Definition deleteBookmarksInArchive (a : option aptr) s : bool * Manager W :=
  let '(l, removed) :=
    deleteBookmarksInArchive_in (world s) a (bookmarks_ s) in
  let s := set_bookmarks l s in
  if removed then (true, announce "bookmarks_changed" None s)
  else (false, s).

(** The [while] loop of [deleteBookmarksInDir]: walk from [anode] towards
    [root], looking for [node]. *)
Fixpoint walk_up (fuel : nat) (w : W) (root : dptr) (node : dptr)
    (anode : option dptr) : outcome bool :=
  if decide (anode = Some root) then Ok false
  else match fuel with
       | O => OutOfFuel
       | S fuel =>
           if decide (anode = Some node) then Ok true
           else match anode with
                | None => Fault
                | Some d => walk_up fuel w root node (ArchiveDir_parent w d)
                end
       end.

(** The [for] loop of [deleteBookmarksInDir]. *)
Fixpoint deleteBookmarksInDir_in (fuel : nat) (w : W) (a : option aptr)
    (node : dptr) (l : list (option eptr))
    : outcome (list (option eptr) * bool) :=
  match l with
  | [] => Ok ([], false)
  | b :: l =>
      remove ←
        match lock w b with
        | None => Ok true
        | Some e =>
            if decide (ArchiveEntry_parent w e = a) then
              match a with
              | None => Fault
              | Some a' =>
                  walk_up fuel w (Archive_rootDir w a') node
                    (ArchiveEntry_parentDir w e)
              end
            else Ok false
        end ;
      '(l', removed) ← deleteBookmarksInDir_in fuel w a node l ;
      Ok (if remove : bool then (l', true) else (b :: l', removed))
  end.

(** [ArchiveManager::deleteBookmarksInDir]. *)
Definition deleteBookmarksInDir (fuel : nat) (node : dptr) s
    : outcome (bool * Manager W) :=
  let a := ArchiveDir_archive (world s) node in
  let '(removed, s) :=
    deleteBookmark (ArchiveDir_dirEntry (world s) node) s in
  '(l, removed') ←
    deleteBookmarksInDir_in fuel (world s) a node (bookmarks_ s) ;
  let s := set_bookmarks l s in
  if removed || removed'
  then Ok (true, announce "bookmarks_changed" None s)
  else Ok (false, s).

(** *** Opening archives *)

(** The order in which [openArchive(string_view)] asks the recognisers. *)
Definition file_probes : list Format :=
  [Wad; Zip; Res; Dat; Lib; Pak; BSP; Grp; Rff; Gob; Lfd; Hog; ADat; Wad2;
   WadJ; Wolf; GZip; BZip2; Tar; Disk; Pod; ChasmBin; SiN].

(** The order in which [openArchive(ArchiveEntry*, ...)] asks them: [Lib]
    comes before [Dat] here. *)
Definition entry_probes : list Format :=
  [Wad; Zip; Res; Lib; Dat; Pak; BSP; Grp; Rff; Gob; Lfd; Hog; ADat; Wad2;
   WadJ; Wolf; GZip; BZip2; Tar; Disk; Pod; ChasmBin; SiN].

(** The [if ... else if ...] chain over a file: the first class that
    recognises it. *)
Definition detect_file (w : W) (filename : string) : option Format :=
  List.find (λ f, isArchive_file w f filename) file_probes.

(** The chain over the data of an entry; a pod must also be named so. *)
Definition detect_entry (w : W) (e : eptr) : option Format :=
  List.find
    (λ f, if decide (f = Pod)
          then StrUtil_endsWithCI (ArchiveEntry_name w e) ".pod"
               && isArchive_data w Pod e
          else isArchive_data w f e)
    entry_probes.

(** "Announce open": [archive_opened] with the position of [a], unless
    [silent]. *)
Definition announce_opened (silent : bool) (a : aptr) s : Manager W :=
  if silent then s
  else announce "archive_opened"
         (Some (to_uint32 (archiveIndex s (Some a)))) s.

(** [open_archives_[i].open_children.emplace_back(a)]. *)
Definition add_child (i : nat) (a : aptr) (l : list OpenArchive)
    : list OpenArchive :=
  alter (λ oa, mkOpenArchive (archive oa) (resource oa)
                 (open_children oa ++ [a])) i l.

(** [ArchiveManager::openArchive(ArchiveEntry*, bool, bool)], with the call
    of [addArchive] left open.  Logging is not modelled. *)
Definition openArchive_entry_with
    (addArchive : option aptr → Manager W → outcome (bool * Manager W))
    (entry : option eptr) (manage silent : bool) s
    : outcome (option aptr * Manager W) :=
  match entry with
  | None => Ok (None, s)
  | Some e =>
      match List.find
              (λ oa, bool_decide
                       (Archive_parentEntry (world s) (archive oa) = Some e))
              (open_archives_ s) with
      | Some oa => Ok (Some (archive oa), announce_opened silent (archive oa) s)
      | None =>
          match detect_entry (world s) e with
          | None =>
              Ok (None,
                  set_Global_error "Unsupported or invalid Archive format" s)
          | Some f =>
              let '(a, w) := make_shared f (world s) in
              let '(ok, w) := Archive_open_entry a e w in
              let s := set_world w s in
              if ok then
                if manage then
                  let index_parent :=
                    match ArchiveEntry_parent (world s) e with
                    | Some p => archiveIndex s (Some p)
                    | None => -1
                    end in
                  let s :=
                    if 0 <=? index_parent
                    then set_open_archives
                           (add_child (Z.to_nat index_parent) a
                              (open_archives_ s)) s
                    else s in
                  '(_, s) ← addArchive (Some a) s;
                  Ok (Some a, announce_opened silent a s)
                else Ok (Some a, s)
              else Ok (None, s)
          end
      end
  end.

(** The body of the loop of [addArchive] over the entries of the root. *)
Definition auto_open
    (openArchive : option eptr → bool → bool → Manager W →
                   outcome (option aptr * Manager W))
    s (entry : eptr) : outcome (Manager W) :=
  let s :=
    if decide (ArchiveEntry_type (world s) entry = unknownType)
    then set_world (EntryType_detectEntryType entry (world s)) s
    else s in
  if decide (ArchiveEntry_type (world s) entry = "wad")
  then '(_, s) ← openArchive (Some entry) true true s; Ok s
  else Ok s.

(** [ArchiveManager::addArchive]. *)
Fixpoint addArchive (fuel : nat) (p : option aptr) s
    : outcome (bool * Manager W) :=
  match fuel with
  | O => OutOfFuel
  | S fuel =>
      match p with
      | Some a =>
          let s :=
            set_open_archives (open_archives_ s ++ [mkOpenArchive a true []])
              s in
          let s := listenTo a s in
          let s := announce "archive_added" None s in
          let s := call_resources (res_addArchive a) s in
          if (bool_decide (Archive_formatId (world s) a = "zip")
              || bool_decide (Archive_formatId (world s) a = "folder"))
             && auto_open_wads_root s
          then
            s ← ofold (auto_open (openArchive_entry_with (addArchive fuel)))
                  (ArchiveDir_allEntries (world s)
                     (Archive_rootDir (world s) a)) s;
            Ok (true, s)
          else Ok (true, s)
      | None => Ok (false, s)
      end
  end.

(** [ArchiveManager::openArchive(ArchiveEntry*, bool, bool)]. *)
Definition openArchive_entry (fuel : nat) (entry : option eptr)
    (manage silent : bool) s : outcome (option aptr * Manager W) :=
  openArchive_entry_with (addArchive fuel) entry manage silent s.

(** [ArchiveManager::openDirArchive]. *)
Definition openDirArchive (fuel : nat) (dir : string) (manage silent : bool)
    s : outcome (option aptr * Manager W) :=
  match getArchive s dir with
  | Some a => Ok (Some a, announce_opened silent a s)
  | None =>
      let '(a, w) := make_shared Dir (world s) in
      let '(ok, w) := Archive_open_file a dir w in
      let s := set_world w s in
      if ok then
        if manage then
          '(_, s) ← addArchive fuel (Some a) s;
          let s := addOrUpdateArchiveDB dir a s in
          Ok (Some a, announce_opened silent a s)
        else Ok (Some a, s)
      else Ok (None, s)
  end.

(** [ArchiveManager::openArchive(string_view, bool, bool)]. *)
Definition openArchive (fuel : nat) (filename : string)
    (manage silent : bool) s : outcome (option aptr * Manager W) :=
  if FileUtil_dirExists (world s) filename
  then openDirArchive fuel filename manage silent s
  else
    match getArchive s filename with
    | Some a => Ok (Some a, announce_opened silent a s)
    | None =>
        match detect_file (world s) filename with
        | None =>
            Ok (None,
                set_Global_error "Unsupported or invalid Archive format" s)
        | Some f =>
            let '(a, w) := make_shared f (world s) in
            let '(ok, w) := Archive_open_file a filename w in
            let s := set_world w s in
            if ok then
              if manage then
                '(_, s) ← addArchive fuel (Some a) s;
                let s := addOrUpdateArchiveDB filename a s in
                Ok (Some a, announce_opened silent a s)
              else Ok (Some a, s)
            else Ok (None, s)
        end
    end.

(** *** Closing archives *)

(** [open_archives_[index].open_children.clear()]. *)
Definition clear_children (i : nat) (l : list OpenArchive)
    : list OpenArchive :=
  alter (λ oa, mkOpenArchive (archive oa) (resource oa) []) i l.

(** The loop that erases the first link to [a] from a child list. *)
Fixpoint erase_child (a : aptr) (children : list aptr) : list aptr :=
  match children with
  | [] => []
  | c :: children =>
      if decide (c = a) then children else c :: erase_child a children
  end.

(** "Remove ourselves from our parent's open-child list", for the archive
    [a] found at the closing position. *)
Definition unlink_from_parent (a : aptr) s : Manager W :=
  match Archive_parentEntry (world s) a with
  | Some parent =>
      match ArchiveEntry_parent (world s) parent with
      | Some gp =>
          let pi := archiveIndex s (Some gp) in
          if 0 <=? pi then
            set_open_archives
              (alter (λ oa, mkOpenArchive (archive oa) (resource oa)
                              (erase_child a (open_children oa)))
                 (Z.to_nat pi) (open_archives_ s)) s
          else s
      | None => s
      end
  | None => s
  end.

(** [open_archives_[index]]; out of range is undefined behaviour. *)
Definition at_index s (index : Z) : outcome OpenArchive :=
  match open_archives_ s !! Z.to_nat index with
  | Some oa => Ok oa
  | None => Fault
  end.

(** [ArchiveManager::closeArchive(int)]. *)
Fixpoint closeArchive (fuel : nat) (index : Z) s
    : outcome (bool * Manager W) :=
  match fuel with
  | O => OutOfFuel
  | S fuel =>
      if (index <? 0) || (index >=? Z.of_nat (length (open_archives_ s)))
      then Ok (false, s)
      else
        let s := announce "archive_closing" (Some index) s in
        oa ← at_index s index;
        let s := (deleteBookmarksInArchive (Some (archive oa)) s).2 in
        oa ← at_index s index;
        let s := call_resources (res_removeArchive (archive oa)) s in
        oa ← at_index s index;
        let children := open_children oa in
        let s :=
          set_open_archives
            (clear_children (Z.to_nat index) (open_archives_ s)) s in
        s ← ofold
              (λ s child,
                 let ci := archiveIndex s (Some child) in
                 if 0 <=? ci then '(_, s) ← closeArchive fuel ci s; Ok s
                 else Ok s)
              children s;
        oa ← at_index s index;
        let s := unlink_from_parent (archive oa) s in
        oa ← at_index s index;
        let s := set_world (Archive_close (archive oa) (world s)) s in
        let s :=
          set_open_archives (delete (Z.to_nat index) (open_archives_ s)) s in
        Ok (true, announce "archive_closed" (Some index) s)
  end.

(** The loop of [closeArchive(string_view)] and of [closeArchive(Archive*
    )]: the first position whose record satisfies [p]. *)
Fixpoint first_position (p : OpenArchive → bool) (a : nat)
    (l : list OpenArchive) : option nat :=
  match l with
  | [] => None
  | oa :: l => if p oa then Some a else first_position p (S a) l
  end.

(** [ArchiveManager::closeArchive(string_view)]. *)
Definition closeArchive_filename (fuel : nat) (filename : string) s
    : outcome (bool * Manager W) :=
  match first_position
          (λ oa, bool_decide (Archive_filename (world s) (archive oa)
                              = filename)) 0 (open_archives_ s) with
  | Some a => closeArchive fuel (Z.of_nat a) s
  | None => Ok (false, s)
  end.

(** [ArchiveManager::closeArchive] by archive pointer. *)
Definition closeArchive_ptr (fuel : nat) (p : option aptr) s
    : outcome (bool * Manager W) :=
  match first_position (λ oa, bool_decide (Some (archive oa) = p)) 0
          (open_archives_ s) with
  | Some a => closeArchive fuel (Z.of_nat a) s
  | None => Ok (false, s)
  end.

End ArchiveManager.

(** ** A small world

    An instance of [Collaborators] that can be run: objects are kept in
    vectors and named by their position; a file or the data of an entry is
    a [blob], which says what it is recognised as, whether it can be parsed,
    and what entries the parse yields.  A search option is a name. *)

Module Toy.

#[warnings="-register-all"]
Inductive blob :=
| Blob (name type : string) (class : option Format) (parses : bool)
    (inner : list blob).

Definition blob_name (b : blob) : string := let 'Blob n _ _ _ _ := b in n.
Definition blob_type (b : blob) : string := let 'Blob _ t _ _ _ := b in t.
Definition blob_class (b : blob) : option Format :=
  let 'Blob _ _ c _ _ := b in c.
Definition blob_parses (b : blob) : bool := let 'Blob _ _ _ p _ := b in p.
Definition blob_inner (b : blob) : list blob := let 'Blob _ _ _ _ i := b in i.

Record archive_obj := mk_archive {
  a_filename : string;
  a_class : Format;
  a_parentEntry : option eptr;
  a_rootDir : dptr
}.

Record dir_obj := mk_dir {
  d_archive : option aptr;
  d_dirEntry : option eptr;
  d_parent : option dptr
}.

Record entry_obj := mk_entry {
  e_alive : bool;
  e_parentDir : option dptr;
  e_type : string;
  e_blob : blob
}.

Record heap := mk_heap {
  archives : list archive_obj;
  dirs : list dir_obj;
  entries : list entry_obj;
  files : list (string * blob);
  folders : list string;
  clock : Z
}.

Definition class_id (f : Format) : string :=
  match f with
  | Wad => "wad" | Zip => "zip" | Dir => "folder" | _ => "other"
  end.

Definition entry_parent (w : heap) (e : eptr) : option aptr :=
  o ← entries w !! e; d ← e_parentDir o; o' ← dirs w !! d; d_archive o'.

Definition entry_name (w : heap) (e : eptr) : string :=
  default "" (blob_name ∘ e_blob <$> entries w !! e).

Definition entry_alive (w : heap) (e : eptr) : bool :=
  default false (e_alive <$> entries w !! e).

(** The live entries that satisfy [p], in the order of their creation. *)
Definition entries_where (w : heap) (p : eptr → bool) : list eptr :=
  List.filter (λ e, entry_alive w e && p e) (seq 0 (length (entries w))).

Definition entries_of (w : heap) (a : aptr) : list eptr :=
  entries_where w (λ e, bool_decide (entry_parent w e = Some a)).

Definition named (w : heap) (a : aptr) (name : string) : list eptr :=
  List.filter (λ e, bool_decide (entry_name w e = name)) (entries_of w a).

Definition root_of (w : heap) (a : aptr) : dptr :=
  default 0%nat (a_rootDir <$> archives w !! a).

Definition file_blob (w : heap) (path : string) : option blob :=
  snd <$> List.find (λ f, bool_decide (f.1 = path)) (files w).

(** [make_shared]: a new archive object with an empty root directory. *)
Definition alloc (f : Format) (w : heap) : aptr * heap :=
  let a := length (archives w) in
  let d := length (dirs w) in
  (a, mk_heap (archives w ++ [mk_archive "" f None d])
        (dirs w ++ [mk_dir (Some a) None None])
        (entries w) (files w) (folders w) (clock w)).

(** A successful parse of [b] into archive [a]: the entries of [b] are put
    in the root directory of [a]. *)
Definition load (a : aptr) (filename : string) (parent : option eptr)
    (b : blob) (w : heap) : heap :=
  let d := root_of w a in
  mk_heap
    (alter (λ o, mk_archive filename (a_class o) parent (a_rootDir o)) a
       (archives w))
    (dirs w)
    (entries w
     ++ ((λ b', mk_entry true (Some d) (blob_type b') b') <$> blob_inner b))
    (files w) (folders w) (clock w).

Definition open_file (a : aptr) (path : string) (w : heap) : bool * heap :=
  match file_blob w path with
  | Some b => if blob_parses b then (true, load a path None b w) else (false, w)
  | None => (false, w)
  end.

Definition open_entry (a : aptr) (e : eptr) (w : heap) : bool * heap :=
  match entries w !! e with
  | Some o =>
      if blob_parses (e_blob o)
      then (true, load a (blob_name (e_blob o)) (Some e) (e_blob o) w)
      else (false, w)
  | None => (false, w)
  end.

(** [Archive::close]: the entries of the archive are released. *)
Definition close (a : aptr) (w : heap) : heap :=
  mk_heap (archives w) (dirs w)
    (imap (λ e o, if bool_decide (entry_parent w e = Some a)
                  then mk_entry false (e_parentDir o) (e_type o) (e_blob o)
                  else o) (entries w))
    (files w) (folders w) (clock w).

Definition detect_type (e : eptr) (w : heap) : heap :=
  mk_heap (archives w) (dirs w)
    (alter (λ o, mk_entry (e_alive o) (e_parentDir o)
                   (if bool_decide (blob_class (e_blob o) = Some Wad)
                    then "wad" else "data") (e_blob o)) e (entries w))
    (files w) (folders w) (clock w).

Definition lower (c : Ascii.ascii) : Ascii.ascii :=
  let n := Ascii.nat_of_ascii c in
  if ((65 <=? n) && (n <=? 90))%nat then Ascii.ascii_of_nat (n + 32) else c.

Fixpoint lower_string (s : string) : string :=
  match s with
  | EmptyString => EmptyString
  | String c s => String (lower c) (lower_string s)
  end.

Definition ends_with_ci (s suffix : string) : bool :=
  let n := String.length s in
  let m := String.length suffix in
  (m <=? n)%nat
  && String.eqb (lower_string (String.substring (n - m) m s)) (lower_string suffix).

#[global] Instance collaborators : Collaborators heap string := {|
  Archive_filename w a := default "" (a_filename <$> archives w !! a);
  Archive_formatId w a := default "" (class_id ∘ a_class <$> archives w !! a);
  Archive_parentEntry w a := o ← archives w !! a; a_parentEntry o;
  Archive_rootDir := root_of;
  Archive_entry w a name := head (named w a name);
  Archive_findLast w a name := last (named w a name);
  Archive_findAll := named;
  Archive_open_file := open_file;
  Archive_open_entry := open_entry;
  Archive_close := close;
  make_shared := alloc;
  isArchive_file w f path :=
    bool_decide ((file_blob w path ≫= blob_class) = Some f);
  isArchive_data w f e :=
    bool_decide ((entries w !! e ≫= blob_class ∘ e_blob) = Some f);
  ArchiveDir_allEntries w d :=
    entries_where w
      (λ e, bool_decide ((entries w !! e ≫= e_parentDir) = Some d));
  ArchiveDir_archive w d := o ← dirs w !! d; d_archive o;
  ArchiveDir_dirEntry w d := o ← dirs w !! d; d_dirEntry o;
  ArchiveDir_parent w d := o ← dirs w !! d; d_parent o;
  ArchiveEntry_lock := entry_alive;
  ArchiveEntry_parent := entry_parent;
  ArchiveEntry_parentDir w e := o ← entries w !! e; e_parentDir o;
  ArchiveEntry_name := entry_name;
  ArchiveEntry_type w e := default "" (e_type <$> entries w !! e);
  EntryType_detectEntryType := detect_type;
  StrUtil_endsWithCI := ends_with_ci;
  FileUtil_dirExists w path := bool_decide (path ∈ folders w);
  FileUtil_fileModifiedTime w path := 0;
  SFile_size w path := 0;
  SFile_calculateMD5 w path := "";
  DateTime_now := clock
|}.

(** A manager over heap [w] with open list [l], bookmarks [bm] and base
    resource slot [b]. *)
Definition manager (w : heap) (l : list OpenArchive)
    (bm : list (option eptr)) (b : option aptr) (i : Z) : Manager heap :=
  mkManager w l bm b i true [] [] [] (mkDatabase true true ∅ ∅) "".

End Toy.

(** * Properties *)

Section Lookup.
Context {W Opt : Type} {C : Collaborators W Opt}.
Implicit Type s : Manager W.

(** What [archiveIndex] answers: -1 when no record holds the archive, the
    first position that does otherwise. *)
Inductive archiveIndex_result (l : list OpenArchive) (p : option aptr)
    : Z → Prop :=
| index_absent :
    (∀ oa, oa ∈ l → Some (archive oa) ≠ p) →
    archiveIndex_result l p (-1)
| index_found i oa :
    l !! i = Some oa →
    Some (archive oa) = p →
    (∀ j oa', (j < i)%nat → l !! j = Some oa' → Some (archive oa') ≠ p) →
    archiveIndex_result l p (Z.of_nat i).

Lemma archiveIndex_from_shift a l p :
  archiveIndex_from (S a) l p =
  if decide (archiveIndex_from a l p = -1) then -1
  else archiveIndex_from a l p + 1.
Proof.
  revert a. induction l as [|oa l IH]; intros a; simpl.
  - done.
  - destruct (decide (Some (archive oa) = p)).
    + case_decide; lia.
    + apply IH.
Qed.

Lemma archiveIndex_from_0 l p : archiveIndex_result l p (archiveIndex_from 0 l p).
Proof.
  induction l as [|oa l IH]; simpl.
  - constructor. intros oa Hoa. by apply elem_of_nil in Hoa.
  - destruct (decide (Some (archive oa) = p)) as [Heq|Hne].
    + apply (index_found _ _ 0%nat oa); [done|done|]. intros; lia.
    + rewrite archiveIndex_from_shift.
      destruct IH as [Habs|i oa' Hi Hp Hfirst].
      * rewrite decide_True by done. constructor.
        intros oa' [-> |Hin]%elem_of_cons; auto.
      * rewrite decide_False by lia.
        replace (Z.of_nat i + 1) with (Z.of_nat (S i)) by lia.
        apply (index_found _ _ (S i) oa'); [done|done|].
        intros [|j] oa'' Hj Hl; simpl in Hl.
        -- by injection Hl as <-.
        -- apply (Hfirst j); [lia|done].
Qed.

Lemma archiveIndex_spec s p :
  archiveIndex_result (open_archives_ s) p (archiveIndex s p).
Proof. apply archiveIndex_from_0. Qed.

Lemma archiveIndex_ge s p : -1 ≤ archiveIndex s p.
Proof. destruct (archiveIndex_spec s p); lia. Qed.

Lemma archiveIndex_absent s p :
  (∀ oa, oa ∈ open_archives_ s → Some (archive oa) ≠ p) →
  archiveIndex s p = -1.
Proof.
  intros Habs. destruct (archiveIndex_spec s p) as [|i oa Hi Hp _]; [done|].
  exfalso. apply (Habs oa); [|done]. by eapply list_elem_of_lookup_2.
Qed.

Lemma archiveIndex_found s p i oa :
  open_archives_ s !! i = Some oa →
  Some (archive oa) = p →
  (∀ j oa', (j < i)%nat → open_archives_ s !! j = Some oa' →
            Some (archive oa') ≠ p) →
  archiveIndex s p = Z.of_nat i.
Proof.
  intros Hi Hp Hfirst.
  destruct (archiveIndex_spec s p) as [Habs|i' oa' Hi' Hp' Hfirst'].
  - exfalso. apply (Habs oa); [|done]. by eapply list_elem_of_lookup_2.
  - destruct (lt_eq_lt_dec i i') as [[Hlt| ->]|Hgt]; [|done|].
    + exfalso. by apply (Hfirst' i oa).
    + exfalso. by apply (Hfirst i' oa').
Qed.

End Lookup.

(** ** The resource flag *)

Section ResourceFlag.
Context {W Opt : Type} {C : Collaborators W Opt}.
Implicit Type s : Manager W.

(** What [setArchiveResource] asks of the Resource Index when the flag of a
    record goes from [was] to [res]. *)
Definition flag_calls (a : aptr) (was res : bool) : list ResourceCall :=
  match was, res with
  | false, true => [res_addArchive a]
  | true, false => [res_removeArchive a]
  | _, _ => []
  end.

Lemma setArchiveResource_absent s p res :
  archiveIndex s p = -1 → setArchiveResource p res s = s.
Proof. intros Hi. unfold setArchiveResource. by rewrite Hi. Qed.

Lemma setArchiveResource_found s p res i oa :
  archiveIndex s p = Z.of_nat i →
  open_archives_ s !! i = Some oa →
  setArchiveResource p res s =
  mkManager (world s)
    (<[i := mkOpenArchive (archive oa) res (open_children oa)]>
       (open_archives_ s))
    (bookmarks_ s) (base_resource_archive_ s) (base_resource s)
    (auto_open_wads_root s) (announced s) (listening s)
    (flag_calls (archive oa) (resource oa) res ++ resources s)
    (database s) (Global_error s).
Proof.
  intros Hi Hoa. unfold setArchiveResource. rewrite Hi.
  destruct (Z.leb_spec 0 (Z.of_nat i)); [|lia].
  rewrite Nat2Z.id, Hoa.
  by destruct res, (resource oa).
Qed.

(** C10.  [setArchiveResource] keeps the Resource Index in step with the
    flag of the record and asks nothing of it that is not needed: for an
    archive that no record of the list holds the state stays as it is; for an
    archive found at position [i] the flag of that record becomes [res], the
    Resource Index gets [addArchive] exactly when the flag goes from false to
    true and [removeArchive] exactly when it goes from true to false, and no
    call otherwise; with the flag's current value the whole state, list and
    Resource Index included, stays as it is. *)
Theorem C10_setArchiveResource_sync s (p : option aptr) (res : bool) :
  ((∀ oa, oa ∈ open_archives_ s → Some (archive oa) ≠ p) →
   setArchiveResource p res s = s)
  ∧ (∀ i oa,
       archiveIndex s p = Z.of_nat i →
       open_archives_ s !! i = Some oa →
       let s' := setArchiveResource p res s in
       open_archives_ s' =
         <[i := mkOpenArchive (archive oa) res (open_children oa)]>
           (open_archives_ s)
       ∧ resources s' =
           flag_calls (archive oa) (resource oa) res ++ resources s
       ∧ (res_addArchive (archive oa)
            ∈ flag_calls (archive oa) (resource oa) res
          ↔ resource oa = false ∧ res = true)
       ∧ (res_removeArchive (archive oa)
            ∈ flag_calls (archive oa) (resource oa) res
          ↔ resource oa = true ∧ res = false)
       ∧ (res = resource oa → s' = s)).
Proof.
  split.
  - intros Habs. apply setArchiveResource_absent.
    by apply archiveIndex_absent.
  - intros i oa Hi Hoa s'. subst s'.
    rewrite (setArchiveResource_found s p res i oa Hi Hoa). simpl.
    split; [done|]. split; [done|].
    split; [|split].
    + destruct (resource oa), res; simpl; split; intros Hx;
        try (by inversion Hx); try (destruct Hx; congruence);
        try (by apply list_elem_of_singleton);
        by apply list_elem_of_singleton in Hx.
    + destruct (resource oa), res; simpl; split; intros Hx;
        try (by inversion Hx); try (destruct Hx; congruence);
        try (by apply list_elem_of_singleton);
        by apply list_elem_of_singleton in Hx.
    + intros ->. destruct s as [w l]; simpl in *.
      replace (mkOpenArchive (archive oa) (resource oa) (open_children oa))
        with oa by (by destruct oa).
      rewrite list_insert_id by done.
      by destruct (resource oa).
Qed.

End ResourceFlag.

(** ** Facts about lists *)

Lemma filter_none {A} (P : A → Prop) `{!∀ x, Decision (P x)} (l : list A) :
  (∀ x, x ∈ l → ¬ P x) → filter P l = [].
Proof.
  induction l as [|x l IH]; intros Hl; [done|].
  rewrite filter_cons_False by (apply Hl; by left).
  apply IH. intros y Hy. apply Hl. by right.
Qed.

Lemma filter_all {A} (P : A → Prop) `{!∀ x, Decision (P x)} (l : list A) :
  (∀ x, x ∈ l → P x) → filter P l = l.
Proof.
  induction l as [|x l IH]; intros Hl; [done|].
  rewrite filter_cons_True by (apply Hl; by left).
  f_equal. apply IH. intros y Hy. apply Hl. by right.
Qed.

(** ** Bookmarks: adding *)

Section AddBookmark.
Context {W Opt : Type} {C : Collaborators W Opt}.
Implicit Type s : Manager W.

Lemma lock_Some w b e : lock w b = Some e → b = Some e.
Proof.
  destruct b as [e'|]; simpl; [|done].
  destruct (ArchiveEntry_lock w e'); congruence.
Qed.

Lemma lock_alive w e : ArchiveEntry_lock w e = true → lock w (Some e) = Some e.
Proof. intros He. simpl. by rewrite He. Qed.

Lemma already_bookmarked w e (l : list (option eptr)) :
  ArchiveEntry_lock w e = true →
  existsb (λ b, bool_decide (lock w b = Some e)) l = bool_decide (Some e ∈ l).
Proof.
  intros He. induction l as [|b l IH]; cbn [existsb].
  - symmetry. apply bool_decide_eq_false_2, not_elem_of_nil.
  - rewrite IH. destruct (decide (b = Some e)) as [->|Hne].
    + rewrite lock_alive by done.
      rewrite (bool_decide_eq_true_2 (Some e = Some e)) by done.
      rewrite (bool_decide_eq_true_2 (Some e ∈ Some e :: l)) by left.
      done.
    + rewrite (bool_decide_eq_false_2 (lock w b = Some e)).
      2:{ intros Hl. by apply lock_Some in Hl. }
      cbn [orb]. apply bool_decide_ext. rewrite elem_of_cons.
      split; [by right|]. by intros [?|?].
Qed.

Lemma addBookmark_present s e :
  ArchiveEntry_lock (world s) e = true →
  Some e ∈ bookmarks_ s →
  addBookmark (Some e) s = s.
Proof.
  intros He Hin. unfold addBookmark.
  by rewrite already_bookmarked, bool_decide_eq_true_2.
Qed.

Lemma addBookmark_fresh s e :
  ArchiveEntry_lock (world s) e = true →
  Some e ∉ bookmarks_ s →
  addBookmark (Some e) s =
  announce "bookmarks_changed" None
    (set_bookmarks (bookmarks_ s ++ [Some e]) s).
Proof.
  intros He Hin. unfold addBookmark.
  by rewrite already_bookmarked, bool_decide_eq_false_2.
Qed.

(** C8.  [addBookmark] on a live entry [e]: when [e] is in the bookmark
    list already, the state stays as it is (same list, nothing announced);
    otherwise exactly one bookmark is appended and [bookmarks_changed] is
    announced once.  A second call with the same entry changes nothing, so
    bookmarking an entry twice leaves exactly one bookmark of it. *)
Theorem C8_addBookmark_idempotent s (e : eptr) :
  ArchiveEntry_lock (world s) e = true →
  (Some e ∈ bookmarks_ s → addBookmark (Some e) s = s)
  ∧ (Some e ∉ bookmarks_ s →
     bookmarks_ (addBookmark (Some e) s) = bookmarks_ s ++ [Some e]
     ∧ announced (addBookmark (Some e) s) =
         announced s ++ [mkAnnouncement "bookmarks_changed" None])
  ∧ addBookmark (Some e) (addBookmark (Some e) s) = addBookmark (Some e) s
  ∧ (Some e ∉ bookmarks_ s →
     bookmarks_ (addBookmark (Some e) (addBookmark (Some e) s)) =
       bookmarks_ s ++ [Some e]
     ∧ length (filter (λ b, b = Some e)
                 (bookmarks_ (addBookmark (Some e) (addBookmark (Some e) s))))
       = 1%nat).
Proof.
  intros He.
  assert (Hsecond : addBookmark (Some e) (addBookmark (Some e) s)
                    = addBookmark (Some e) s).
  { destruct (decide (Some e ∈ bookmarks_ s)) as [Hin|Hnin].
    - rewrite (addBookmark_present s e He Hin).
      by apply addBookmark_present.
    - rewrite (addBookmark_fresh s e He Hnin).
      apply addBookmark_present; [done|]. simpl.
      apply elem_of_app. right. by left. }
  split; [by apply addBookmark_present|].
  split; [intros Hnin; by rewrite addBookmark_fresh|].
  split; [done|].
  intros Hnin. rewrite Hsecond, addBookmark_fresh by done. simpl.
  split; [done|].
  rewrite filter_app, length_app.
  rewrite (filter_none _ (bookmarks_ s)) by (by intros b Hb ->).
  by rewrite filter_cons_True.
Qed.

End AddBookmark.

(** ** Resource lookup *)

Section ResourceLookup.
Context {W Opt : Type} {C : Collaborators W Opt}.
Implicit Type s : Manager W.

(** The archives of the open list a resource query asks, in the order of
    the list: those flagged as a resource, without the ignored one. *)
Definition consulted (l : list OpenArchive) (ignore : option aptr)
    : list aptr :=
  archive <$>
    filter (λ oa, resource oa = true ∧ Some (archive oa) ≠ ignore) l.

Lemma consulted_cons oa l ignore :
  consulted (oa :: l) ignore =
  if negb (resource oa) then consulted l ignore
  else if decide (Some (archive oa) = ignore) then consulted l ignore
  else archive oa :: consulted l ignore.
Proof.
  unfold consulted. rewrite filter_cons.
  destruct (resource oa); cbn [negb].
  - destruct (decide (Some (archive oa) = ignore)).
    + rewrite decide_False; [done|]. by intros [_ ?].
    + by rewrite decide_True.
  - rewrite decide_False; [done|]. by intros [? _].
Qed.

Lemma elem_of_consulted a l ignore :
  a ∈ consulted l ignore ↔
  ∃ oa, oa ∈ l ∧ archive oa = a ∧ resource oa = true
        ∧ Some (archive oa) ≠ ignore.
Proof.
  unfold consulted. rewrite list_elem_of_fmap. split.
  - intros (oa & -> & Hin). apply list_elem_of_filter in Hin as [[? ?] ?].
    by exists oa.
  - intros (oa & Hin & <- & Hr & Hi). exists oa. split; [done|].
    apply list_elem_of_filter. done.
Qed.

Lemma getResourceEntry_in_consulted w l name ignore :
  getResourceEntry_in w l name ignore =
  head (omap (λ a, Archive_entry w a name) (consulted l ignore)).
Proof.
  induction l as [|oa l IH]; [done|].
  simpl. rewrite consulted_cons.
  destruct (resource oa); simpl; [|done].
  destruct (decide (Some (archive oa) = ignore)); [done|].
  simpl. by destruct (Archive_entry w (archive oa) name).
Qed.

Lemma findResourceEntry_in_consulted w l options ignore :
  findResourceEntry_in w l options ignore =
  head (omap (λ a, Archive_findLast w a options) (consulted l ignore)).
Proof.
  induction l as [|oa l IH]; [done|].
  simpl. rewrite consulted_cons.
  destruct (resource oa); simpl; [|done].
  destruct (decide (Some (archive oa) = ignore)); [done|].
  simpl. by destruct (Archive_findLast w (archive oa) options).
Qed.

Lemma findAllResourceEntries_in_consulted w l options ignore ret :
  findAllResourceEntries_in w l options ignore ret =
  ret ++ (consulted l ignore ≫= λ a, Archive_findAll w a options).
Proof.
  revert ret. induction l as [|oa l IH]; intros ret.
  - simpl. by rewrite app_nil_r.
  - simpl. rewrite consulted_cons.
    destruct (resource oa); simpl; [|done].
    destruct (decide (Some (archive oa) = ignore)); [done|].
    rewrite IH. simpl. by rewrite <- app_assoc.
Qed.

Lemma head_omap_app {A B} (f : A → option B) (l : list A) (x : A) :
  head (omap f (l ++ [x])) =
  match head (omap f l) with
  | Some y => Some y
  | None => f x
  end.
Proof.
  rewrite omap_app. destruct (omap f l) as [|y l']; simpl.
  - by destruct (f x).
  - done.
Qed.

(** C5.  With a base resource archive [b] active,
    [findAllResourceEntries] answers the matches of [b] first and then the
    matches of the consulted open archives in the order of the open list;
    [getResourceEntry] and [findResourceEntry] answer the first hit in the
    sequence "consulted open archives in the order of the list, then [b]":
    the base archive is asked last, only when no open archive has a hit. *)
Theorem C5_lookup_order s (b : aptr) (ignore : option aptr) :
  base_resource_archive_ s = Some b →
  (∀ options,
     findAllResourceEntries s options ignore =
     Archive_findAll (world s) b options
     ++ (consulted (open_archives_ s) ignore
           ≫= λ a, Archive_findAll (world s) a options))
  ∧ (∀ name,
       getResourceEntry s name ignore =
       head (omap (λ a, Archive_entry (world s) a name)
               (consulted (open_archives_ s) ignore ++ [b])))
  ∧ (∀ options,
       findResourceEntry s options ignore =
       head (omap (λ a, Archive_findLast (world s) a options)
               (consulted (open_archives_ s) ignore ++ [b]))).
Proof.
  intros Hb. split; [|split].
  - intros options. unfold findAllResourceEntries.
    by rewrite Hb, findAllResourceEntries_in_consulted.
  - intros name. unfold getResourceEntry.
    by rewrite Hb, head_omap_app, getResourceEntry_in_consulted.
  - intros options. unfold findResourceEntry.
    by rewrite Hb, head_omap_app, findResourceEntry_in_consulted.
Qed.

(** The contract of the codecs a lookup relies on: what an archive answers
    to a query is one of its own entries. *)
Definition answers_own_entries (w : W) : Prop :=
  (∀ a name e, Archive_entry w a name = Some e →
               ArchiveEntry_parent w e = Some a)
  ∧ (∀ a options e, Archive_findLast w a options = Some e →
                    ArchiveEntry_parent w e = Some a)
  ∧ (∀ a options e, e ∈ Archive_findAll w a options →
                    ArchiveEntry_parent w e = Some a).

Lemma head_omap_Some {A B} (f : A → option B) (l : list A) (y : B) :
  head (omap f l) = Some y → ∃ x, x ∈ l ∧ f x = Some y.
Proof.
  induction l as [|x l IH]; simpl; [done|].
  destruct (f x) as [y'|] eqn:Hfx; simpl.
  - intros [= ->]. exists x. split; [by left|done].
  - intros (x' & Hin & Hf)%IH. exists x'. split; [by right|done].
Qed.

(** C4.  Let every record of archive [a] in the open list be flagged as
    not a resource, and let [a] not be the base resource archive (which is
    kept in a slot of its own, outside the list).  Then no entry of [a] is
    answered by [getResourceEntry] or [findResourceEntry], and none is in the
    list answered by [findAllResourceEntries], whatever the query and
    whatever archive is ignored. *)
Theorem C4_non_resource_never_answered s (a : aptr) (ignore : option aptr) :
  answers_own_entries (world s) →
  (∀ oa, oa ∈ open_archives_ s → archive oa = a → resource oa = false) →
  base_resource_archive_ s ≠ Some a →
  (∀ name e, getResourceEntry s name ignore = Some e →
             ArchiveEntry_parent (world s) e ≠ Some a)
  ∧ (∀ options e, findResourceEntry s options ignore = Some e →
                  ArchiveEntry_parent (world s) e ≠ Some a)
  ∧ (∀ options e, e ∈ findAllResourceEntries s options ignore →
                  ArchiveEntry_parent (world s) e ≠ Some a).
Proof.
  intros (Hentry & Hlast & Hall) Hflag Hbase.
  assert (Hcons : ∀ a', a' ∈ consulted (open_archives_ s) ignore → a' ≠ a).
  { intros a' (oa & Hin & <- & Hres & _)%elem_of_consulted Heq.
    specialize (Hflag oa Hin Heq). congruence. }
  split; [|split].
  - intros name e. unfold getResourceEntry.
    rewrite getResourceEntry_in_consulted.
    destruct (head _) as [e'|] eqn:Hhead.
    + intros [= ->]. apply head_omap_Some in Hhead as (a' & Hin & He).
      rewrite (Hentry _ _ _ He). intros [= ->]. by apply (Hcons a).
    + destruct (base_resource_archive_ s) as [b|]; [|done].
      intros He. rewrite (Hentry _ _ _ He). congruence.
  - intros options e. unfold findResourceEntry.
    rewrite findResourceEntry_in_consulted.
    destruct (head _) as [e'|] eqn:Hhead.
    + intros [= ->]. apply head_omap_Some in Hhead as (a' & Hin & He).
      rewrite (Hlast _ _ _ He). intros [= ->]. by apply (Hcons a).
    + destruct (base_resource_archive_ s) as [b|]; [|done].
      intros He. rewrite (Hlast _ _ _ He). congruence.
  - intros options e. unfold findAllResourceEntries.
    rewrite findAllResourceEntries_in_consulted.
    intros [Hin|Hin]%elem_of_app.
    + destruct (base_resource_archive_ s) as [b|];
        [|by apply elem_of_nil in Hin].
      simpl in Hin. rewrite (Hall _ _ _ Hin). congruence.
    + apply list_elem_of_bind in Hin as (a' & He & Hin).
      rewrite (Hall _ _ _ He). intros [= ->]. by apply (Hcons a).
Qed.

End ResourceLookup.

(** ** Opening: the archive is open already, or the open fails *)

Section Open.
Context {W Opt : Type} {C : Collaborators W Opt}.
Implicit Type s : Manager W.

Lemma getArchive_in_Some w l filename a :
  getArchive_in w l filename = Some a →
  ∃ i oa, l !! i = Some oa ∧ archive oa = a
          ∧ Archive_filename w a = filename
          ∧ ∀ j oa', (j < i)%nat → l !! j = Some oa' →
                     Archive_filename w (archive oa') ≠ filename.
Proof.
  induction l as [|oa l IH]; simpl; [done|].
  destruct (decide (Archive_filename w (archive oa) = filename)) as [Hf|Hf].
  - intros [= <-]. exists 0%nat, oa. repeat split; try done. intros; lia.
  - intros (i & oa' & Hi & Ha & Hn & Hfirst)%IH.
    exists (S i), oa'. repeat split; try done.
    intros [|j] oa'' Hj Hl; simpl in Hl.
    + by injection Hl as <-.
    + apply (Hfirst j); [lia|done].
Qed.

Lemma to_uint32_position (i n : nat) :
  (i < n)%nat → Z.of_nat n < 2 ^ 31 → to_uint32 (Z.of_nat i) = Z.of_nat i.
Proof. intros Hi Hn. unfold to_uint32. apply Z.mod_small. lia. Qed.

(** C2.  When a record of the open list holds an archive whose filename is
    [path] (the list has fewer than 2^31 records, positions being [int]s),
    [openArchive path manage silent] answers that very archive, the first
    such in the list, and leaves the state as it is but for one
    announcement: nothing is added to the list, the Resource Index is not
    called, no row of [archive_file] is written; [archive_opened] is
    announced with the position of that record exactly when [silent] is
    false.  No fuel is needed.  (Table [archive_file] is a map keyed by its
    UNIQUE column [path]: the upsert of a first open writes the row of its
    own path and no other, so there is one row for a path.) *)
Theorem C2_reopen_answers_existing (fuel : nat) s (path : string)
    (manage silent : bool) (a : aptr) :
  Z.of_nat (length (open_archives_ s)) < 2 ^ 31 →
  getArchive s path = Some a →
  ∃ i oa,
    open_archives_ s !! i = Some oa ∧ archive oa = a
    ∧ Archive_filename (world s) a = path
    ∧ archiveIndex s (Some a) = Z.of_nat i
    ∧ openArchive fuel path manage silent s =
        Ok (Some a,
            if silent then s
            else announce "archive_opened" (Some (Z.of_nat i)) s)
    ∧ (∀ p a' q,
         q ≠ p →
         archive_file (database (addOrUpdateArchiveDB p a' s)) !! q =
         archive_file (database s) !! q).
Proof.
  intros Hlen Hget.
  assert (Hrows : ∀ p a' q,
            q ≠ p →
            archive_file (database (addOrUpdateArchiveDB p a' s)) !! q =
            archive_file (database s) !! q).
  { intros p a' q Hne. unfold addOrUpdateArchiveDB.
    destruct (db_query_ok (database s)); [|done].
    simpl. by rewrite lookup_insert_ne. }
  destruct (getArchive_in_Some _ _ _ _ Hget)
    as (i & oa & Hi & Ha & Hname & Hfirst).
  assert (Hidx : archiveIndex s (Some a) = Z.of_nat i).
  { apply (archiveIndex_found s (Some a) i oa); [done|by rewrite Ha|].
    intros j oa' Hj Hl [= Heq]. apply (Hfirst j oa' Hj Hl). by rewrite Heq. }
  exists i, oa. repeat split; try done.
  assert (Hann : announce_opened silent a s =
                 if silent then s
                 else announce "archive_opened" (Some (Z.of_nat i)) s).
  { unfold announce_opened. destruct silent; [done|].
    rewrite Hidx, (to_uint32_position i (length (open_archives_ s))); try done.
    by eapply lookup_lt_Some. }
  unfold openArchive, openDirArchive.
  destruct (FileUtil_dirExists (world s) path); by rewrite Hget, Hann.
Qed.

(** The open list, the Resource Index and the database are the same in
    [s'] as in [s]. *)
Definition stores_kept s s' : Prop :=
  open_archives_ s' = open_archives_ s
  ∧ resources s' = resources s
  ∧ database s' = database s.

Lemma openArchive_entry_None addA entry manage silent s s' :
  openArchive_entry_with addA entry manage silent s = Ok (None, s') →
  stores_kept s s'.
Proof.
  unfold openArchive_entry_with.
  destruct entry as [e|]; [|by intros [= <-]].
  destruct (List.find _ _); [done|].
  destruct (detect_entry (world s) e) as [f|]; [|by intros [= <-]].
  destruct (make_shared f (world s)) as [a w].
  destruct (Archive_open_entry a e w) as [[] w']; [|by intros [= <-]].
  destruct manage; [|done].
  match goal with |- context [addA ?x ?y] => destruct (addA x y) as [[b t]| |] end;
    done.
Qed.

Lemma openDirArchive_None fuel dir manage silent s s' :
  openDirArchive fuel dir manage silent s = Ok (None, s') →
  stores_kept s s'.
Proof.
  unfold openDirArchive.
  destruct (getArchive s dir); [done|].
  destruct (make_shared Dir (world s)) as [a w].
  destruct (Archive_open_file a dir w) as [[] w']; [|by intros [= <-]].
  destruct manage; [|done].
  destruct (addArchive fuel _ _) as [[b t]| |]; done.
Qed.

Lemma openArchive_None fuel path manage silent s s' :
  openArchive fuel path manage silent s = Ok (None, s') →
  stores_kept s s'.
Proof.
  unfold openArchive.
  destruct (FileUtil_dirExists (world s) path);
    [apply openDirArchive_None|].
  destruct (getArchive s path); [done|].
  destruct (detect_file (world s) path) as [f|]; [|by intros [= <-]].
  destruct (make_shared f (world s)) as [a w].
  destruct (Archive_open_file a path w) as [[] w']; [|by intros [= <-]].
  destruct manage; [|done].
  destruct (addArchive fuel _ _) as [[b t]| |]; done.
Qed.

(** C3.  A failed open registers nothing.  For a path that is no directory
    and for an entry, neither open yet: when no recogniser matches,
    [openArchive] answers null with the error "Unsupported or invalid
    Archive format"; when class [f] is recognised and its parse fails,
    [openArchive] answers null; the same holds for a directory whose parse
    fails.  And whenever [openArchive] answers null, the open list, the
    Resource Index and the database are what they were before the call. *)
Theorem C3_failed_open_registers_nothing (fuel : nat) s
    (manage silent : bool) :
  (∀ path,
     FileUtil_dirExists (world s) path = false →
     getArchive s path = None →
     detect_file (world s) path = None →
     ∃ s', openArchive fuel path manage silent s = Ok (None, s')
           ∧ Global_error s' = "Unsupported or invalid Archive format"
           ∧ stores_kept s s')
  ∧ (∀ path f,
       FileUtil_dirExists (world s) path = false →
       getArchive s path = None →
       detect_file (world s) path = Some f →
       (Archive_open_file (make_shared f (world s)).1 path
          (make_shared f (world s)).2).1 = false →
       ∃ s', openArchive fuel path manage silent s = Ok (None, s')
             ∧ stores_kept s s')
  ∧ (∀ dir,
       FileUtil_dirExists (world s) dir = true →
       getArchive s dir = None →
       (Archive_open_file (make_shared Dir (world s)).1 dir
          (make_shared Dir (world s)).2).1 = false →
       ∃ s', openArchive fuel dir manage silent s = Ok (None, s')
             ∧ stores_kept s s')
  ∧ (∀ e,
       (∀ oa, oa ∈ open_archives_ s →
              Archive_parentEntry (world s) (archive oa) ≠ Some e) →
       detect_entry (world s) e = None →
       ∃ s', openArchive_entry fuel (Some e) manage silent s = Ok (None, s')
             ∧ Global_error s' = "Unsupported or invalid Archive format"
             ∧ stores_kept s s')
  ∧ (∀ e f,
       (∀ oa, oa ∈ open_archives_ s →
              Archive_parentEntry (world s) (archive oa) ≠ Some e) →
       detect_entry (world s) e = Some f →
       (Archive_open_entry (make_shared f (world s)).1 e
          (make_shared f (world s)).2).1 = false →
       ∃ s', openArchive_entry fuel (Some e) manage silent s = Ok (None, s')
             ∧ stores_kept s s')
  ∧ (∀ path s', openArchive fuel path manage silent s = Ok (None, s') →
                stores_kept s s')
  ∧ (∀ entry s',
       openArchive_entry fuel entry manage silent s = Ok (None, s') →
       stores_kept s s').
Proof.
  assert (Hfind : ∀ e,
    (∀ oa, oa ∈ open_archives_ s →
           Archive_parentEntry (world s) (archive oa) ≠ Some e) →
    List.find (λ oa, bool_decide
                 (Archive_parentEntry (world s) (archive oa) = Some e))
      (open_archives_ s) = None).
  { intros e Hnot. destruct (List.find _ _) as [oa|] eqn:Hf; [|done].
    apply find_some in Hf as [Hin Hb]. apply bool_decide_eq_true in Hb.
    exfalso. apply (Hnot oa); [|done]. by apply list_elem_of_In. }
  split_and!.
  - intros path Hdir Hget Hdet. eexists. unfold openArchive.
    rewrite Hdir, Hget, Hdet. done.
  - intros path f Hdir Hget Hdet Hfail. unfold openArchive.
    rewrite Hdir, Hget, Hdet.
    destruct (make_shared f (world s)) as [a w]. simpl in Hfail.
    destruct (Archive_open_file a path w) as [ok w']. simpl in Hfail.
    subst ok. by eexists.
  - intros dir Hdir Hget Hfail. unfold openArchive, openDirArchive.
    rewrite Hdir, Hget.
    destruct (make_shared Dir (world s)) as [a w]. simpl in Hfail.
    destruct (Archive_open_file a dir w) as [ok w']. simpl in Hfail.
    subst ok. by eexists.
  - intros e Hnot Hdet. eexists.
    unfold openArchive_entry, openArchive_entry_with.
    rewrite (Hfind e Hnot), Hdet. done.
  - intros e f Hnot Hdet Hfail.
    unfold openArchive_entry, openArchive_entry_with.
    rewrite (Hfind e Hnot), Hdet.
    destruct (make_shared f (world s)) as [a w]. simpl in Hfail.
    destruct (Archive_open_entry a e w) as [ok w']. simpl in Hfail.
    subst ok. by eexists.
  - intros path s'. apply openArchive_None.
  - intros entry s'. apply openArchive_entry_None.
Qed.

End Open.

(** ** The base resource archive *)

Section BaseResource.
Context {W Opt : Type} {C : Collaborators W Opt}.
Implicit Type s : Manager W.

(** The call the manager makes on the Resource Index when it lets go of
    the base resource archive. *)
Definition release_calls (b : option aptr) : list ResourceCall :=
  match b with
  | Some b => [res_removeArchive b]
  | None => []
  end.

Lemma getBaseResourcePath_base s b :
  getBaseResourcePath (set_base_resource_archive b s) =
  getBaseResourcePath s.
Proof. done. Qed.

(** C6, as amended.  Unless a base resource archive is active and [index]
    is the current selection (then the call changes nothing and answers
    true), [openBaseResource index] with a negative index, or with an index
    for which [getBaseResourcePath] has no path, clears the selection: no
    base archive is active any more, the one that was active is removed from
    the Resource Index, [base_resource] is -1 and [base_resource_changed] is
    announced once.  The call answers false, sets no error and touches
    neither the open list nor the database; [getResourceEntry] afterwards
    answers from the consulted open archives alone. *)
Theorem C6_openBaseResource_clears s (index : Z) :
  ¬ (is_Some (base_resource_archive_ s) ∧ base_resource s = index) →
  index < 0 ∨ getBaseResourcePath s index = "" →
  ∃ s',
    openBaseResource index s = (false, s')
    ∧ base_resource_archive_ s' = None
    ∧ base_resource s' = -1
    ∧ announced s' =
        announced s ++ [mkAnnouncement "base_resource_changed" None]
    ∧ resources s' = release_calls (base_resource_archive_ s) ++ resources s
    ∧ (∀ b, base_resource_archive_ s = Some b →
            b ∉ resource_index (resources s'))
    ∧ Global_error s' = Global_error s
    ∧ open_archives_ s' = open_archives_ s
    ∧ database s' = database s
    ∧ world s' = world s
    ∧ ∀ name ignore,
        getResourceEntry s' name ignore =
        head (omap (λ a, Archive_entry (world s) a name)
                (consulted (open_archives_ s) ignore)).
Proof.
  intros Hother Hnone. unfold openBaseResource.
  assert (Hguard : bool_decide (is_Some (base_resource_archive_ s))
                   && (base_resource s =? index) = false).
  { apply andb_false_iff.
    destruct (decide (is_Some (base_resource_archive_ s))) as [Hb|Hb].
    - right. apply Z.eqb_neq. intros Heq. by apply Hother.
    - left. by apply bool_decide_eq_false_2. }
  rewrite Hguard.
  set (s1 := match base_resource_archive_ s with
             | Some b => set_base_resource_archive None
                           (call_resources (res_removeArchive b) s)
             | None => s
             end).
  assert (Hs1 : base_resource_archive_ s1 = None
                ∧ resources s1 =
                    release_calls (base_resource_archive_ s) ++ resources s
                ∧ announced s1 = announced s
                ∧ Global_error s1 = Global_error s
                ∧ open_archives_ s1 = open_archives_ s
                ∧ database s1 = database s
                ∧ world s1 = world s).
  { subst s1.
    destruct (base_resource_archive_ s) eqn:Hbs; simpl; split_and!; done. }
  destruct Hs1 as (Hb1 & Hr1 & Ha1 & He1 & Ho1 & Hd1 & Hw1).
  assert (Hfile : (if 0 <=? index then getBaseResourcePath s1 index else "")
                  = "").
  { destruct (Z.leb_spec 0 index); [|done].
    destruct Hnone as [?|Hp]; [lia|].
    unfold getBaseResourcePath in *. by rewrite Hd1. }
  rewrite Hfile. rewrite decide_True by done.
  eexists. split; [done|]. simpl.
  split_and!; try done.
  - by rewrite Ha1.
  - intros b Hb. rewrite Hr1, Hb. simpl.
    rewrite elem_of_difference, elem_of_singleton. by intros [_ ?].
  - intros name ignore. unfold getResourceEntry. simpl.
    rewrite Hb1, Ho1, Hw1, getResourceEntry_in_consulted.
    by destruct (head _).
Qed.

End BaseResource.

(** ** Bookmarks: pruning a directory *)

(** [pruned P l l']: [l'] is [l] without the elements that satisfy [P], in
    the same order. *)
Inductive pruned {A} (P : A → Prop) : list A → list A → Prop :=
| pruned_nil : pruned P [] []
| pruned_drop x l l' : P x → pruned P l l' → pruned P (x :: l) l'
| pruned_keep x l l' : ¬ P x → pruned P l l' → pruned P (x :: l) (x :: l').

Lemma pruned_elem_of {A} (P : A → Prop) l l' x :
  pruned P l l' → (x ∈ l' ↔ x ∈ l ∧ ¬ P x).
Proof.
  induction 1 as [|y l l' Hy _ IH|y l l' Hy _ IH].
  - rewrite elem_of_nil. tauto.
  - rewrite IH, elem_of_cons. split; [tauto|].
    intros [[->|?] ?]; tauto.
  - rewrite !elem_of_cons, IH. split.
    + intros [->|[? ?]]; tauto.
    + intros [[->|?] ?]; tauto.
Qed.

Lemma pruned_length {A} (P : A → Prop) (l l' : list A) :
  pruned P l l' → (length l' ≤ length l)%nat.
Proof. induction 1; simpl; lia. Qed.

Lemma pruned_ext {A} (P Q : A → Prop) (l l' : list A) :
  (∀ x, x ∈ l → P x ↔ Q x) → pruned P l l' → pruned Q l l'.
Proof.
  intros Hext Hp. induction Hp as [|y l l' Hy _ IH|y l l' Hy _ IH].
  - constructor.
  - apply pruned_drop.
    + apply Hext; [by left|done].
    + apply IH. intros x Hx. apply Hext. by right.
  - apply pruned_keep.
    + intros HQ. apply Hy, Hext; [by left|done].
    + apply IH. intros x Hx. apply Hext. by right.
Qed.

Lemma pruned_insert {A} (P : A → Prop) (l1 l2 l' : list A) (x : A) :
  P x → pruned P (l1 ++ l2) l' → pruned P (l1 ++ x :: l2) l'.
Proof.
  intros Hx. revert l'. induction l1 as [|y l1 IH]; intros l' Hp; simpl in *.
  - by apply pruned_drop.
  - inversion Hp; subst.
    + apply pruned_drop; [done|]. by apply IH.
    + apply pruned_keep; [done|]. by apply IH.
Qed.

Section DeleteInDir.
Context {W Opt : Type} {C : Collaborators W Opt}.
Implicit Type s : Manager W.

(** [chain w root anode l]: walking up from [anode] arrives at [root], and
    [l] are the directories passed on the way, [root] itself not among
    them. *)
Inductive chain (w : W) (root : dptr) : option dptr → list dptr → Prop :=
| chain_root : chain w root (Some root) []
| chain_step d l :
    d ≠ root →
    chain w root (ArchiveDir_parent w d) l →
    chain w root (Some d) (d :: l).

(** Entry [e] lies under directory [node] of archive [a]: the walk from the
    directory of [e] towards the root of [a] passes through [node]. *)
Definition under (w : W) (a : aptr) (node : dptr) (e : eptr) : Prop :=
  ∃ l, chain w (Archive_rootDir w a) (ArchiveEntry_parentDir w e) l
       ∧ node ∈ l.

(** The walk from the directory of every live bookmarked entry of [a]
    arrives at the root of [a], in at most [fuel] steps. *)
Definition chains_end_at_root (fuel : nat) (w : W) (a : aptr)
    (l : list (option eptr)) : Prop :=
  ∀ e, Some e ∈ l → ArchiveEntry_lock w e = true →
       ArchiveEntry_parent w e = Some a →
       ∃ c, chain w (Archive_rootDir w a) (ArchiveEntry_parentDir w e) c
            ∧ (length c ≤ fuel)%nat.

(** The bookmarks [deleteBookmarksInDir] is to erase: those that no longer
    resolve, the one of the directory entry of [node], and those of the
    entries of the archive of [node] that lie under [node]. *)
Definition to_erase (w : W) (a : aptr) (node : dptr) (b : option eptr)
    : Prop :=
  lock w b = None
  ∨ ∃ e, lock w b = Some e
         ∧ (ArchiveDir_dirEntry w node = Some e
            ∨ (ArchiveEntry_parent w e = Some a ∧ under w a node e)).

(** What the [for] loop alone erases. *)
Definition loop_erases (w : W) (a : aptr) (node : dptr) (b : option eptr)
    : Prop :=
  lock w b = None
  ∨ ∃ e, lock w b = Some e
         ∧ ArchiveEntry_parent w e = Some a ∧ under w a node e.

Lemma chain_not_root w root anode l : chain w root anode l → root ∉ l.
Proof.
  induction 1 as [|d l Hd _ IH]; [apply not_elem_of_nil|].
  apply not_elem_of_cons. split; [done|exact IH].
Qed.

(** The walk stops when it arrives at the root: no entry lies under the
    root directory in the sense of the loop. *)
Lemma under_root w a e : ¬ under w a (Archive_rootDir w a) e.
Proof. intros (l & Hc & Hin). by apply (chain_not_root _ _ _ _ Hc). Qed.

Lemma chain_unique w root anode l l' :
  chain w root anode l → chain w root anode l' → l = l'.
Proof.
  intros Hc. revert l'. induction Hc as [|d l Hd _ IH]; intros l' Hc'.
  - by inversion Hc'.
  - inversion Hc' as [|d' l'' _ Hc'']; subst; [done|].
    f_equal. by apply IH.
Qed.

Lemma walk_up_chain fuel w root node anode l :
  chain w root anode l → (length l ≤ fuel)%nat →
  walk_up fuel w root node anode = Ok (bool_decide (node ∈ l)).
Proof.
  intros Hc. revert fuel. induction Hc as [|d l Hd _ IH]; intros fuel Hlen.
  - assert (Hnil : bool_decide (node ∈ @nil dptr) = false)
      by apply bool_decide_eq_false_2, not_elem_of_nil.
    rewrite Hnil. destruct fuel; cbn [walk_up]; by rewrite decide_True.
  - destruct fuel as [|fuel]; simpl in Hlen; [lia|]. cbn [walk_up].
    rewrite decide_False by congruence.
    destruct (decide (Some d = Some node)) as [[= ->]|Hne].
    + by rewrite bool_decide_eq_true_2 by left.
    + rewrite IH by lia. f_equal. apply bool_decide_ext.
      rewrite elem_of_cons. split; [by right|].
      intros [->|?]; [done|done].
Qed.

Lemma deleteBookmarksInDir_in_pruned fuel w a node l :
  chains_end_at_root fuel w a l →
  ∃ l' removed,
    deleteBookmarksInDir_in fuel w (Some a) node l = Ok (l', removed)
    ∧ pruned (loop_erases w a node) l l'
    ∧ (removed = false → l' = l)
    ∧ (removed = true → (length l' < length l)%nat).
Proof.
  induction l as [|b l IH]; intros Hch.
  - exists [], false. simpl. split_and!; try done. constructor.
  - destruct IH as (l' & removed & Hloop & Hpr & Hsame & Hless).
    { intros e He. apply Hch. by right. }
    simpl. destruct (lock w b) as [e|] eqn:Hlock.
    + assert (Hb : b = Some e) by by apply lock_Some in Hlock.
      assert (Halive : ArchiveEntry_lock w e = true).
      { subst b. simpl in Hlock. by destruct (ArchiveEntry_lock w e). }
      destruct (decide (ArchiveEntry_parent w e = Some a)) as [Hpar|Hpar].
      * destruct (Hch e) as (c & Hc & Hlen); [subst b; by left|done|done|].
        rewrite (walk_up_chain _ _ _ _ _ _ Hc Hlen). simpl.
        rewrite Hloop. simpl.
        destruct (decide (node ∈ c)) as [Hin|Hnin].
        -- rewrite bool_decide_eq_true_2 by done.
           exists l', true. split_and!; try done.
           ++ apply pruned_drop; [|done]. right. exists e.
              split_and!; try done. by exists c.
           ++ intros _. apply pruned_length in Hpr. simpl. lia.
        -- rewrite bool_decide_eq_false_2 by done.
           exists (b :: l'), removed. split_and!; try done.
           ++ apply pruned_keep; [|done].
              intros [Hnone|(e' & He' & _ & c' & Hc' & Hin)]; [congruence|].
              assert (e' = e) as -> by congruence.
              by rewrite (chain_unique _ _ _ _ _ Hc' Hc) in Hin.
           ++ intros Hr. by rewrite Hsame.
           ++ intros Hr. simpl. specialize (Hless Hr). lia.
      * simpl. rewrite Hloop. simpl.
        exists (b :: l'), removed. split_and!; try done.
        -- apply pruned_keep; [|done].
           intros [Hnone|(e' & He' & Hp' & _)]; congruence.
        -- intros Hr. by rewrite Hsame.
        -- intros Hr. simpl. specialize (Hless Hr). lia.
    + simpl. rewrite Hloop. simpl.
      exists l', true. split_and!; try done.
      * apply pruned_drop; [by left|done].
      * intros _. apply pruned_length in Hpr. simpl. lia.
Qed.

Lemma deleteBookmark_in_Some w entry l l' :
  deleteBookmark_in w entry l = Some l' →
  ∃ l1 b l2, l = l1 ++ b :: l2 ∧ l' = l1 ++ l2 ∧ lock w b = entry.
Proof.
  revert l'. induction l as [|b l IH]; intros l'; simpl; [done|].
  destruct (decide (lock w b = entry)) as [Hb|Hb].
  - intros [= <-]. by exists [], b, l.
  - destruct (deleteBookmark_in w entry l) as [l0|]; simpl; [|done].
    intros [= <-]. destruct (IH l0 eq_refl) as (l1 & b' & l2 & -> & -> & Hb').
    by exists (b :: l1), b', l2.
Qed.

Lemma deleteBookmark_in_None w entry l :
  deleteBookmark_in w entry l = None → ∀ b, b ∈ l → lock w b ≠ entry.
Proof.
  induction l as [|b l IH]; simpl; intros Hd b' Hin.
  - by apply elem_of_nil in Hin.
  - destruct (decide (lock w b = entry)) as [Hb|Hb]; [done|].
    destruct (deleteBookmark_in w entry l) as [l0|]; simpl in Hd; [done|].
    apply elem_of_cons in Hin as [->|Hin]; [done|by apply IH].
Qed.

(** C9.  Let [node] be a directory of archive [a], let no bookmark occur
    twice in the list, and let the walk from the directory of every live
    bookmarked entry of [a] arrive at the root of [a] within [fuel] steps.
    Then [deleteBookmarksInDir] returns, and the bookmarks it leaves are the
    old ones, in their order, without exactly these: the bookmark of the
    directory entry of [node], the bookmarks of the entries of [a] whose
    walk towards the root passes through [node], and the bookmarks that no
    longer resolve.  In particular a live bookmark of an entry of another
    archive, or of an entry of [a] that is not under [node] (a sibling
    directory), stays, unless it is the directory entry of [node].  The
    answer is true exactly when the list has changed.  The walk stops on
    arriving at the root, so with the root itself for [node] no entry
    counts as under it. *)
Theorem C9_deleteBookmarksInDir_exact (fuel : nat) s (node : dptr)
    (a : aptr) :
  ArchiveDir_archive (world s) node = Some a →
  NoDup (bookmarks_ s) →
  chains_end_at_root fuel (world s) a (bookmarks_ s) →
  ∃ r s',
    deleteBookmarksInDir fuel node s = Ok (r, s')
    ∧ pruned (to_erase (world s) a node) (bookmarks_ s) (bookmarks_ s')
    ∧ (∀ b, b ∈ bookmarks_ s' ↔
            b ∈ bookmarks_ s ∧ ¬ to_erase (world s) a node b)
    ∧ (∀ e, Some e ∈ bookmarks_ s →
            ArchiveEntry_lock (world s) e = true →
            ArchiveDir_dirEntry (world s) node ≠ Some e →
            ArchiveEntry_parent (world s) e ≠ Some a
            ∨ ¬ under (world s) a node e →
            Some e ∈ bookmarks_ s')
    ∧ (r = true ↔ bookmarks_ s' ≠ bookmarks_ s)
    ∧ world s' = world s
    ∧ open_archives_ s' = open_archives_ s
    ∧ (node = Archive_rootDir (world s) a →
       ∀ e, ¬ under (world s) a node e).
Proof.
  intros Harch Hnodup Hch.
  set (w := world s) in *. set (entry := ArchiveDir_dirEntry w node).
  assert (Hmain : ∃ l' (r : bool) s',
    deleteBookmarksInDir fuel node s = Ok (r, s')
    ∧ bookmarks_ s' = l' ∧ world s' = w
    ∧ open_archives_ s' = open_archives_ s
    ∧ pruned (to_erase w a node) (bookmarks_ s) l'
    ∧ (r = true ↔ l' ≠ bookmarks_ s)).
  { unfold deleteBookmarksInDir, deleteBookmark. fold w. rewrite Harch.
    fold entry. cbv zeta.
    destruct (deleteBookmark_in w entry (bookmarks_ s)) as [l0|] eqn:Hdel.
    - apply deleteBookmark_in_Some in Hdel
        as (l1 & b0 & l2 & Hl & -> & Hb0).
      destruct (deleteBookmarksInDir_in_pruned fuel w a node (l1 ++ l2))
        as (l' & removed & Hloop & Hpr & _ & _).
      { intros e He. apply Hch. rewrite Hl.
        apply elem_of_app in He as [?|?]; apply elem_of_app;
          [by left|right; by right]. }
      simpl. fold w. rewrite Hloop. simpl.
      exists l', true, (announce "bookmarks_changed" None
                          (set_bookmarks l'
                             (announce "bookmarks_changed" None
                                (set_bookmarks (l1 ++ l2) s)))).
      split_and!; try done.
      + rewrite Hl. apply pruned_insert.
        * destruct (lock w b0) as [e0|] eqn:Hl0; [|by left].
          right. exists e0. split; [done|]. left.
          symmetry. exact Hb0.
        * eapply pruned_ext; [|exact Hpr].
          intros b Hb. unfold loop_erases, to_erase. split.
          -- intros [?|(e & He & Hp & Hu)]; [by left|].
             right. exists e. split; [done|]. by right.
          -- intros [?|(e & He & [Hd|[Hp Hu]])]; [by left| |].
             ++ exfalso. rewrite Hl in Hnodup.
                apply NoDup_app in Hnodup as (_ & Hdis & Hnd2).
                apply NoDup_cons in Hnd2 as [Hnot2 _].
                assert (b = b0) as ->.
                { apply lock_Some in He as ->.
                  fold entry in Hd. rewrite Hd in Hb0.
                  by apply lock_Some in Hb0 as ->. }
                apply elem_of_app in Hb as [Hb|Hb]; [|done].
                apply (Hdis b0 Hb). by left.
             ++ right. by exists e.
      + split; [intros _|done]. intros Heq.
        apply pruned_length in Hpr. rewrite Heq, Hl in Hpr.
        rewrite !length_app in Hpr. simpl in Hpr. lia.
    - pose proof (deleteBookmark_in_None _ _ _ Hdel) as Hnone.
      destruct (deleteBookmarksInDir_in_pruned fuel w a node (bookmarks_ s))
        as (l' & removed & Hloop & Hpr & Hsame & Hless); [done|].
      simpl. fold w. rewrite Hloop. simpl.
      assert (Hpr' : pruned (to_erase w a node) (bookmarks_ s) l').
      { eapply pruned_ext; [|exact Hpr].
        intros b Hb. unfold loop_erases, to_erase. split.
        - intros [?|(e & He & Hp & Hu)]; [by left|].
          right. exists e. split; [done|]. by right.
        - intros [?|(e & He & [Hd|[Hp Hu]])]; [by left| |].
          + exfalso. apply (Hnone b Hb). fold entry in Hd. congruence.
          + right. by exists e. }
      destruct removed.
      + exists l', true, (announce "bookmarks_changed" None
                            (set_bookmarks l' s)).
        split_and!; try done. split; [intros _|done].
        intros Heq. specialize (Hless eq_refl). rewrite Heq in Hless. lia.
      + exists l', false, (set_bookmarks l' s).
        split_and!; try done. split; [done|].
        intros Hne. by specialize (Hsame eq_refl). }
  destruct Hmain as (l' & r & s' & Hrun & Hbm & Hw & Hoa & Hpr & Hr).
  exists r, s'. rewrite Hbm.
  assert (Hmem : ∀ b, b ∈ l' ↔ b ∈ bookmarks_ s ∧ ¬ to_erase w a node b).
  { intros b. by apply pruned_elem_of. }
  split_and!; try done.
  - intros e Hin Halive Hdir Hout. apply Hmem. split; [done|].
    intros [Hnone|(e' & He' & Hcase)].
    + simpl in Hnone. fold w in Halive. by rewrite Halive in Hnone.
    + simpl in He'. fold w in Halive. rewrite Halive in He'.
      injection He' as <-. destruct Hcase as [Hd|[Hp Hu]]; [done|].
      destruct Hout; done.
  - intros -> e. apply under_root.
Qed.

End DeleteInDir.

(** ** Closing an archive and what is nested in it *)

Lemma pruned_trans {A} (P Q : A → Prop) (l l1 l2 : list A) :
  pruned P l l1 → pruned Q l1 l2 → pruned (λ x, P x ∨ Q x) l l2.
Proof.
  intros Hp. revert l2. induction Hp as [|x l l1 Hx _ IH|x l l1 Hx _ IH];
    intros l2 Hq.
  - inversion Hq. constructor.
  - apply pruned_drop; [by left|by apply IH].
  - inversion Hq; subst.
    + apply pruned_drop; [by right|by apply IH].
    + apply pruned_keep; [tauto|by apply IH].
Qed.

Lemma pruned_refl {A} (P : A → Prop) (l : list A) :
  (∀ x, x ∈ l → ¬ P x) → pruned P l l.
Proof.
  induction l as [|x l IH]; intros Hl; [constructor|].
  apply pruned_keep; [apply Hl; by left|].
  apply IH. intros y Hy. apply Hl. by right.
Qed.

Section Close.
Context {W Opt : Type} {C : Collaborators W Opt}.
Implicit Type s : Manager W.

(** Archive [a] has a record in the list. *)
Definition registered (l : list OpenArchive) (a : aptr) : Prop :=
  a ∈ archive <$> l.

(** The archive that holds the entry archive [a] was opened from:
    [a->parentEntry()->parent()]. *)
Definition container (w : W) (a : aptr) : option aptr :=
  Archive_parentEntry w a ≫= ArchiveEntry_parent w.

(** The record of [p] has a child link to [c]. *)
Definition linked (l : list OpenArchive) (p c : aptr) : Prop :=
  ∃ oa, oa ∈ l ∧ archive oa = p ∧ c ∈ open_children oa.

(** [nested_in l a d]: [d] is [a], or a child of [a] that is still open, or
    a child of such a child, and so on. *)
Inductive nested_in (l : list OpenArchive) : aptr → aptr → Prop :=
| nested_self a : nested_in l a a
| nested_step a c d :
    linked l a c → registered l c → nested_in l c d → nested_in l a d.

(** Links point forward: no record links the archive of a record at its
    own or at an earlier position. *)
Fixpoint forward (l : list OpenArchive) : Prop :=
  match l with
  | [] => True
  | oa :: l => (∀ x, x ∈ oa :: l → archive oa ∉ open_children x) ∧ forward l
  end.

(** The open list as [openArchive] and [closeArchive] build it: an archive
    has one record; a record links a child once; a child that is still open
    was opened from an entry of the archive that links it; and a link points
    to a later record of the list. *)
Record well_nested (w : W) (l : list OpenArchive) : Prop := {
  wn_once : NoDup (archive <$> l);
  wn_links_once : ∀ oa, oa ∈ l → NoDup (open_children oa);
  wn_container :
    ∀ oa c, oa ∈ l → c ∈ open_children oa → registered l c →
            container w c = Some (archive oa);
  wn_forward : forward l
}.

(** The contract of [Archive::close] the manager relies on: closing [a]
    leaves alone the entry every other archive was opened from, and the
    entries of every other archive. *)
Definition close_frame : Prop :=
  ∀ (w : W) (a : aptr),
    (∀ b, b ≠ a →
          Archive_parentEntry (Archive_close a w) b = Archive_parentEntry w b)
    ∧ (∀ e, ArchiveEntry_parent w e ≠ Some a →
            ArchiveEntry_parent (Archive_close a w) e = ArchiveEntry_parent w e
            ∧ ArchiveEntry_lock (Archive_close a w) e = ArchiveEntry_lock w e).

(** [w'] is [w] but for the archives [R] and their entries. *)
Definition agree (R : list aptr) (w w' : W) : Prop :=
  (∀ b, b ∉ R → Archive_parentEntry w' b = Archive_parentEntry w b)
  ∧ (∀ e, (∀ a, a ∈ R → ArchiveEntry_parent w e ≠ Some a) →
          ArchiveEntry_parent w' e = ArchiveEntry_parent w e
          ∧ ArchiveEntry_lock w' e = ArchiveEntry_lock w e).

(** The bookmarks that go when the archives [R] are closed: those that no
    longer resolve and those of the entries of an archive of [R]. *)
Definition erased (w : W) (R : list aptr) (b : option eptr) : Prop :=
  lock w b = None
  ∨ ∃ e a, lock w b = Some e ∧ ArchiveEntry_parent w e = Some a ∧ a ∈ R.

(** The record of the container of [a], without its first link to [a]. *)
Definition unlinked (w : W) (a : aptr) (oa : OpenArchive) : OpenArchive :=
  if decide (container w a = Some (archive oa))
  then mkOpenArchive (archive oa) (resource oa)
         (erase_child a (open_children oa))
  else oa.

Lemma agree_refl R w : agree R w w.
Proof. by split. Qed.

Lemma agree_mono R R' w w' : R ⊆ R' → agree R w w' → agree R' w w'.
Proof.
  intros Hsub [Ha He]. split.
  - intros b Hb. apply Ha. intros Hin. by apply Hb, Hsub.
  - intros e Hout. apply He. intros a Hin. by apply Hout, Hsub.
Qed.

Lemma agree_trans R1 R2 w w1 w2 :
  agree R1 w w1 → agree R2 w1 w2 → agree (R1 ++ R2) w w2.
Proof.
  intros [Ha1 He1] [Ha2 He2]. split.
  - intros b Hb. rewrite Ha2, Ha1; [done| |];
      intros Hin; apply Hb, elem_of_app; auto.
  - intros e Hout.
    destruct (He1 e) as [Hp1 Hl1].
    { intros a Hin. apply Hout, elem_of_app. auto. }
    destruct (He2 e) as [Hp2 Hl2].
    { intros a Hin. rewrite Hp1. apply Hout, elem_of_app. auto. }
    split; congruence.
Qed.

Lemma agree_close w a : close_frame → agree [a] w (Archive_close a w).
Proof.
  intros Hframe. destruct (Hframe w a) as [Ha He]. split.
  - intros b Hb. apply Ha. intros ->. apply Hb. by left.
  - intros e Hout. apply He. apply Hout. by left.
Qed.

Lemma agree_container R w w' a p :
  agree R w w' → a ∉ R → container w a = Some p → p ∉ R →
  container w' a = Some p.
Proof.
  intros [Ha He] Hna Hc Hnp. unfold container in *. rewrite (Ha a Hna).
  destruct (Archive_parentEntry w a) as [e|]; simpl in *; [|done].
  destruct (He e) as [-> _]; [|done].
  intros a' Hin. rewrite Hc. by intros [= <-].
Qed.

Lemma agree_container_None R w w' a :
  agree R w w' → a ∉ R → container w a = None → container w' a = None.
Proof.
  intros [Ha He] Hna Hc. unfold container in *. rewrite (Ha a Hna).
  destruct (Archive_parentEntry w a) as [e|]; simpl in *; [|done].
  destruct (He e) as [-> _]; [|done].
  intros a' Hin. by rewrite Hc.
Qed.

Lemma erased_app w R1 R2 b :
  erased w (R1 ++ R2) b ↔ erased w R1 b ∨ erased w R2 b.
Proof.
  unfold erased. split.
  - intros [?|(e & a & Hl & Hp & [Hin|Hin]%elem_of_app)];
      [by left;left|left|right]; right; by exists e, a.
  - intros [[?|(e & a & Hl & Hp & Hin)]|[?|(e & a & Hl & Hp & Hin)]];
      [by left| |by left|]; right; exists e, a; split_and!; try done;
      apply elem_of_app; auto.
Qed.

Lemma erased_agree R R2 w w' b :
  agree R w w' → ¬ erased w R b → (erased w' R2 b ↔ erased w R2 b).
Proof.
  intros [_ He] Hne.
  destruct (lock w b) as [e|] eqn:Hl; [|exfalso; apply Hne; by left].
  assert (Hb : b = Some e) by by apply lock_Some in Hl.
  subst b. simpl in Hl.
  destruct (ArchiveEntry_lock w e) eqn:Halive; [|done].
  destruct (He e) as [Hp Ha].
  { intros a Hin Hpar. apply Hne. right. exists e, a. simpl.
    by rewrite Halive. }
  unfold erased. simpl. rewrite Ha, Halive. split.
  - intros [?|(e0 & a & [= <-] & Hp' & Hin)]; [done|].
    right. exists e, a. by rewrite <- Hp.
  - intros [?|(e0 & a & [= <-] & Hp' & Hin)]; [done|].
    right. exists e, a. by rewrite Hp.
Qed.

Lemma pruned_erased_step R1 R R2 w w1 (l l1 l2 : list (option eptr)) :
  pruned (erased w R1) l l1 →
  agree R w w1 → R ⊆ R1 →
  pruned (erased w1 R2) l1 l2 →
  pruned (erased w (R1 ++ R2)) l l2.
Proof.
  intros Hp1 Hag Hsub Hp2.
  eapply pruned_ext; [|eapply pruned_trans; [exact Hp1|]].
  - intros b _. symmetry. apply erased_app.
  - eapply pruned_ext; [|exact Hp2].
    intros b Hb. apply (erased_agree R1).
    + by eapply agree_mono.
    + by apply (pruned_elem_of _ _ _ _ Hp1) in Hb as [_ ?].
Qed.

Lemma deleteBookmarksInArchive_in_pruned w a l :
  pruned (erased w [a]) l (deleteBookmarksInArchive_in w (Some a) l).1.
Proof.
  induction l as [|b l IH]; simpl; [constructor|].
  destruct (deleteBookmarksInArchive_in w (Some a) l) as [l' r]. simpl in *.
  destruct (lock w b) as [e|] eqn:Hl.
  - destruct (decide (ArchiveEntry_parent w e = Some a)) as [Hp|Hp]; simpl.
    + apply pruned_drop; [|done]. right. exists e, a.
      split_and!; [done|done|by left].
    + apply pruned_keep; [|done].
      intros [?|(e' & a' & Hl' & Hp' & Hin)]; [congruence|].
      apply list_elem_of_singleton in Hin as ->. congruence.
  - simpl. apply pruned_drop; [by left|done].
Qed.

(** *** Lists of records *)

Lemma forward_middle l1 oa l2 y x :
  forward (l1 ++ oa :: l2) → y ∈ l1 ++ [oa] → x ∈ oa :: l2 →
  archive y ∉ open_children x.
Proof.
  induction l1 as [|z l1 IH]; simpl; intros [Hhead Hrest] Hy Hx.
  - apply list_elem_of_singleton in Hy as ->. by apply Hhead.
  - apply elem_of_cons in Hy as [->|Hy]; [|by apply IH].
    apply Hhead. right. apply elem_of_app. by right.
Qed.

Lemma forward_shrink (P : OpenArchive → Prop) `{!∀ x, Decision (P x)}
    (g : OpenArchive → OpenArchive) l :
  (∀ x, archive (g x) = archive x) →
  (∀ x, open_children (g x) ⊆ open_children x) →
  forward l → forward (g <$> filter P l).
Proof.
  intros Hg Hsub. induction l as [|oa l IH]; [done|].
  intros [Hhead Hrest]. rewrite filter_cons.
  destruct (decide (P oa)); [|by apply IH].
  simpl. split; [|by apply IH].
  intros x Hx. rewrite Hg.
  assert (∃ y, x = g y ∧ y ∈ oa :: l) as (y & -> & Hy).
  { apply elem_of_cons in Hx as [->|Hx]; [exists oa; split; [done|by left]|].
    apply list_elem_of_fmap in Hx as (y & -> & Hy).
    apply list_elem_of_filter in Hy as [_ Hy]. exists y. split; [done|by right]. }
  intros Hin. by apply (Hhead y Hy), Hsub.
Qed.

Lemma erase_child_sublist a l : erase_child a l `sublist_of` l.
Proof.
  induction l as [|c l IH]; simpl; [done|].
  destruct (decide (c = a)); [by apply sublist_cons|by apply sublist_skip].
Qed.

Lemma erase_child_absent a l : a ∉ l → erase_child a l = l.
Proof.
  induction l as [|c l IH]; simpl; [done|]. intros Hn.
  apply not_elem_of_cons in Hn as [Hne Hn].
  rewrite decide_False by done. by rewrite IH.
Qed.

Lemma erase_child_gone a l : NoDup l → a ∉ erase_child a l.
Proof.
  induction l as [|c l IH]; simpl; intros Hnd; [apply not_elem_of_nil|].
  apply NoDup_cons in Hnd as [Hc Hnd].
  destruct (decide (c = a)) as [->|Hne]; [done|].
  apply not_elem_of_cons. split; [done|by apply IH].
Qed.

Lemma alter_middle {A} (f : A → A) (l1 l2 : list A) (x : A) :
  alter f (length l1) (l1 ++ x :: l2) = l1 ++ f x :: l2.
Proof.
  replace (length l1) with (length l1 + 0)%nat by lia.
  by rewrite alter_app_r.
Qed.

Lemma fmap_none (g : OpenArchive → OpenArchive) (l : list OpenArchive) :
  (∀ x, x ∈ l → g x = x) → g <$> l = l.
Proof.
  induction l as [|x l IH]; intros Hg; [done|].
  rewrite fmap_cons, Hg by left. f_equal. apply IH.
  intros y Hy. apply Hg. by right.
Qed.

Lemma fmap_unique (f g : OpenArchive → OpenArchive) l1 oa l2 :
  NoDup (archive <$> (l1 ++ oa :: l2)) →
  (∀ x, archive x ≠ archive oa → g x = x) →
  g oa = f oa →
  g <$> (l1 ++ oa :: l2) = l1 ++ f oa :: l2.
Proof.
  intros Hnd Hother Hsame. rewrite fmap_app, fmap_cons, Hsame.
  rewrite fmap_app, fmap_cons in Hnd.
  apply NoDup_app in Hnd as (_ & Hdis & Hnd2).
  apply NoDup_cons in Hnd2 as [Hnot2 _].
  rewrite !fmap_none; [done| |].
  - intros x Hx. apply Hother. intros Heq.
    apply Hnot2. rewrite <- Heq. apply list_elem_of_fmap. by exists x.
  - intros x Hx. apply Hother. intros Heq.
    apply (Hdis (archive x)); [|rewrite Heq; by left].
    apply list_elem_of_fmap. by exists x.
Qed.

Lemma archiveIndex_middle s l1 oa l2 :
  open_archives_ s = l1 ++ oa :: l2 →
  NoDup (archive <$> open_archives_ s) →
  archiveIndex s (Some (archive oa)) = Z.of_nat (length l1).
Proof.
  intros Hl Hnd. apply (archiveIndex_found s _ (length l1) oa).
  - rewrite Hl. apply list_lookup_middle. done.
  - done.
  - intros j oa' Hj Hoa' [= Heq].
    assert (Hi : open_archives_ s !! length l1 = Some oa)
      by (rewrite Hl; by apply list_lookup_middle).
    apply (NoDup_lookup _ j (length l1) (archive oa')) in Hnd; [lia| |].
    + by rewrite list_lookup_fmap, Hoa'.
    + by rewrite list_lookup_fmap, Hi, Heq.
Qed.

Lemma archiveIndex_unregistered s a :
  ¬ registered (open_archives_ s) a → archiveIndex s (Some a) = -1.
Proof.
  intros Hn. apply archiveIndex_absent. intros oa Hoa [= Heq].
  apply Hn. apply list_elem_of_fmap. by exists oa.
Qed.

Lemma archiveIndex_split s a :
  0 ≤ archiveIndex s (Some a) →
  ∃ l1 oa l2, open_archives_ s = l1 ++ oa :: l2 ∧ archive oa = a
              ∧ archiveIndex s (Some a) = Z.of_nat (length l1).
Proof.
  intros Hge. destruct (archiveIndex_spec s (Some a)) as [|i oa Hi [= Ha] _];
    [lia|].
  exists (take i (open_archives_ s)), oa, (drop (S i) (open_archives_ s)).
  split_and!; [|done|].
  - by rewrite take_drop_middle.
  - rewrite length_take. apply lookup_lt_Some in Hi. f_equal. lia.
Qed.

Lemma registered_split l a :
  registered l a → ∃ l1 oa l2, l = l1 ++ oa :: l2 ∧ archive oa = a.
Proof.
  intros (oa & -> & Hin)%list_elem_of_fmap.
  apply list_elem_of_split in Hin as (l1 & l2 & ->). by exists l1, oa, l2.
Qed.

Lemma same_record l x y :
  NoDup (archive <$> l) → x ∈ l → y ∈ l → archive x = archive y → x = y.
Proof.
  intros Hnd Hx Hy Heq.
  apply list_elem_of_lookup in Hx as [i Hi].
  apply list_elem_of_lookup in Hy as [j Hj].
  assert (i = j) as ->.
  { apply (NoDup_lookup _ i j (archive x) Hnd).
    - by rewrite list_lookup_fmap, Hi.
    - by rewrite list_lookup_fmap, Hj, Heq. }
  congruence.
Qed.

Lemma well_nested_shrink w w' l (P : OpenArchive → Prop)
    `{!∀ x, Decision (P x)} (g : OpenArchive → OpenArchive) :
  well_nested w l →
  (∀ x, archive (g x) = archive x) →
  (∀ x, open_children (g x) `sublist_of` open_children x) →
  (∀ x y, x ∈ l → P x → y ∈ l → P y →
          container w (archive y) = Some (archive x) →
          container w' (archive y) = Some (archive x)) →
  well_nested w' (g <$> filter P l).
Proof.
  intros [Hnd Hlinks Hcont Hfwd] Hg Hsub Hw.
  assert (Harch : archive <$> (g <$> filter P l) = archive <$> filter P l).
  { rewrite <- list_fmap_compose. apply list_fmap_ext. intros i x _. apply Hg. }
  assert (Hmem : ∀ x', x' ∈ g <$> filter P l → ∃ x, x' = g x ∧ x ∈ l ∧ P x).
  { intros x' (x & -> & Hx)%list_elem_of_fmap.
    apply list_elem_of_filter in Hx as [HP Hx]. by exists x. }
  split.
  - rewrite Harch. eapply sublist_NoDup; [exact Hnd|].
    apply fmap_sublist, sublist_filter.
  - intros oa (x & -> & Hx & _)%Hmem.
    eapply sublist_NoDup; [by apply Hlinks|apply Hsub].
  - intros oa c (x & -> & Hx & HPx)%Hmem Hc Hreg.
    unfold registered in Hreg. rewrite Harch in Hreg.
    apply list_elem_of_fmap in Hreg as (y & -> & Hy).
    apply list_elem_of_filter in Hy as [HPy Hy].
    rewrite Hg. apply (Hw x y); try done.
    apply Hcont; [done| |].
    + eapply elem_of_sublist; [exact Hc|apply Hsub].
    + apply list_elem_of_fmap. by exists y.
  - apply forward_shrink; [done| |done].
    intros x c Hc. eapply elem_of_sublist; [exact Hc|apply Hsub].
Qed.

(** The records that stay when the archives [R] are closed. *)
Definition kept (R : list aptr) (oa : OpenArchive) : Prop := archive oa ∉ R.

#[local] Instance kept_dec R oa : Decision (kept R oa).
Proof. unfold kept. apply _. Defined.

#[local] Instance registered_dec l a : Decision (registered l a).
Proof. unfold registered. apply _. Defined.

Lemma unlinked_archive w a x : archive (unlinked w a x) = archive x.
Proof. unfold unlinked. by case_decide. Qed.

Lemma unlinked_resource w a x : resource (unlinked w a x) = resource x.
Proof. unfold unlinked. by case_decide. Qed.

Lemma unlinked_children w a x :
  open_children (unlinked w a x) `sublist_of` open_children x.
Proof. unfold unlinked. case_decide; [apply erase_child_sublist|done]. Qed.

(** What a call of [closeArchive] on the record [oa], found between [l1]
    and [l2], has done when it returns [s']: the archives [R], all of them
    from [l2], were closed with it. *)
Record closed_as s (l1 : list OpenArchive) (oa : OpenArchive)
    (l2 : list OpenArchive) (R : list aptr) s' : Prop := {
  ca_list :
    open_archives_ s' =
    unlinked (world s) (archive oa)
      <$> filter (kept (archive oa :: R)) (open_archives_ s);
  ca_sub : ∀ a, a ∈ R → a ∈ archive <$> l2;
  ca_sound : ∀ a, a ∈ R → nested_in (open_archives_ s) (archive oa) a;
  ca_closed :
    ∀ a c, a ∈ archive oa :: R → linked (open_archives_ s) a c →
           registered (open_archives_ s) c → c ∈ archive oa :: R;
  ca_bookmarks :
    pruned (erased (world s) (archive oa :: R)) (bookmarks_ s) (bookmarks_ s');
  ca_world : agree (archive oa :: R) (world s) (world s')
}.

Lemma closed_as_well_nested s l1 oa l2 R s' :
  well_nested (world s) (open_archives_ s) →
  closed_as s l1 oa l2 R s' →
  well_nested (world s') (open_archives_ s').
Proof.
  intros Hwn Hca. rewrite (ca_list _ _ _ _ _ _ Hca).
  apply (well_nested_shrink (world s)); [done| | |].
  - apply unlinked_archive.
  - apply unlinked_children.
  - intros x y _ Hx _ Hy Hc.
    by apply (agree_container _ _ _ _ _ (ca_world _ _ _ _ _ _ Hca)).
Qed.

Lemma well_nested_clear w l1 oa l2 :
  well_nested w (l1 ++ oa :: l2) →
  well_nested w (l1 ++ mkOpenArchive (archive oa) (resource oa) [] :: l2).
Proof.
  intros Hwn.
  set (g := λ x, if decide (archive x = archive oa)
                 then mkOpenArchive (archive x) (resource x) [] else x).
  assert (Hl : l1 ++ mkOpenArchive (archive oa) (resource oa) [] :: l2
               = g <$> filter (λ _, True) (l1 ++ oa :: l2)).
  { rewrite filter_all by done. symmetry.
    apply (fmap_unique (λ x, mkOpenArchive (archive x) (resource x) [])).
    - apply Hwn.
    - intros x Hx. unfold g. by rewrite decide_False.
    - unfold g. by rewrite decide_True. }
  rewrite Hl. apply (well_nested_shrink w); [done| | |done].
  - intros x. unfold g. by case_decide.
  - intros x. unfold g. case_decide; [apply sublist_nil_l|done].
Qed.

Lemma nested_mono l l' a d :
  (∀ p c, linked l' p c → linked l p c) →
  (∀ c, registered l' c → registered l c) →
  nested_in l' a d → nested_in l a d.
Proof.
  intros Hlink Hreg. induction 1 as [|a c d Hl Hr _ IH]; [constructor|].
  eapply nested_step; [by apply Hlink|by apply Hreg|done].
Qed.

Lemma unlink_from_parent_list t a :
  NoDup (archive <$> open_archives_ t) →
  unlink_from_parent a t =
  set_open_archives (unlinked (world t) a <$> open_archives_ t) t.
Proof.
  intros Hnd. unfold unlink_from_parent.
  assert (Hid : (∀ x, x ∈ open_archives_ t → unlinked (world t) a x = x) →
                t = set_open_archives
                      (unlinked (world t) a <$> open_archives_ t) t).
  { intros Hx. rewrite fmap_none by done. by destruct t. }
  assert (Hcont : container (world t) a =
                  Archive_parentEntry (world t) a
                    ≫= ArchiveEntry_parent (world t)) by done.
  destruct (Archive_parentEntry (world t) a) as [parent|]; simpl in Hcont.
  2:{ apply Hid. intros x _. unfold unlinked. rewrite Hcont. by case_decide. }
  destruct (ArchiveEntry_parent (world t) parent) as [gp|].
  2:{ apply Hid. intros x _. unfold unlinked. rewrite Hcont. by case_decide. }
  destruct (Z.leb_spec 0 (archiveIndex t (Some gp))) as [Hge|Hlt].
  - destruct (archiveIndex_split t gp Hge) as (l1 & oa & l2 & Hl & <- & ->).
    rewrite Nat2Z.id, Hl, alter_middle. f_equal. symmetry.
    apply (fmap_unique (λ oa, mkOpenArchive (archive oa) (resource oa)
                                (erase_child a (open_children oa)))).
    + by rewrite <- Hl.
    + intros x Hx. unfold unlinked. rewrite Hcont.
      rewrite decide_False; [done|congruence].
    + unfold unlinked. rewrite Hcont. by rewrite decide_True.
  - apply Hid. intros x Hx. unfold unlinked. rewrite Hcont.
    rewrite decide_False; [done|].
    intros [= Heq].
    destruct (archiveIndex_spec t (Some gp)) as [Habs|]; [|lia].
    apply (Habs x Hx). by rewrite Heq.
Qed.

Lemma filter_kept_app R1 R2 (l : list OpenArchive) :
  filter (kept R2) (filter (kept R1) l) = filter (kept (R1 ++ R2)) l.
Proof.
  induction l as [|x l IH]; [done|].
  rewrite (filter_cons (kept R1)), (filter_cons (kept (R1 ++ R2))).
  unfold kept in *.
  destruct (decide (archive x ∉ R1)) as [H1|H1].
  - rewrite filter_cons.
    destruct (decide (archive x ∉ R2)) as [H2|H2].
    + rewrite decide_True, IH; [done|].
      by intros [?|?]%elem_of_app.
    + rewrite decide_False, IH; [done|].
      intros Hn. apply H2. intros Hin. apply Hn, elem_of_app. by right.
  - rewrite decide_False, IH; [done|].
    intros Hn. apply H1. intros Hin. apply Hn, elem_of_app. by left.
Qed.

Lemma elem_of_archives_filter R (l : list OpenArchive) a :
  a ∈ archive <$> filter (kept R) l ↔ a ∈ archive <$> l ∧ a ∉ R.
Proof.
  rewrite !list_elem_of_fmap. split.
  - intros (x & -> & [Hk Hx]%list_elem_of_filter). split; [by exists x|done].
  - intros [(x & -> & Hx) Hn]. exists x. split; [done|].
    by apply list_elem_of_filter.
Qed.

Lemma deleteBookmarksInArchive_state a s :
  (deleteBookmarksInArchive a s).2 =
  (if (deleteBookmarksInArchive_in (world s) a (bookmarks_ s)).2
   then announce "bookmarks_changed" None else id)
    (set_bookmarks (deleteBookmarksInArchive_in (world s) a (bookmarks_ s)).1
       s).
Proof.
  unfold deleteBookmarksInArchive.
  by destruct (deleteBookmarksInArchive_in _ _ _) as [l []].
Qed.

(** The body of the loop of [closeArchive] over the child links. *)
Definition close_child (n : nat) s (child : aptr) : outcome (Manager W) :=
  let ci := archiveIndex s (Some child) in
  if 0 <=? ci then '(_, s) ← closeArchive n ci s; Ok s else Ok s.

(** The state of a call of [closeArchive] on [oa] between two children:
    the record of [oa] has no links any more, and the archives [R] were
    closed. *)
Record closing (l1 : list OpenArchive) (oa : OpenArchive)
    (l2 : list OpenArchive) (w0 : W) (B0 : list (option eptr))
    (t : Manager W) (R : list aptr) : Prop := {
  cl_list :
    open_archives_ t =
    l1 ++ mkOpenArchive (archive oa) (resource oa) [] :: filter (kept R) l2;
  cl_sub : ∀ a, a ∈ R → a ∈ archive <$> l2;
  cl_wn : well_nested (world t) (open_archives_ t);
  cl_world : agree R w0 (world t);
  cl_bookmarks : pruned (erased w0 (archive oa :: R)) B0 (bookmarks_ t);
  cl_sound : ∀ a, a ∈ R → nested_in (l1 ++ oa :: l2) (archive oa) a;
  cl_closed :
    ∀ a c, a ∈ R → linked (l1 ++ oa :: l2) a c →
           registered (l1 ++ oa :: l2) c → c ∈ R
}.

(** What the induction on the fuel says of [closeArchive n]. *)
Definition closes (n : nat) : Prop :=
  ∀ s l1 oa l2,
    open_archives_ s = l1 ++ oa :: l2 →
    well_nested (world s) (open_archives_ s) →
    (∀ P, container (world s) (archive oa) = Some P →
          P ∉ archive <$> (oa :: l2)) →
    (length l2 < n)%nat →
    ∃ R s', closeArchive n (Z.of_nat (length l1)) s = Ok (true, s')
            ∧ closed_as s l1 oa l2 R s'.

Lemma closing_registered l1 oa l2 w0 B0 t R a :
  closing l1 oa l2 w0 B0 t R →
  (registered (open_archives_ t) a ↔
   a ∈ archive <$> l1 ∨ a = archive oa ∨ (a ∈ archive <$> l2 ∧ a ∉ R)).
Proof.
  intros Hcl. unfold registered. rewrite (cl_list _ _ _ _ _ _ _ Hcl).
  rewrite fmap_app, fmap_cons, elem_of_app, elem_of_cons.
  by rewrite elem_of_archives_filter.
Qed.

Lemma registered_middle l1 (oa : OpenArchive) l2 a :
  registered (l1 ++ oa :: l2) a ↔
  a ∈ archive <$> l1 ∨ a = archive oa ∨ a ∈ archive <$> l2.
Proof.
  unfold registered.
  by rewrite fmap_app, fmap_cons, elem_of_app, elem_of_cons.
Qed.

Lemma NoDup_middle l1 (oa : OpenArchive) l2 :
  NoDup (archive <$> (l1 ++ oa :: l2)) →
  (archive oa ∉ archive <$> l1) ∧ (archive oa ∉ archive <$> l2)
  ∧ ∀ a, a ∈ archive <$> l1 → a ∉ archive <$> l2.
Proof.
  rewrite fmap_app, fmap_cons. intros Hnd.
  apply NoDup_app in Hnd as (_ & Hdis & Hnd2).
  apply NoDup_cons in Hnd2 as [Hnot2 _].
  split_and!; [|done|].
  - intros Hin. apply (Hdis _ Hin). by left.
  - intros a Hin Hin2. apply (Hdis _ Hin). by right.
Qed.

Lemma ofold_cons {A S} (body : S → A → outcome S) x l (s : S) :
  ofold body (x :: l) s = body s x ≫= ofold body l.
Proof. done. Qed.

Lemma bind_Ok {A B} (a : A) (k : A → outcome B) : Ok a ≫= k = k a.
Proof. done. Qed.

Lemma close_child_skip n s c :
  ¬ registered (open_archives_ s) c → close_child n s c = Ok s.
Proof.
  intros Hreg. unfold close_child.
  by rewrite (archiveIndex_unregistered s c Hreg).
Qed.

Lemma close_child_call n s l1 oc l2 b s' :
  open_archives_ s = l1 ++ oc :: l2 →
  NoDup (archive <$> open_archives_ s) →
  closeArchive n (Z.of_nat (length l1)) s = Ok (b, s') →
  close_child n s (archive oc) = Ok s'.
Proof.
  intros Hl Hnd Hrun. unfold close_child.
  rewrite (archiveIndex_middle s l1 oc l2 Hl Hnd).
  destruct (Z.leb_spec 0 (Z.of_nat (length l1))); [|lia].
  by rewrite Hrun.
Qed.

Lemma close_children n l1 oa l2 w0 B0 :
  closes n →
  (length l2 ≤ n)%nat →
  NoDup (archive <$> (l1 ++ oa :: l2)) →
  ∀ cs t R,
    (∀ c, c ∈ cs → c ∈ open_children oa) →
    (∀ c, c ∈ cs → c ∉ archive <$> (l1 ++ [oa])) →
    closing l1 oa l2 w0 B0 t R →
    (∀ c, c ∈ cs → registered (open_archives_ t) c →
          container (world t) c = Some (archive oa)) →
    ∃ R' t',
      ofold (close_child n) cs t = Ok t'
      ∧ closing l1 oa l2 w0 B0 t' R'
      ∧ (∀ a, a ∈ R → a ∈ R')
      ∧ (∀ c, c ∈ cs → registered (l1 ++ oa :: l2) c → c ∈ R').
Proof.
  intros IH Hlen Hnd0.
  destruct (NoDup_middle _ _ _ Hnd0) as (HX1 & HX2 & H12).
  set (X := archive oa) in *.
  set (oa0 := mkOpenArchive X (resource oa) []).
  induction cs as [|c cs IHcs]; intros t R Hlinks Hfwd Hcl Hcont.
  { exists R, t. split_and!; try done.
    intros c Hc. by apply elem_of_nil in Hc. }
  assert (Hc_links : c ∈ open_children oa) by (apply Hlinks; by left).
  assert (Hc_fwd : (c ∉ archive <$> l1) ∧ c ≠ X).
  { assert (Hfc : c ∉ archive <$> (l1 ++ [oa])) by (apply Hfwd; by left).
    rewrite fmap_app, elem_of_app in Hfc. rename Hfc into Hfwd'. split.
    - intros ?. apply Hfwd'. by left.
    - intros ->. apply Hfwd'. right. by left. }
  destruct Hc_fwd as [Hc1 HcX].
  rewrite ofold_cons.
  destruct (decide (registered (open_archives_ t) c)) as [Hreg|Hreg].
  2:{ (* the link is stale: the child is skipped *)
    rewrite (close_child_skip n t c Hreg), bind_Ok.
    destruct (IHcs t R) as (R' & t' & Hrun & Hcl' & Hsub & Hdone).
    { intros c' Hc'. apply Hlinks. by right. }
    { intros c' Hc'. apply Hfwd. by right. }
    { done. }
    { intros c' Hc'. apply Hcont. by right. }
    exists R', t'. split_and!; try done.
    intros c' [->|Hc']%elem_of_cons Hreg'; [|by apply Hdone].
    apply Hsub. apply registered_middle in Hreg' as [?|[?|Hin2]]; [done|done|].
    destruct (decide (c ∈ R)) as [?|Hn]; [done|].
    exfalso. apply Hreg. apply (closing_registered _ _ _ _ _ _ _ _ Hcl).
    right. right. done. }
  (* the child is open: it is closed by a call with less fuel *)
  pose proof (cl_list _ _ _ _ _ _ _ Hcl) as Hlist. fold X oa0 in Hlist.
  pose proof (cl_wn _ _ _ _ _ _ _ Hcl) as Hwn.
  assert (Hc2 : c ∈ archive <$> filter (kept R) l2).
  { apply (closing_registered _ _ _ _ _ _ _ _ Hcl) in Hreg
      as [?|[?|[? ?]]]; [done|done|]. by apply elem_of_archives_filter. }
  destruct (registered_split _ _ Hc2) as (t2a & oc & t2b & Hsplit & Hoc).
  assert (Hlist' : open_archives_ t = (l1 ++ oa0 :: t2a) ++ oc :: t2b).
  { rewrite Hlist, Hsplit. by rewrite <- app_assoc. }
  pose proof (wn_once _ _ Hwn) as Hndt.
  pose proof Hndt as Hndt0.
  assert (Hparent : container (world t) (archive oc) = Some X).
  { rewrite Hoc. apply Hcont; [by left|done]. }
  rewrite Hlist' in Hndt.
  destruct (NoDup_middle _ _ _ Hndt) as (Hoc1 & Hoc2 & Hpre_suf).
  assert (HXpre : X ∈ archive <$> (l1 ++ oa0 :: t2a)).
  { rewrite fmap_app, fmap_cons, elem_of_app. right. by left. }
  assert (Hlen2 : (length t2b < n)%nat).
  { pose proof (length_filter (kept R) l2) as Hf. rewrite Hsplit in Hf.
    rewrite length_app in Hf. simpl in Hf. lia. }
  destruct (IH t (l1 ++ oa0 :: t2a) oc t2b Hlist' Hwn)
    as (Rc & t1 & Hrun & Hca); [|done|].
  { intros P. rewrite Hparent. intros [= <-].
    rewrite fmap_cons. apply not_elem_of_cons. split.
    - intros HeqX. apply Hoc1. by rewrite <- HeqX.
    - by apply Hpre_suf. }
  rewrite <- Hoc.
  rewrite (close_child_call n t _ oc t2b true t1 Hlist' Hndt0 Hrun), bind_Ok.
  (* the closed archives lie in the part of the list after [oa] *)
  assert (Hnew_sub : ∀ a, a ∈ archive oc :: Rc →
                          a ∈ archive <$> filter (kept R) l2).
  { intros a [->|Ha]%elem_of_cons; [by rewrite Hoc|].
    apply (ca_sub _ _ _ _ _ _ Hca) in Ha. rewrite Hsplit.
    rewrite fmap_app, fmap_cons, elem_of_app. right. by right. }
  assert (Hnew_l2 : ∀ a, a ∈ archive oc :: Rc → a ∈ archive <$> l2 ∧ a ∉ R).
  { intros a Ha. by apply elem_of_archives_filter, Hnew_sub. }
  assert (Hnew_X : X ∉ archive oc :: Rc).
  { intros Hin. apply Hnew_l2 in Hin as [? _]. done. }
  (* the list after the call *)
  assert (Hlist1 : open_archives_ t1 =
                   l1 ++ oa0 :: filter (kept (R ++ archive oc :: Rc)) l2).
  { rewrite (ca_list _ _ _ _ _ _ Hca), Hlist.
    rewrite filter_app, filter_cons_True.
    2:{ exact Hnew_X. }
    rewrite (filter_all _ l1).
    2:{ intros x Hx Hin. apply Hnew_l2 in Hin as [Hin _].
        apply (H12 (archive x)); [|done].
        apply list_elem_of_fmap. by exists x. }
    rewrite filter_kept_app. apply fmap_none. intros x Hx.
    unfold unlinked. rewrite Hparent. case_decide as HeqX; [|done].
    injection HeqX as HeqX.
    assert (x = oa0) as ->; [|done].
    apply elem_of_app in Hx as [Hx|Hx].
    - exfalso. apply HX1. rewrite HeqX. apply list_elem_of_fmap. by exists x.
    - apply elem_of_cons in Hx as [->|Hx]; [done|]. exfalso.
      apply list_elem_of_filter in Hx as [_ Hx].
      apply HX2. rewrite HeqX. apply list_elem_of_fmap. by exists x. }
  assert (Hcl1 : closing l1 oa l2 w0 B0 t1 (R ++ archive oc :: Rc)).
  { split.
    - exact Hlist1.
    - intros a [Ha|Ha]%elem_of_app; [by apply (cl_sub _ _ _ _ _ _ _ Hcl)|].
      by apply Hnew_l2.
    - by eapply closed_as_well_nested.
    - eapply agree_trans; [apply (cl_world _ _ _ _ _ _ _ Hcl)|].
      apply (ca_world _ _ _ _ _ _ Hca).
    - change (archive oa :: R ++ archive oc :: Rc)
        with ((archive oa :: R) ++ archive oc :: Rc).
      eapply (pruned_erased_step _ R);
        [apply (cl_bookmarks _ _ _ _ _ _ _ Hcl)
        |apply (cl_world _ _ _ _ _ _ _ Hcl)
        |intros a Ha; by right
        |apply (ca_bookmarks _ _ _ _ _ _ Hca)].
    - intros a [Ha|Ha]%elem_of_app; [by apply (cl_sound _ _ _ _ _ _ _ Hcl)|].
      apply (nested_step _ _ (archive oc)).
      + exists oa. split_and!; [|done|by rewrite Hoc].
        apply elem_of_app. right. by left.
      + apply registered_middle. right. right.
        apply (Hnew_l2 (archive oc)). by left.
      + apply (nested_mono _ (open_archives_ t)).
        * intros p c' (x & Hx & Hp & Hc'). exists x. split; [|done].
          rewrite Hlist in Hx.
          apply elem_of_app in Hx as [Hx|Hx]; [apply elem_of_app; by left|].
          apply elem_of_cons in Hx as [->|Hx];
            [by apply elem_of_nil in Hc'|].
          apply list_elem_of_filter in Hx as [_ Hx].
          apply elem_of_app. right. by right.
        * intros c' Hc'.
          apply (closing_registered _ _ _ _ _ _ _ _ Hcl) in Hc'.
          apply registered_middle. tauto.
        * apply elem_of_cons in Ha as [->|Ha]; [constructor|].
          by apply (ca_sound _ _ _ _ _ _ Hca).
    - intros a c' [Ha|Ha]%elem_of_app Hl Hr.
      { apply elem_of_app. left. by eapply (cl_closed _ _ _ _ _ _ _ Hcl). }
      apply elem_of_app.
      destruct (decide (registered (open_archives_ t) c')) as [Hrt|Hrt].
      + right.
        apply (ca_closed _ _ _ _ _ _ Hca a c'); [done| |done].
        destruct Hl as (x & Hx & Hxa & Hxc). exists x. split; [|done].
        (* the record of [a] is the same in [t] *)
        destruct (Hnew_l2 a Ha) as [Ha2 HaR].
        rewrite Hlist. apply elem_of_app. right. right.
        apply list_elem_of_filter. split; [unfold kept; by rewrite Hxa|].
        apply elem_of_app in Hx as [Hx|Hx].
        * exfalso. apply (H12 a); [|done].
          apply list_elem_of_fmap. by exists x.
        * apply elem_of_cons in Hx as [->|Hx]; [|done].
          exfalso. apply HX2. fold X in Hxa. by rewrite Hxa.
      + left. apply registered_middle in Hr as [Hr|[Hr|Hr]].
        * exfalso. apply Hrt.
          apply (closing_registered _ _ _ _ _ _ _ _ Hcl). by left.
        * exfalso. apply Hrt.
          apply (closing_registered _ _ _ _ _ _ _ _ Hcl). right. by left.
        * destruct (decide (c' ∈ R)) as [?|Hn]; [done|].
          exfalso. apply Hrt.
          apply (closing_registered _ _ _ _ _ _ _ _ Hcl). right. by right. }
  destruct (IHcs t1 (R ++ archive oc :: Rc))
    as (R' & t' & Hrun' & Hcl' & Hsub & Hdone).
  { intros c' Hc'. apply Hlinks. by right. }
  { intros c' Hc'. apply Hfwd. by right. }
  { done. }
  { intros c' Hc' Hreg1.
    apply (closing_registered _ _ _ _ _ _ _ _ Hcl1) in Hreg1.
    assert (Hc'_new : c' ∉ archive oc :: Rc).
    { intros Hin. destruct Hreg1 as [Hr|[Hr|[_ Hr]]].
      - apply Hnew_l2 in Hin as [Hin _]. by apply (H12 c').
      - apply Hnew_X. by rewrite Hr in Hin.
      - apply Hr, elem_of_app. by right. }
    apply (agree_container _ _ _ _ _ (ca_world _ _ _ _ _ _ Hca));
      [done| |done].
    apply Hcont; [by right|].
    apply (closing_registered _ _ _ _ _ _ _ _ Hcl).
    destruct Hreg1 as [?|[?|[? Hr]]]; [by left|right; by left|].
    right. right. split; [done|]. intros ?. apply Hr, elem_of_app. by left. }
  exists R', t'. split_and!; try done.
  - intros a Ha. apply Hsub, elem_of_app. by left.
  - intros c' [->|Hc']%elem_of_cons Hreg'; [|by apply Hdone].
    apply Hsub, elem_of_app. right. by left.
Qed.

Lemma deleteBookmarksInArchive_fields a s :
  let s' := (deleteBookmarksInArchive a s).2 in
  world s' = world s
  ∧ open_archives_ s' = open_archives_ s
  ∧ bookmarks_ s' =
      (deleteBookmarksInArchive_in (world s) a (bookmarks_ s)).1.
Proof.
  simpl. rewrite deleteBookmarksInArchive_state.
  by destruct (deleteBookmarksInArchive_in _ _ _) as [l []].
Qed.

Lemma at_index_middle s l1 oa l2 :
  open_archives_ s = l1 ++ oa :: l2 →
  at_index s (Z.of_nat (length l1)) = Ok oa.
Proof.
  intros Hl. unfold at_index.
  by rewrite Nat2Z.id, Hl, list_lookup_middle.
Qed.

(** One call of [closeArchive] on the record [oa], found between [l1] and
    [l2], up to the loop over its child links. *)
Definition before_children (l1 : list OpenArchive) (oa : OpenArchive)
    (l2 : list OpenArchive) s : Manager W :=
  let i := Z.of_nat (length l1) in
  let s := announce "archive_closing" (Some i) s in
  let s := (deleteBookmarksInArchive (Some (archive oa)) s).2 in
  let s := call_resources (res_removeArchive (archive oa)) s in
  set_open_archives
    (l1 ++ mkOpenArchive (archive oa) (resource oa) [] :: l2) s.

(** And from the loop on. *)
Definition after_children (i : Z) (t : Manager W)
    : outcome (bool * Manager W) :=
  oa ← at_index t i;
  let t := unlink_from_parent (archive oa) t in
  oa ← at_index t i;
  let t := set_world (Archive_close (archive oa) (world t)) t in
  let t := set_open_archives (delete (Z.to_nat i) (open_archives_ t)) t in
  Ok (true, announce "archive_closed" (Some i) t).

Lemma closeArchive_step n s l1 oa l2 :
  open_archives_ s = l1 ++ oa :: l2 →
  closeArchive (S n) (Z.of_nat (length l1)) s =
  t ← ofold (close_child n) (open_children oa) (before_children l1 oa l2 s);
  after_children (Z.of_nat (length l1)) t.
Proof.
  intros Hl. cbn [closeArchive].
  assert (Hguard : (Z.of_nat (length l1) <? 0)
                   || (Z.of_nat (length l1)
                       >=? Z.of_nat (length (open_archives_ s))) = false).
  { rewrite Hl, length_app. simpl.
    apply orb_false_iff. split; [apply Z.ltb_ge; lia|].
    rewrite Z.geb_leb. apply Z.leb_gt. lia. }
  rewrite Hguard.
  set (s0 := announce "archive_closing" (Some (Z.of_nat (length l1))) s).
  assert (H0 : open_archives_ s0 = l1 ++ oa :: l2) by done.
  rewrite (at_index_middle s0 l1 oa l2 H0), bind_Ok.
  destruct (deleteBookmarksInArchive_fields (Some (archive oa)) s0)
    as (_ & H1 & _).
  set (s1 := (deleteBookmarksInArchive (Some (archive oa)) s0).2) in *.
  rewrite H0 in H1.
  rewrite (at_index_middle s1 l1 oa l2 H1), bind_Ok.
  set (s2 := call_resources (res_removeArchive (archive oa)) s1).
  assert (H2 : open_archives_ s2 = l1 ++ oa :: l2) by done.
  rewrite (at_index_middle s2 l1 oa l2 H2), bind_Ok.
  unfold clear_children. rewrite Nat2Z.id, H2, alter_middle.
  unfold after_children. by rewrite Nat2Z.id.
Qed.

Lemma filter_ext_in {A} (P Q : A → Prop) `{!∀ x, Decision (P x)}
    `{!∀ x, Decision (Q x)} (l : list A) :
  (∀ x, x ∈ l → P x ↔ Q x) → filter P l = filter Q l.
Proof.
  induction l as [|x l IH]; intros Hext; [done|].
  rewrite !filter_cons, IH by (intros y Hy; apply Hext; by right).
  destruct (decide (P x)) as [HP|HP].
  - rewrite decide_True; [done|]. apply Hext; [by left|done].
  - rewrite decide_False; [done|]. intros HQ. apply HP, Hext; [by left|done].
Qed.

Lemma unlinked_container w w' a x :
  container w' a = container w a → unlinked w' a x = unlinked w a x.
Proof. intros Hc. unfold unlinked. by rewrite Hc. Qed.

Lemma before_children_fields l1 oa l2 s :
  let t := before_children l1 oa l2 s in
  world t = world s
  ∧ open_archives_ t =
      l1 ++ mkOpenArchive (archive oa) (resource oa) [] :: l2
  ∧ bookmarks_ t =
      (deleteBookmarksInArchive_in (world s) (Some (archive oa))
         (bookmarks_ s)).1.
Proof.
  simpl. unfold before_children.
  destruct (deleteBookmarksInArchive_fields (Some (archive oa))
              (announce "archive_closing" (Some (Z.of_nat (length l1))) s))
    as (Hw & _ & Hb).
  split_and!; [exact Hw|done|exact Hb].
Qed.

Lemma closeArchive_closes : close_frame → ∀ n, closes n.
Proof.
  intros Hframe. induction n as [|n IH]; intros s l1 oa l2 Hl Hwn Hpre Hlen;
    [lia|].
  rewrite (closeArchive_step n s l1 oa l2 Hl).
  set (X := archive oa) in *.
  set (oa0 := mkOpenArchive X (resource oa) []).
  destruct (before_children_fields l1 oa l2 s) as (Hw0 & Hl0 & Hb0).
  set (t0 := before_children l1 oa l2 s) in *. fold X oa0 in Hl0.
  pose proof (wn_once _ _ Hwn) as Hnd. rewrite Hl in Hnd.
  destruct (NoDup_middle _ _ _ Hnd) as (HX1 & HX2 & H12). fold X in HX1, HX2.
  assert (Hcl0 : closing l1 oa l2 (world s) (bookmarks_ s) t0 []).
  { split.
    - rewrite Hl0. by rewrite filter_all by (intros x _; apply not_elem_of_nil).
    - intros a Ha. by apply elem_of_nil in Ha.
    - rewrite Hw0, Hl0. apply well_nested_clear. by rewrite <- Hl.
    - rewrite Hw0. apply agree_refl.
    - rewrite Hb0. apply deleteBookmarksInArchive_in_pruned.
    - intros a Ha. by apply elem_of_nil in Ha.
    - intros a c Ha. by apply elem_of_nil in Ha. }
  destruct (close_children n l1 oa l2 (world s) (bookmarks_ s) IH
              ltac:(lia) Hnd (open_children oa) t0 [])
    as (R & t & Hrun & Hcl & _ & Hdone); [done| |done| |].
  { intros c Hc (y & -> & Hy)%list_elem_of_fmap.
    pose proof (wn_forward _ _ Hwn) as Hfwd. rewrite Hl in Hfwd.
    apply (forward_middle l1 oa l2 y oa Hfwd Hy); [by left|done]. }
  { intros c Hc Hreg. rewrite Hw0.
    apply (wn_container _ _ Hwn); [rewrite Hl; apply elem_of_app; right; by left
                                  |done|].
    rewrite Hl. apply registered_middle.
    unfold registered in Hreg. rewrite Hl0 in Hreg.
    by apply registered_middle in Hreg. }
  rewrite Hrun, bind_Ok. unfold after_children.
  pose proof (cl_list _ _ _ _ _ _ _ Hcl) as Hlt. fold X oa0 in Hlt.
  pose proof (cl_sub _ _ _ _ _ _ _ Hcl) as HRsub.
  assert (HXR : X ∉ R) by (intros Hin; by apply HX2, HRsub).
  rewrite (at_index_middle t l1 oa0 _ Hlt), bind_Ok.
  change (archive oa0) with X.
  rewrite (unlink_from_parent_list t X (wn_once _ _ (cl_wn _ _ _ _ _ _ _ Hcl))).
  (* the container of [X] is the same as before the loop *)
  assert (Hcont : container (world t) X = container (world s) X).
  { destruct (container (world s) X) as [P|] eqn:HP.
    - apply (agree_container _ _ _ _ _ (cl_world _ _ _ _ _ _ _ Hcl));
        [done|done|].
      intros Hin. apply (Hpre P eq_refl). rewrite fmap_cons. right.
      by apply HRsub.
    - by apply (agree_container_None _ _ _ _ (cl_world _ _ _ _ _ _ _ Hcl)). }
  set (U := unlinked (world s) X).
  assert (HU : unlinked (world t) X <$> open_archives_ t =
               (U <$> l1) ++ U oa0 :: (U <$> filter (kept R) l2)).
  { rewrite Hlt, fmap_app, fmap_cons. unfold U.
    f_equal; [|f_equal]; try apply list_fmap_ext; intros;
      by apply unlinked_container. }
  rewrite HU.
  set (t1 := set_open_archives _ t).
  assert (Hl1 : open_archives_ t1 =
                (U <$> l1) ++ U oa0 :: (U <$> filter (kept R) l2)) by done.
  assert (Hlen1 : length (U <$> l1) = length l1) by apply length_fmap.
  rewrite <- Hlen1.
  rewrite (at_index_middle t1 _ _ _ Hl1), bind_Ok.
  rewrite Nat2Z.id. cbn [open_archives_ set_world]. rewrite Hl1, delete_middle.
  exists R. eexists. split; [reflexivity|].
  assert (HUX : archive (U oa0) = X) by apply unlinked_archive.
  rewrite HUX. split; simpl.
  - rewrite Hl, filter_app, filter_cons_False, fmap_app.
    2:{ intros Hk. apply Hk. by left. }
    f_equal.
    + f_equal. symmetry. apply filter_all. intros x Hx.
      intros [HeqX|Hin]%elem_of_cons.
      * apply HX1. apply list_elem_of_fmap. exists x.
        split; [symmetry; exact HeqX|done].
      * apply (H12 (archive x)); [|by apply HRsub].
        apply list_elem_of_fmap. by exists x.
    + f_equal. apply filter_ext_in. intros x Hx. unfold kept.
      rewrite not_elem_of_cons. split; [|tauto].
      intros Hn. split; [|done]. intros HeqX. apply HX2.
      apply list_elem_of_fmap. exists x. split; [symmetry; exact HeqX|done].
  - exact HRsub.
  - rewrite Hl. apply (cl_sound _ _ _ _ _ _ _ Hcl).
  - rewrite Hl. intros a c [->|Ha]%elem_of_cons Hlk Hreg.
    + right. apply Hdone; [|done].
      destruct Hlk as (x & Hx & Hxa & Hxc).
      assert (x = oa) as ->; [|done].
      apply (same_record (l1 ++ oa :: l2)); [done|done| |done].
      apply elem_of_app. right. by left.
    + right. by apply (cl_closed _ _ _ _ _ _ _ Hcl a c).
  - apply (cl_bookmarks _ _ _ _ _ _ _ Hcl).
  - apply (agree_mono (R ++ [X])).
    + intros a [?|?%list_elem_of_singleton]%elem_of_app;
        [by right|subst; by left].
    + eapply agree_trans; [apply (cl_world _ _ _ _ _ _ _ Hcl)|].
      by apply agree_close.
Qed.

Lemma nested_in_closed l (D : list aptr) a d :
  (∀ p c, p ∈ D → linked l p c → registered l c → c ∈ D) →
  a ∈ D → nested_in l a d → d ∈ D.
Proof.
  intros Hclosed Ha Hn. induction Hn as [|a c d Hl Hr _ IH]; [done|].
  apply IH. by apply (Hclosed a c).
Qed.

Lemma nested_in_last l a d :
  nested_in l a d →
  d = a ∨ ∃ p, nested_in l a p ∧ linked l p d ∧ registered l d.
Proof.
  induction 1 as [|a c d Hl Hr Hn IH]; [by left|]. right.
  destruct IH as [->|(p & Hp & Hpd & Hd)].
  - exists a. split_and!; [constructor|done|done].
  - exists p. split_and!; [|done|done]. by eapply nested_step.
Qed.

(** C1.  Let the open list be as the manager builds it ([well_nested]),
    let [oa] be the record at position [length l1], and let the archive
    [oa] was opened from, if there is one, not be registered at or after
    [oa].  Let [Archive::close] keep to its own archive ([close_frame]).
    Then [closeArchive], given fuel for the records after [oa], returns
    true, and with [D] the archive of [oa] together with everything nested
    in it through links to archives that are still open (its children, their
    children, and so on):
    - the open list is the old one without the records of [D], in the same
      order, and the only change to a record that stays is that the record
      of the archive [oa] was opened from loses its link to it;
    - so a child and a grandchild that were still open have no record any
      more, and no record that stays links an archive of [D];
    - the bookmarks are the old ones without exactly those that no longer
      resolve and those of the entries of an archive of [D]. *)
Theorem C1_closeArchive_closes_nested (n : nat) s
    (l1 : list OpenArchive) (oa : OpenArchive) (l2 : list OpenArchive) :
  close_frame →
  well_nested (world s) (open_archives_ s) →
  open_archives_ s = l1 ++ oa :: l2 →
  (∀ P, container (world s) (archive oa) = Some P →
        P ∉ archive <$> (oa :: l2)) →
  (length l2 < n)%nat →
  ∃ D s',
    closeArchive n (Z.of_nat (length l1)) s = Ok (true, s')
    ∧ (∀ a, a ∈ D ↔ nested_in (open_archives_ s) (archive oa) a)
    ∧ open_archives_ s' =
        unlinked (world s) (archive oa)
          <$> filter (kept D) (open_archives_ s)
    ∧ (∀ a, a ∈ D → ¬ registered (open_archives_ s') a)
    ∧ (∀ c g,
         linked (open_archives_ s) (archive oa) c →
         registered (open_archives_ s) c →
         linked (open_archives_ s) c g →
         registered (open_archives_ s) g →
         ¬ registered (open_archives_ s') (archive oa)
         ∧ ¬ registered (open_archives_ s') c
         ∧ ¬ registered (open_archives_ s') g)
    ∧ (∀ oa' c, oa' ∈ open_archives_ s' → c ∈ open_children oa' → c ∉ D)
    ∧ pruned (erased (world s) D) (bookmarks_ s) (bookmarks_ s')
    ∧ (∀ e a, Some e ∈ bookmarks_ s' →
              ArchiveEntry_parent (world s) e = Some a → a ∉ D).
Proof.
  intros Hframe Hwn Hl Hpre Hlen.
  destruct (closeArchive_closes Hframe n s l1 oa l2 Hl Hwn Hpre Hlen)
    as (R & s' & Hrun & Hca).
  set (X := archive oa) in *. set (D := X :: R).
  pose proof (ca_list _ _ _ _ _ _ Hca) as Hlist. fold X D in Hlist.
  pose proof (ca_closed _ _ _ _ _ _ Hca) as Hclosed. fold X D in Hclosed.
  pose proof (ca_bookmarks _ _ _ _ _ _ Hca) as Hbm. fold X D in Hbm.
  assert (HD : ∀ a, a ∈ D ↔ nested_in (open_archives_ s) X a).
  { intros a. split.
    - intros [->|Ha]%elem_of_cons; [constructor|].
      by apply (ca_sound _ _ _ _ _ _ Hca).
    - apply (nested_in_closed _ D); [exact Hclosed|by left]. }
  assert (Hgone : ∀ a, a ∈ D → ¬ registered (open_archives_ s') a).
  { intros a Ha Hreg. unfold registered in Hreg. rewrite Hlist in Hreg.
    apply list_elem_of_fmap in Hreg as (x' & -> & Hx').
    apply list_elem_of_fmap in Hx' as (x & -> & Hx).
    apply list_elem_of_filter in Hx as [Hk _].
    apply Hk. by rewrite unlinked_archive in Ha. }
  assert (HX : X ∈ D) by by left.
  exists D, s'. split_and!; try done.
  - intros c g Hc Hrc Hg Hrg.
    assert (HcD : c ∈ D) by by apply (Hclosed X c).
    assert (HgD : g ∈ D) by by apply (Hclosed c g).
    split_and!; by apply Hgone.
  - intros oa' c Hoa' Hc HcD. rewrite Hlist in Hoa'.
    apply list_elem_of_fmap in Hoa' as (x & -> & Hx).
    apply list_elem_of_filter in Hx as [Hk Hx].
    assert (Hcx : c ∈ open_children x).
    { eapply elem_of_sublist; [exact Hc|apply unlinked_children]. }
    assert (Hcreg : registered (open_archives_ s) c).
    { apply elem_of_cons in HcD as [->|HcR].
      - rewrite Hl. apply registered_middle. right. by left.
      - rewrite Hl. apply registered_middle. right. right.
        by apply (ca_sub _ _ _ _ _ _ Hca). }
    pose proof (wn_container _ _ Hwn x c Hx Hcx Hcreg) as Hcont.
    apply HD in HcD. apply nested_in_last in HcD as [->|(p & Hp & Hpc & _)].
    + unfold unlinked in Hc. rewrite decide_True in Hc by done. simpl in Hc.
      revert Hc. apply erase_child_gone. by apply (wn_links_once _ _ Hwn).
    + apply HD in Hp. destruct Hpc as (y & Hy & <- & Hcy).
      rewrite (wn_container _ _ Hwn y c Hy Hcy Hcreg) in Hcont.
      injection Hcont as Heq. apply Hk. by rewrite <- Heq.
  - intros e a He Hpar HaD.
    apply (pruned_elem_of _ _ _ _ Hbm) in He as [_ Hne].
    apply Hne. unfold erased. simpl.
    destruct (ArchiveEntry_lock (world s) e); [|by left].
    right. by exists e, a.
Qed.

End Close.
(** ** Adding an archive: the archives in its root are opened with it *)

Section AutoOpen.
Context {W Opt : Type} {C : Collaborators W Opt}.
Implicit Type s : Manager W.

(** [l'] is [l] with links appended to its records and records appended to
    it. *)
Definition grows (l l' : list OpenArchive) : Prop :=
  ∀ i oa, l !! i = Some oa →
          ∃ oa', l' !! i = Some oa' ∧ archive oa' = archive oa
                 ∧ resource oa' = resource oa
                 ∧ open_children oa `prefix_of` open_children oa'.

(** The announcements of [s'] are those of [s] and some [archive_added]. *)
Definition added_only s s' : Prop :=
  ∃ evs, announced s' = announced s ++ evs
         ∧ Forall (λ ev, event_name ev = "archive_added") evs.

(** The state [addArchive] makes before it looks at the root entries. *)
Definition pushed (a : aptr) s : Manager W :=
  call_resources (res_addArchive a)
    (announce "archive_added" None
       (listenTo a
          (set_open_archives (open_archives_ s ++ [mkOpenArchive a true []])
             s))).

(** The first statement of the loop body: an entry of unknown type has its
    type detected. *)
Definition detected (e : eptr) s : Manager W :=
  if decide (ArchiveEntry_type (world s) e = unknownType)
  then set_world (EntryType_detectEntryType e (world s)) s
  else s.

(** The archive is to be expanded: it is a zip or a directory, and
    [auto_open_wads_root] is set. *)
Definition expands s (a : aptr) : Prop :=
  (Archive_formatId (world s) a = "zip"
   ∨ Archive_formatId (world s) a = "folder")
  ∧ auto_open_wads_root s = true.

#[local] Instance expands_dec s a : Decision (expands s a).
Proof. unfold expands. apply _. Defined.

Lemma grows_refl l : grows l l.
Proof. intros i oa Hi. by exists oa. Qed.

Lemma grows_trans l1 l2 l3 : grows l1 l2 → grows l2 l3 → grows l1 l3.
Proof.
  intros H12 H23 i oa Hi.
  destruct (H12 i oa Hi) as (oa2 & Hi2 & Ha2 & Hr2 & Hc2).
  destruct (H23 i oa2 Hi2) as (oa3 & Hi3 & Ha3 & Hr3 & Hc3).
  exists oa3. split_and!; [done|congruence|congruence|by etrans].
Qed.

Lemma grows_push l oa : grows l (l ++ [oa]).
Proof.
  intros i x Hi. exists x. split_and!; try done.
  by apply lookup_app_l_Some.
Qed.

Lemma grows_add_child i a l : grows l (add_child i a l).
Proof.
  intros j x Hj. unfold add_child.
  destruct (decide (i = j)) as [->|Hne].
  - eexists. split; [by rewrite list_lookup_alter_eq, Hj|].
    simpl. split_and!; [done|done|by apply prefix_app_r].
  - exists x. by rewrite list_lookup_alter_ne.
Qed.

Lemma added_only_refl s : added_only s s.
Proof. exists []. by rewrite app_nil_r. Qed.

Lemma added_only_trans s1 s2 s3 :
  added_only s1 s2 → added_only s2 s3 → added_only s1 s3.
Proof.
  intros (e1 & H1 & F1) (e2 & H2 & F2). exists (e1 ++ e2).
  split; [by rewrite H2, H1, app_assoc|by apply Forall_app].
Qed.

Lemma expands_pushed a s : expands (pushed a s) a ↔ expands s a.
Proof. done. Qed.

Lemma expands_bool s a :
  (bool_decide (Archive_formatId (world s) a = "zip")
   || bool_decide (Archive_formatId (world s) a = "folder"))
  && auto_open_wads_root s = bool_decide (expands s a).
Proof.
  destruct (decide (expands s a)) as [[Hf Ht]|Hn].
  - rewrite (bool_decide_eq_true_2 (expands s a)) by done. rewrite Ht.
    destruct Hf as [Hf|Hf]; rewrite (bool_decide_eq_true_2 _ Hf);
      by rewrite ?orb_true_r.
  - rewrite (bool_decide_eq_false_2 (expands s a)) by done.
    apply andb_false_iff.
    destruct (auto_open_wads_root s) eqn:Ht; [left|by right].
    apply orb_false_iff.
    split; apply bool_decide_eq_false_2; intros Hf; apply Hn;
      (split; [tauto|done]).
Qed.

Lemma addArchive_S n a s :
  addArchive (S n) (Some a) s =
  if decide (expands s a)
  then t ← ofold (auto_open (openArchive_entry n))
             (ArchiveDir_allEntries (world s) (Archive_rootDir (world s) a))
             (pushed a s);
       Ok (true, t)
  else Ok (true, pushed a s).
Proof.
  cbn [addArchive]. fold (pushed a s).
  change (world (pushed a s)) with (world s).
  change (auto_open_wads_root (pushed a s)) with (auto_open_wads_root s).
  rewrite expands_bool.
  destruct (decide (expands s a)) as [He|He].
  - by rewrite bool_decide_eq_true_2.
  - by rewrite bool_decide_eq_false_2.
Qed.

Lemma auto_open_detected openA s e :
  auto_open openA s e =
  if decide (ArchiveEntry_type (world (detected e s)) e = "wad")
  then '(_, t) ← openA (Some e) true true (detected e s); Ok t
  else Ok (detected e s).
Proof. done. Qed.

(** A call that was made with [silent] set: the list has grown and nothing
    but [archive_added] was announced. *)
Definition quiet s s' : Prop :=
  grows (open_archives_ s) (open_archives_ s') ∧ added_only s s'.

Lemma quiet_refl s : quiet s s.
Proof. split; [apply grows_refl|apply added_only_refl]. Qed.

Lemma quiet_trans s1 s2 s3 : quiet s1 s2 → quiet s2 s3 → quiet s1 s3.
Proof.
  intros [Hg1 Ha1] [Hg2 Ha2].
  split; [by eapply grows_trans|by eapply added_only_trans].
Qed.

Lemma quiet_pushed a s : quiet s (pushed a s).
Proof.
  split; [apply grows_push|].
  exists [mkAnnouncement "archive_added" None]. split; [done|].
  by apply Forall_singleton.
Qed.

Lemma quiet_same s s' :
  open_archives_ s' = open_archives_ s → announced s' = announced s →
  quiet s s'.
Proof.
  intros Hl Ha. split.
  - rewrite Hl. apply grows_refl.
  - exists []. by rewrite app_nil_r.
Qed.

Lemma quiet_detected e s : quiet s (detected e s).
Proof. unfold detected. case_decide; by apply quiet_same. Qed.

(** The state in which [openArchive] calls [addArchive] for the archive [c]
    it has parsed from entry [e], the parse having left the world [w]. *)
Definition child_linked (e : eptr) (c : aptr) (w : W) s : Manager W :=
  let s := set_world w s in
  let index_parent :=
    match ArchiveEntry_parent (world s) e with
    | Some p => archiveIndex s (Some p)
    | None => -1
    end in
  if 0 <=? index_parent
  then set_open_archives
         (add_child (Z.to_nat index_parent) c (open_archives_ s)) s
  else s.

Lemma quiet_child_linked e c w s : quiet s (child_linked e c w s).
Proof.
  unfold child_linked. cbv zeta. case_match.
  - split; [apply grows_add_child|exists []; by rewrite app_nil_r].
  - by apply quiet_same.
Qed.

(** Entry [e] is not open yet. *)
Definition not_open s (e : eptr) : Prop :=
  ∀ oa, oa ∈ open_archives_ s →
        Archive_parentEntry (world s) (archive oa) ≠ Some e.

Lemma not_open_find s e :
  not_open s e →
  List.find (λ oa, bool_decide
               (Archive_parentEntry (world s) (archive oa) = Some e))
    (open_archives_ s) = None.
Proof.
  intros Hnot. destruct (List.find _ _) as [oa|] eqn:Hf; [|done].
  apply find_some in Hf as [Hin Hb]. apply bool_decide_eq_true in Hb.
  exfalso. apply (Hnot oa); [|done]. by apply list_elem_of_In.
Qed.

(** The open of an entry that is not open yet, is recognised as class [f]
    and parses: the new archive is linked to its container and added. *)
Lemma openArchive_entry_new addA e silent s f :
  not_open s e →
  detect_entry (world s) e = Some f →
  (Archive_open_entry (make_shared f (world s)).1 e
     (make_shared f (world s)).2).1 = true →
  let c := (make_shared f (world s)).1 in
  let w := (Archive_open_entry c e (make_shared f (world s)).2).2 in
  openArchive_entry_with addA (Some e) true silent s =
  '(_, t) ← addA (Some c) (child_linked e c w s);
  Ok (Some c, announce_opened silent c t).
Proof.
  intros Hnot Hdet Hok. unfold openArchive_entry_with.
  rewrite (not_open_find s e Hnot), Hdet. simpl.
  destruct (make_shared f (world s)) as [c w1]. simpl in *.
  destruct (Archive_open_entry c e w1) as [ok w2]. simpl in *. subst ok.
  done.
Qed.

Lemma openArchive_entry_quiet addA entry manage s r s' :
  (∀ p t b t', addA p t = Ok (b, t') → quiet t t') →
  openArchive_entry_with addA entry manage true s = Ok (r, s') →
  quiet s s'.
Proof.
  intros HaddA. unfold openArchive_entry_with.
  destruct entry as [e|]; [|intros [= _ <-]; by apply quiet_same].
  destruct (List.find _ _); [intros [= _ <-]; by apply quiet_same|].
  destruct (detect_entry (world s) e) as [f|];
    [|intros [= _ <-]; by apply quiet_same].
  destruct (make_shared f (world s)) as [c w1].
  destruct (Archive_open_entry c e w1) as [[] w2];
    [|intros [= _ <-]; by apply quiet_same].
  destruct manage; [|intros [= _ <-]; by apply quiet_same].
  fold (child_linked e c w2 s).
  destruct (addA (Some c) (child_linked e c w2 s)) as [[b t]| |] eqn:Hadd;
    [|done|done].
  simpl. intros [= _ <-].
  eapply quiet_trans; [apply quiet_child_linked|by eapply HaddA].
Qed.

Lemma auto_open_quiet openA s e s' :
  (∀ entry t r t', openA entry true true t = Ok (r, t') → quiet t t') →
  auto_open openA s e = Ok s' → quiet s s'.
Proof.
  intros HopenA. rewrite auto_open_detected. case_decide.
  - destruct (openA _ _ _ _) as [[r t]| |] eqn:Hopen; [|done|done].
    simpl. intros [= <-].
    eapply quiet_trans; [apply quiet_detected|by eapply HopenA].
  - intros [= <-]. apply quiet_detected.
Qed.

Lemma ofold_quiet {A} (body : Manager W → A → outcome (Manager W)) l s s' :
  (∀ t x t', body t x = Ok t' → quiet t t') →
  ofold body l s = Ok s' → quiet s s'.
Proof.
  intros Hbody. revert s. induction l as [|x l IH]; intros s.
  - intros [= <-]. apply quiet_refl.
  - rewrite ofold_cons. destruct (body s x) as [t| |] eqn:Hx; [|done|done].
    rewrite bind_Ok. intros Hrest.
    eapply quiet_trans; [by eapply Hbody|by apply IH].
Qed.

Lemma addArchive_quiet n p s b s' :
  addArchive n p s = Ok (b, s') → quiet s s'.
Proof.
  revert p s b s'. induction n as [|n IH]; intros p s b s'; [done|].
  destruct p as [a|]; [|intros [= _ <-]; by apply quiet_same].
  rewrite addArchive_S. case_decide.
  - destruct (ofold _ _ _) as [t| |] eqn:Hloop; [|done|done].
    rewrite bind_Ok. intros [= _ <-].
    eapply quiet_trans; [apply quiet_pushed|].
    eapply ofold_quiet; [|exact Hloop].
    intros t0 x t' Hstep. eapply auto_open_quiet; [|exact Hstep].
    intros entry t1 r t1' Hopen.
    eapply openArchive_entry_quiet; [|exact Hopen]. apply IH.
  - intros [= _ <-]. apply quiet_pushed.
Qed.

Lemma addArchive_registers n a s b s' :
  addArchive n (Some a) s = Ok (b, s') →
  b = true
  ∧ ∃ oa, open_archives_ s' !! length (open_archives_ s) = Some oa
          ∧ archive oa = a ∧ resource oa = true.
Proof.
  destruct n as [|n]; [done|]. rewrite addArchive_S.
  assert (Hpushed : open_archives_ (pushed a s) !! length (open_archives_ s)
                    = Some (mkOpenArchive a true [])).
  { simpl. by apply list_lookup_middle. }
  case_decide.
  - destruct (ofold _ _ _) as [t| |] eqn:Hloop; [|done|done].
    rewrite bind_Ok. intros [= <- <-]. split; [done|].
    assert (Hq : quiet (pushed a s) t).
    { eapply ofold_quiet; [|exact Hloop].
      intros t0 x t' Hstep. eapply auto_open_quiet; [|exact Hstep].
      intros entry t1 r t1' Hopen.
      eapply openArchive_entry_quiet; [|exact Hopen].
      intros p t2 b2 t2'. apply addArchive_quiet. }
    destruct Hq as [Hg _].
    destruct (Hg _ _ Hpushed) as (oa' & Hoa' & Ha' & Hr' & _).
    by exists oa'.
  - intros [= <- <-]. split; [done|]. by eexists.
Qed.

(** Fuel is a bound only: a call that returns, returns the same with more
    fuel. *)
Lemma openArchive_entry_more addA addA' entry manage silent s x :
  (∀ p t y, addA p t = Ok y → addA' p t = Ok y) →
  openArchive_entry_with addA entry manage silent s = Ok x →
  openArchive_entry_with addA' entry manage silent s = Ok x.
Proof.
  intros Hmore. unfold openArchive_entry_with.
  destruct entry as [e|]; [|done].
  destruct (List.find _ _); [done|].
  destruct (detect_entry (world s) e) as [f|]; [|done].
  destruct (make_shared f (world s)) as [c w1].
  destruct (Archive_open_entry c e w1) as [[] w2]; [|done].
  destruct manage; [|done].
  match goal with
  | |- context [addA ?p ?t] =>
      destruct (addA p t) as [y| |] eqn:Hadd; [|done|done];
      by rewrite (Hmore _ _ _ Hadd)
  end.
Qed.

Lemma ofold_more {A S} (body body' : S → A → outcome S) l (s s' : S) :
  (∀ t x t', body t x = Ok t' → body' t x = Ok t') →
  ofold body l s = Ok s' → ofold body' l s = Ok s'.
Proof.
  intros Hmore. revert s. induction l as [|x l IH]; intros s; [done|].
  rewrite !ofold_cons. destruct (body s x) as [t| |] eqn:Hx; [|done|done].
  rewrite (Hmore _ _ _ Hx), !bind_Ok. apply IH.
Qed.

Lemma addArchive_more n m p s x :
  (n ≤ m)%nat → addArchive n p s = Ok x → addArchive m p s = Ok x.
Proof.
  revert m p s x. induction n as [|n IH]; intros m p s x Hle; [done|].
  destruct m as [|m]; [lia|].
  destruct p as [a|]; [|done].
  rewrite !addArchive_S. case_decide; [|done].
  destruct (ofold _ _ _) as [t| |] eqn:Hloop; [|done|done].
  rewrite bind_Ok. intros <-.
  assert (Hloop' : ofold (auto_open (openArchive_entry m))
                     (ArchiveDir_allEntries (world s)
                        (Archive_rootDir (world s) a))
                     (pushed a s) = Ok t).
  { eapply ofold_more; [|exact Hloop].
    intros t0 e t'. rewrite !auto_open_detected. case_decide; [|done].
    destruct (openArchive_entry n _ _ _ _) as [y| |] eqn:Hopen; [|done|done].
    unfold openArchive_entry in *.
    erewrite openArchive_entry_more; [done| |exact Hopen].
    intros p t1 y1. apply IH. lia. }
  by rewrite Hloop'.
Qed.

Lemma ofold_app_Ok {A S} (body : S → A → outcome S) l1 l2 (s t s' : S) :
  ofold body l1 s = Ok t →
  ofold body (l1 ++ l2) s = Ok s' → ofold body l2 t = Ok s'.
Proof.
  revert s. induction l1 as [|x l1 IH]; intros s; simpl.
  - by intros [= ->].
  - destruct (body s x) as [u| |]; [|done|done]. rewrite !bind_Ok. apply IH.
Qed.

Lemma grows_linked l l' i oa c :
  grows l l' → l !! i = Some oa → c ∈ open_children oa →
  linked l' (archive oa) c.
Proof.
  intros Hg Hi Hc. destruct (Hg i oa Hi) as (oa' & Hi' & Ha' & _ & [k Hk]).
  exists oa'. split_and!; [by eapply list_elem_of_lookup_2|done|].
  rewrite Hk. apply elem_of_app. by left.
Qed.

Lemma grows_registered l l' i oa :
  grows l l' → l !! i = Some oa →
  ∃ oa', oa' ∈ l' ∧ archive oa' = archive oa ∧ resource oa' = resource oa.
Proof.
  intros Hg Hi. destruct (Hg i oa Hi) as (oa' & Hi' & Ha' & Hr' & _).
  exists oa'. split_and!; [by eapply list_elem_of_lookup_2|done|done].
Qed.

Lemma ofold_app {A S} (body : S → A → outcome S) l1 l2 (s : S) :
  ofold body (l1 ++ l2) s = (t ← ofold body l1 s; ofold body l2 t).
Proof.
  revert s. induction l1 as [|x l1 IH]; intros s; [done|].
  simpl. destruct (body s x) as [u| |]; [|done|done]. rewrite !bind_Ok.
  apply IH.
Qed.

Lemma world_child_linked e c w s : world (child_linked e c w s) = w.
Proof. unfold child_linked. cbv zeta. by case_match. Qed.

Lemma auto_open_wads_root_child_linked e c w s :
  auto_open_wads_root (child_linked e c w s) = auto_open_wads_root s.
Proof. unfold child_linked. cbv zeta. by case_match. Qed.

(** The archive that [openArchive] makes of entry [e] in state [s], when
    the entry is recognised and parses, is neither a zip nor a directory:
    it is not expanded in its turn. *)
Definition flat_child s (e : eptr) : Prop :=
  ∀ f, detect_entry (world s) e = Some f →
       let c := (make_shared f (world s)).1 in
       let parse := Archive_open_entry c e (make_shared f (world s)).2 in
       parse.1 = true →
       Archive_formatId parse.2 c ≠ "zip"
       ∧ Archive_formatId parse.2 c ≠ "folder".

(** With a child that is not expanded, one more unit of fuel is all the
    open of an entry needs. *)
Lemma openArchive_entry_returns n e silent s :
  flat_child s e →
  ∃ r s', openArchive_entry (S n) (Some e) true silent s = Ok (r, s').
Proof.
  intros Hflat. unfold openArchive_entry, openArchive_entry_with.
  destruct (List.find _ _); [by eexists _, _|].
  destruct (detect_entry (world s) e) as [f|] eqn:Hdet; [|by eexists _, _].
  specialize (Hflat f Hdet). cbv zeta in Hflat.
  destruct (make_shared f (world s)) as [c w1]. simpl in Hflat.
  destruct (Archive_open_entry c e w1) as [[] w2]; simpl in Hflat;
    [|by eexists _, _].
  fold (child_linked e c w2 s).
  rewrite addArchive_S, decide_False.
  - simpl. by eexists _, _.
  - intros [Hfmt _]. rewrite world_child_linked in Hfmt.
    destruct (Hflat eq_refl) as [Hz Hf]. by destruct Hfmt.
Qed.

Lemma loop_returns n s0 es1 es2 t :
  ofold (auto_open (openArchive_entry (S n))) es1 s0 = Ok t →
  (∀ es1' e es2' t',
     es1 ++ es2 = es1' ++ e :: es2' →
     ofold (auto_open (openArchive_entry (S n))) es1' s0 = Ok t' →
     ArchiveEntry_type (world (detected e t')) e = "wad" →
     flat_child (detected e t') e) →
  ∃ t', ofold (auto_open (openArchive_entry (S n))) es2 t = Ok t'.
Proof.
  revert es1 t. induction es2 as [|e es2 IH]; intros es1 t Hrun Hflat.
  - by eexists.
  - rewrite ofold_cons.
    assert (∃ t1, auto_open (openArchive_entry (S n)) t e = Ok t1)
      as [t1 Ht1].
    { rewrite auto_open_detected. case_decide as Hty; [|by eexists].
      destruct (openArchive_entry_returns n e true (detected e t))
        as (r & t1 & Hopen); [by eapply (Hflat es1 e es2 t)|].
      rewrite Hopen. simpl. by eexists. }
    rewrite Ht1, bind_Ok. apply (IH (es1 ++ [e])).
    + by rewrite ofold_app, Hrun, bind_Ok, ofold_cons, Ht1.
    + intros es1' e' es2' t' Heq. apply (Hflat es1' e' es2' t').
      rewrite <- Heq. by rewrite <- app_assoc.
Qed.

Lemma loop_quiet n es s s' :
  ofold (auto_open (openArchive_entry n)) es s = Ok s' → quiet s s'.
Proof.
  intros Hloop. eapply ofold_quiet; [|exact Hloop].
  intros t0 x t' Hstep. eapply auto_open_quiet; [|exact Hstep].
  intros entry t1 r t1' Hopen.
  eapply openArchive_entry_quiet; [|exact Hopen].
  intros p t2 b2 t2'. apply addArchive_quiet.
Qed.

(** C7.  Let [a] be a zip or a directory and let [auto_open_wads_root] be
    set.  [addArchive] registers [a] as a resource and then goes through the
    entries of its root in order, calling [openArchive(entry, true, true)]
    on each entry whose type (detected first, when unknown) is [wad].
    Whenever the call returns: it answers true; the record of [a] is in the
    list, flagged as a resource; nothing but [archive_added] has been
    announced, the children being opened silently; and every such entry that
    was not open yet, was recognised and parsed, as an entry of [a], has
    become an archive [c] that has a record of its own, flagged as a
    resource, and that the record of [a] links as a child.  The opens go
    through [addArchive] again, with less fuel: fuel bounds the depth of the
    nesting only, a call that returns does so the same with more fuel, and
    an archive that is not to be expanded takes one unit of it; so when the
    archives made of the entries of the root are not expanded in their turn
    (a wad is not), the call returns with two units. *)
Theorem C7_auto_open_children (n : nat) s (a : aptr) :
  expands s a →
  let es := ArchiveDir_allEntries (world s) (Archive_rootDir (world s) a) in
  addArchive (S n) (Some a) s =
    (t ← ofold (auto_open (openArchive_entry n)) es (pushed a s); Ok (true, t))
  ∧ (∀ t e,
       auto_open (openArchive_entry n) t e =
       if decide (ArchiveEntry_type (world (detected e t)) e = "wad")
       then '(_, t') ← openArchive_entry n (Some e) true true (detected e t);
            Ok t'
       else Ok (detected e t))
  ∧ (∀ r s',
       addArchive (S n) (Some a) s = Ok (r, s') →
       r = true
       ∧ (∃ oa, oa ∈ open_archives_ s' ∧ archive oa = a ∧ resource oa = true)
       ∧ quiet s s'
       ∧ ∀ es1 e es2 t f,
           es = es1 ++ e :: es2 →
           ofold (auto_open (openArchive_entry n)) es1 (pushed a s) = Ok t →
           ArchiveEntry_type (world (detected e t)) e = "wad" →
           not_open (detected e t) e →
           detect_entry (world (detected e t)) e = Some f →
           let c := (make_shared f (world (detected e t))).1 in
           let parse :=
             Archive_open_entry c e
               (make_shared f (world (detected e t))).2 in
           parse.1 = true →
           ArchiveEntry_parent parse.2 e = Some a →
           registered (open_archives_ s') c
           ∧ linked (open_archives_ s') a c
           ∧ ∃ oc, oc ∈ open_archives_ s' ∧ archive oc = c
                   ∧ resource oc = true)
  ∧ (∀ m r s',
       (n ≤ m)%nat →
       addArchive (S n) (Some a) s = Ok (r, s') →
       addArchive (S m) (Some a) s = Ok (r, s'))
  ∧ (∀ c t, ¬ expands t c →
            addArchive (S n) (Some c) t = Ok (true, pushed c t))
  ∧ ((∀ es1 e es2 t,
        es = es1 ++ e :: es2 →
        ofold (auto_open (openArchive_entry (S n))) es1 (pushed a s) = Ok t →
        ArchiveEntry_type (world (detected e t)) e = "wad" →
        flat_child (detected e t) e) →
     ∃ s', addArchive (S (S n)) (Some a) s = Ok (true, s')).
Proof.
  intros Hexp es.
  assert (Htotal :
    (∀ es1 e es2 t,
       es = es1 ++ e :: es2 →
       ofold (auto_open (openArchive_entry (S n))) es1 (pushed a s) = Ok t →
       ArchiveEntry_type (world (detected e t)) e = "wad" →
       flat_child (detected e t) e) →
    ∃ s', addArchive (S (S n)) (Some a) s = Ok (true, s')).
  { intros Hflat. rewrite addArchive_S, decide_True by done. fold es.
    destruct (loop_returns n (pushed a s) [] es (pushed a s) eq_refl)
      as [t' Ht']; [exact Hflat|].
    rewrite Ht'. by eexists. }
  assert (Hstep : addArchive (S n) (Some a) s =
                  (t ← ofold (auto_open (openArchive_entry n)) es (pushed a s);
                   Ok (true, t))).
  { rewrite addArchive_S. by rewrite decide_True. }
  split; [exact Hstep|]. split; [intros t e; apply auto_open_detected|].
  split; [|split; [|split; [|exact Htotal]]].
  2:{ intros m r s' Hle. apply addArchive_more. lia. }
  2:{ intros c t Hne. rewrite addArchive_S. by rewrite decide_False. }
  intros r s' Hrun.
  destruct (addArchive_registers _ _ _ _ _ Hrun) as (-> & oa & Hoa & Ha & Hr).
  split; [done|]. split.
  { exists oa. split_and!; [by eapply list_elem_of_lookup_2|done|done]. }
  split; [by eapply addArchive_quiet|].
  intros es1 e es2 t f Hes Hpre Htype Hnot Hdet c parse Hok Hparent.
  rewrite Hstep in Hrun.
  destruct (ofold _ es _) as [s''| |] eqn:Hloop; [|done|done].
  rewrite bind_Ok in Hrun. injection Hrun as ->.
  rewrite Hes in Hloop.
  pose proof (ofold_app_Ok _ _ _ _ _ _ Hpre Hloop) as Hrest.
  rewrite ofold_cons, auto_open_detected, decide_True in Hrest by done.
  set (td := detected e t) in *.
  unfold openArchive_entry in Hrest.
  rewrite (openArchive_entry_new _ e true td f Hnot Hdet Hok) in Hrest.
  fold c in Hrest. fold parse in Hrest.
  set (tl := child_linked e c parse.2 td) in *.
  destruct (addArchive n (Some c) tl) as [[b t1]| |] eqn:Hadd;
    [|done|done].
  simpl in Hrest.
  (* the record of [a] is in the list since [a] was pushed *)
  assert (Hq_td : quiet (pushed a s) td).
  { eapply quiet_trans; [by eapply loop_quiet|apply quiet_detected]. }
  assert (Ha_td : ∃ oa0, open_archives_ td !! length (open_archives_ s)
                         = Some oa0 ∧ archive oa0 = a).
  { destruct Hq_td as [Hg _].
    destruct (Hg (length (open_archives_ s)) (mkOpenArchive a true []))
      as (oa0 & H0 & Ha0 & _); [simpl; by apply list_lookup_middle|].
    by exists oa0. }
  destruct Ha_td as (oa0 & Hoa0 & Harch0).
  (* so the new archive is linked to it *)
  assert (Hlinked : ∃ i oa1, open_archives_ tl !! i = Some oa1
                             ∧ archive oa1 = a ∧ c ∈ open_children oa1).
  { subst tl. unfold child_linked. cbv zeta.
    change (world (set_world parse.2 td)) with parse.2. rewrite Hparent.
    destruct (archiveIndex_spec (set_world parse.2 td) (Some a))
      as [Habs|i oa1 Hi [= Ha1] _].
    - exfalso. apply (Habs oa0); [|by rewrite Harch0].
      by eapply list_elem_of_lookup_2.
    - destruct (Z.leb_spec 0 (Z.of_nat i)); [|lia].
      rewrite Nat2Z.id. simpl in Hi.
      exists i. eexists. split.
      + simpl. unfold add_child. by rewrite list_lookup_alter_eq, Hi.
      + simpl. split; [done|]. apply elem_of_app. right. by left. }
  destruct Hlinked as (i & oa1 & Hi1 & Ha1 & Hc1).
  assert (Hq_rest : quiet tl s').
  { eapply quiet_trans; [by eapply addArchive_quiet|by eapply loop_quiet]. }
  destruct (addArchive_registers _ _ _ _ _ Hadd) as (_ & oc & Hoc & Hac & Hrc).
  assert (Hq_tail : quiet t1 s') by by eapply loop_quiet.
  destruct (grows_registered _ _ _ _ (proj1 Hq_tail) Hoc)
    as (oc' & Hoc' & Hac' & Hrc').
  split_and!.
  - apply list_elem_of_fmap. exists oc'. split; [congruence|done].
  - rewrite <- Ha1. by eapply grows_linked; [apply Hq_rest| |].
  - exists oc'. split_and!; [done|congruence|congruence].
Qed.

End AutoOpen.
(** * The rest of the manager

    The functions of [ArchiveManager.cpp] that the development above has not
    needed, over the same state; three more member functions of [Archive]
    come with them. *)

Class MoreCollaborators (W : Type) := {
  (* some shared_ptr to the archive is held outside the manager *)
  Archive_held : W → aptr → bool;
  Archive_setFilename : aptr → string → W → W;
  (* formatDesc().name *)
  Archive_formatName : W → aptr → string
}.

Section More.
Context {W Opt : Type} {C : Collaborators W Opt} {M : MoreCollaborators W}.
Implicit Type s : Manager W.

(** [ArchiveManager::initBaseResource]. *)
Definition initBaseResource s : bool * Manager W :=
  openBaseResource (base_resource s) s.


(** [ArchiveManager::closeAll]; [fuel] bounds the turns of the [while]
    loop, [depth] is the fuel of each [closeArchive(0)]. *)
Fixpoint closeAll (fuel depth : nat) s : outcome (Manager W) :=
  match open_archives_ s with
  | [] => Ok s
  | _ :: _ =>
      match fuel with
      | O => OutOfFuel
      | S fuel => '(_, s) ← closeArchive depth 0 s; closeAll fuel depth s
      end
  end.

(** [weak_ptr<Archive>::lock()]: the archive is alive while the open list
    holds it or a pointer to it is held elsewhere. *)
Definition lock_archive s (a : aptr) : option aptr :=
  if bool_decide (a ∈ archive <$> open_archives_ s)
     || Archive_held (world s) a
  then Some a
  else None.

(** [ArchiveManager::getDependentArchivesInternal].  [open_archives_[ai]]
    with [ai = -1] is undefined behaviour. *)
Fixpoint getDependentArchivesInternal (fuel : nat) s (p : option aptr)
    (vec : list aptr) : outcome (list aptr) :=
  match fuel with
  | O => OutOfFuel
  | S fuel =>
      let ai := archiveIndex s p in
      if ai <? 0 then Fault
      else
        oa ← at_index s ai;
        ofold
          (λ vec child,
             match lock_archive s child with
             | Some c =>
                 getDependentArchivesInternal fuel s (Some c) (vec ++ [c])
             | None => Ok vec
             end)
          (open_children oa) vec
  end.

(** [ArchiveManager::getDependentArchives]. *)
Definition getDependentArchives (fuel : nat) s (p : option aptr)
    : outcome (list aptr) :=
  getDependentArchivesInternal fuel s p [].

(** [ArchiveManager::allArchives]. *)
Definition allArchives (resource_only : bool) s : list aptr :=
  archive <$>
    List.filter (λ oa, negb resource_only || resource oa) (open_archives_ s).

(** [ArchiveManager::shareArchive]. *)
Definition shareArchive s (p : option aptr) : option aptr :=
  archive <$>
    List.find (λ oa, bool_decide (Some (archive oa) = p)) (open_archives_ s).

(** [ArchiveManager::getBookmark]. *)
Definition getBookmark s (index : nat) : option eptr :=
  if decide (length (bookmarks_ s) ≤ index)%nat then None
  else bookmarks_ s !! index ≫= lock (world s).

(** [ArchiveManager::onAnnouncement]; [announcer] is the [Archive*] the
    [Announcer*] casts to, null when it is no archive.  The position of the
    read of [event_data] is not modelled.  [archiveIndex] answers -1 for the
    null pointer, so [archive->filename()] is reached with an archive. *)
Definition onAnnouncement (announcer : option aptr) (event_name : string) s
    : Manager W :=
  let index := archiveIndex s announcer in
  if 0 <=? index then
    let s :=
      if decide (event_name = "saved") then
        match announcer with
        | Some a =>
            announce "archive_saved" (Some index)
              (addOrUpdateArchiveDB (Archive_filename (world s) a) a s)
        | None => s
        end
      else s in
    if bool_decide (event_name = "modified")
       || bool_decide (event_name = "entry_modified")
    then announce "archive_modified" (Some index) s
    else s
  else s.

End More.

(** * More properties *)

(** ** Positions and archives *)

Section Registry.
Context {W Opt : Type} {C : Collaborators W Opt} {M : MoreCollaborators W}.
Implicit Type s : Manager W.

Lemma archiveIndex_from_archives a l l' p :
  archive <$> l = archive <$> l' →
  archiveIndex_from a l p = archiveIndex_from a l' p.
Proof.
  revert a l'. induction l as [|oa l IH]; intros a [|oa' l']; simpl; try done.
  intros [= Ha Hl]. rewrite Ha.
  destruct (decide (Some (archive oa') = p)); [done|]. by apply IH.
Qed.

Lemma archiveIndex_registered s a :
  a ∈ archive <$> open_archives_ s →
  ∃ i oa, archiveIndex s (Some a) = Z.of_nat i
          ∧ open_archives_ s !! i = Some oa ∧ archive oa = a.
Proof.
  intros Hin. destruct (archiveIndex_spec s (Some a)) as [Habs|i oa Hi [= Ha] _].
  - apply list_elem_of_fmap in Hin as (oa & -> & Hoa).
    exfalso. by apply (Habs oa).
  - by exists i, oa.
Qed.

Lemma archiveIndex_null s : archiveIndex s None = -1.
Proof. by apply archiveIndex_absent. Qed.

Lemma getArchive_at_Some s i a :
  getArchive_at s i = Some a →
  0 ≤ i ∧ ∃ oa, open_archives_ s !! Z.to_nat i = Some oa ∧ archive oa = a.
Proof.
  unfold getArchive_at.
  destruct (Z.ltb_spec i 0); [done|]. simpl.
  destruct (i >=? _); [done|].
  destruct (open_archives_ s !! Z.to_nat i) as [oa|]; [|done].
  intros [= <-]. split; [done|]. by exists oa.
Qed.

Lemma shareArchive_find l p :
  archive <$> List.find (λ oa, bool_decide (Some (archive oa) = p)) l =
  if decide (archiveIndex_from 0 l p = -1) then None
  else archive <$> l !! Z.to_nat (archiveIndex_from 0 l p).
Proof.
  induction l as [|oa l IH]; simpl; [done|].
  destruct (decide (Some (archive oa) = p)) as [Hp|Hp].
  - by rewrite bool_decide_eq_true_2.
  - rewrite bool_decide_eq_false_2 by done.
    rewrite IH, archiveIndex_from_shift.
    destruct (decide (archiveIndex_from 0 l p = -1)) as [Hn|Hn].
    + by rewrite decide_True.
    + assert (0 ≤ archiveIndex_from 0 l p).
      { destruct (archiveIndex_from_0 l p); [done|lia]. }
      rewrite decide_False by lia.
      replace (Z.to_nat (archiveIndex_from 0 l p + 1))
        with (S (Z.to_nat (archiveIndex_from 0 l p))) by lia.
      done.
Qed.

(** X1.  Position and archive answer each other.  For an archive that has
    a record, [archiveIndex] is a position of the list, [getArchive] at that
    position gives the archive back, and so does [shareArchive]; for an
    archive that has none, and for the null pointer, [archiveIndex] is -1 and
    the two others answer null.  [getArchive] answers null exactly outside
    the list.  When no archive has two records, [archiveIndex] of what
    [getArchive] finds at a position is that position. *)
Theorem X1_position_round_trip s :
  (∀ a, a ∈ archive <$> open_archives_ s →
        0 ≤ archiveIndex s (Some a) < Z.of_nat (length (open_archives_ s))
        ∧ getArchive_at s (archiveIndex s (Some a)) = Some a
        ∧ shareArchive s (Some a) = Some a)
  ∧ (∀ a, a ∉ archive <$> open_archives_ s →
          archiveIndex s (Some a) = -1
          ∧ getArchive_at s (archiveIndex s (Some a)) = None
          ∧ shareArchive s (Some a) = None)
  ∧ (archiveIndex s None = -1 ∧ shareArchive s None = None)
  ∧ (∀ p, shareArchive s p = getArchive_at s (archiveIndex s p))
  ∧ (∀ i, getArchive_at s i = None ↔
          i < 0 ∨ Z.of_nat (length (open_archives_ s)) ≤ i)
  ∧ (NoDup (archive <$> open_archives_ s) →
     ∀ i a, getArchive_at s i = Some a → archiveIndex s (Some a) = i).
Proof.
  assert (Hshare : ∀ p, shareArchive s p = getArchive_at s (archiveIndex s p)).
  { intros p. unfold shareArchive, archiveIndex, getArchive_at.
    rewrite shareArchive_find.
    destruct (archiveIndex_from_0 (open_archives_ s) p) as [Habs|i oa Hi Hp _].
    - by rewrite decide_True.
    - rewrite decide_False by lia.
      apply lookup_lt_Some in Hi.
      destruct (Z.ltb_spec (Z.of_nat i) 0); [lia|].
      destruct (Z.geb_spec (Z.of_nat i)
                  (Z.of_nat (length (open_archives_ s)))); [lia|].
      done. }
  assert (Hreg : ∀ a, a ∈ archive <$> open_archives_ s →
            0 ≤ archiveIndex s (Some a) < Z.of_nat (length (open_archives_ s))
            ∧ getArchive_at s (archiveIndex s (Some a)) = Some a).
  { intros a Hin.
    destruct (archiveIndex_registered s a Hin) as (i & oa & Hi & Hoa & Ha).
    rewrite Hi. pose proof (lookup_lt_Some _ _ _ Hoa) as Hlt.
    split; [lia|]. unfold getArchive_at.
    destruct (Z.ltb_spec (Z.of_nat i) 0); [lia|].
    destruct (Z.geb_spec (Z.of_nat i)
                (Z.of_nat (length (open_archives_ s)))); [lia|].
    simpl. by rewrite Nat2Z.id, Hoa, <- Ha. }
  split; [|split; [|split; [|split; [|split]]]].
  - intros a Hin. destruct (Hreg a Hin) as [Hr Hg].
    split_and!; [lia|lia|done|by rewrite Hshare].
  - intros a Hout. rewrite Hshare, archiveIndex_unregistered by done.
    by split_and!.
  - by rewrite Hshare, archiveIndex_null.
  - exact Hshare.
  - intros i. unfold getArchive_at.
    destruct (Z.ltb_spec i 0); simpl; [split; [by left|done]|].
    destruct (Z.geb_spec i (Z.of_nat (length (open_archives_ s)))).
    + split; [by right|done].
    + split; [|lia].
      destruct (open_archives_ s !! Z.to_nat i) eqn:Hi; [done|].
      apply lookup_ge_None in Hi. lia.
  - intros Hnd i a Hget.
    apply getArchive_at_Some in Hget as (Hi & oa & Hoa & Ha).
    transitivity (Z.of_nat (Z.to_nat i)); [|lia].
    apply (archiveIndex_found s (Some a) (Z.to_nat i) oa);
      [done|by rewrite Ha|].
    intros j oa' Hj Hoa' [= Heq].
    assert (Hj' : (archive <$> open_archives_ s) !! j = Some a)
      by by rewrite list_lookup_fmap, Hoa', <- Heq.
    assert (Hi' : (archive <$> open_archives_ s) !! Z.to_nat i = Some a)
      by by rewrite list_lookup_fmap, Hoa, <- Ha.
    pose proof (NoDup_lookup _ _ _ _ Hnd Hj' Hi'). lia.
Qed.

Lemma allArchives_all s : allArchives false s = archive <$> open_archives_ s.
Proof.
  unfold allArchives. f_equal.
  induction (open_archives_ s) as [|oa l IH]; [done|].
  cbn [List.filter negb orb]. by f_equal.
Qed.

Lemma allArchives_consulted s :
  allArchives true s = consulted (open_archives_ s) None.
Proof.
  unfold allArchives.
  change (archive <$> List.filter resource (open_archives_ s)
          = consulted (open_archives_ s) None).
  induction (open_archives_ s) as [|oa l IH]; [done|].
  rewrite consulted_cons. cbn [List.filter].
  destruct (resource oa); cbn [negb]; [|done].
  rewrite decide_False by done. rewrite fmap_cons. by f_equal.
Qed.

Lemma archiveIsResource_record s oa :
  NoDup (archive <$> open_archives_ s) →
  oa ∈ open_archives_ s →
  archiveIsResource s (Some (archive oa)) = resource oa.
Proof.
  intros Hnd Hin.
  apply list_elem_of_split in Hin as (l1 & l2 & Hl).
  unfold archiveIsResource.
  rewrite (archiveIndex_middle s l1 oa l2 Hl Hnd).
  destruct (Z.ltb_spec (Z.of_nat (length l1)) 0); [lia|].
  by rewrite Nat2Z.id, Hl, list_lookup_middle.
Qed.

(** X2.  [allArchives(false)] is the archives of the open list in its
    order; [allArchives(true)] is the sublist of those flagged as a
    resource, which are the archives a resource lookup with nothing to
    ignore consults, in that order.  When no archive has two records, an
    archive is in [allArchives(true)] exactly when [archiveIsResource] says
    so. *)
Theorem X2_allArchives_resources s :
  allArchives false s = archive <$> open_archives_ s
  ∧ allArchives true s `sublist_of` allArchives false s
  ∧ (∀ name,
       getResourceEntry s name None =
       match head (omap (λ a, Archive_entry (world s) a name)
                     (allArchives true s)) with
       | Some e => Some e
       | None => base_resource_archive_ s
                   ≫= λ b, Archive_entry (world s) b name
       end)
  ∧ (∀ options,
       findAllResourceEntries s options None =
       from_option (λ b, Archive_findAll (world s) b options) []
         (base_resource_archive_ s)
       ++ (allArchives true s ≫= λ a, Archive_findAll (world s) a options))
  ∧ (NoDup (archive <$> open_archives_ s) →
     ∀ a, a ∈ allArchives true s ↔ archiveIsResource s (Some a) = true).
Proof.
  split; [apply allArchives_all|]. split; [|split; [|split]].
  - rewrite allArchives_all, allArchives_consulted. unfold consulted.
    apply fmap_sublist, sublist_filter.
  - intros name. unfold getResourceEntry.
    rewrite getResourceEntry_in_consulted, allArchives_consulted.
    destruct (head _); [done|]. by destruct (base_resource_archive_ s).
  - intros options. unfold findAllResourceEntries.
    rewrite findAllResourceEntries_in_consulted, allArchives_consulted.
    by destruct (base_resource_archive_ s).
  - intros Hnd a. rewrite allArchives_consulted, elem_of_consulted. split.
    + intros (oa & Hin & <- & Hr & _).
      by rewrite archiveIsResource_record.
    + intros Hres.
      destruct (decide (a ∈ archive <$> open_archives_ s)) as [Hin|Hout].
      * apply list_elem_of_fmap in Hin as (oa & -> & Hin).
        rewrite archiveIsResource_record in Hres by done.
        by exists oa.
      * unfold archiveIsResource in Hres.
        by rewrite archiveIndex_unregistered in Hres.
Qed.

(** X3.  The flag that [setArchiveResource] sets is the flag that
    [archiveIsResource] reads: for an archive that has a record the answer
    is the value just set, for one that has none it is false, and the answer
    for every other archive is what it was.  The call neither adds, removes
    nor moves a record. *)
Theorem X3_set_then_read_flag s (a : aptr) (res : bool) :
  let s' := setArchiveResource (Some a) res s in
  (a ∈ archive <$> open_archives_ s →
   archiveIsResource s' (Some a) = res)
  ∧ (a ∉ archive <$> open_archives_ s →
     archiveIsResource s' (Some a) = false)
  ∧ (∀ b, b ≠ a →
          archiveIsResource s' (Some b) = archiveIsResource s (Some b))
  ∧ archive <$> open_archives_ s' = archive <$> open_archives_ s
  ∧ open_children <$> open_archives_ s' = open_children <$> open_archives_ s.
Proof.
  intros s'. subst s'.
  destruct (decide (a ∈ archive <$> open_archives_ s)) as [Hin|Hout].
  - destruct (archiveIndex_registered s a Hin) as (i & oa & Hi & Hoa & Ha).
    rewrite (setArchiveResource_found s (Some a) res i oa Hi Hoa).
    set (s' := mkManager _ _ _ _ _ _ _ _ _ _ _).
    assert (Hsame : archive <$> open_archives_ s' = archive <$> open_archives_ s).
    { subst s'. simpl. rewrite list_fmap_insert. simpl.
      apply list_insert_id. by rewrite list_lookup_fmap, Hoa. }
    assert (Hidx : ∀ p, archiveIndex s' p = archiveIndex s p).
    { intros p. by apply archiveIndex_from_archives. }
    split_and!; try done.
    + intros _. unfold archiveIsResource. rewrite Hidx, Hi.
      destruct (Z.ltb_spec (Z.of_nat i) 0); [lia|].
      rewrite Nat2Z.id. subst s'. simpl.
      rewrite list_lookup_insert_eq; [done|by eapply lookup_lt_Some].
    + intros b Hb. unfold archiveIsResource. rewrite Hidx.
      destruct (Z.ltb_spec (archiveIndex s (Some b)) 0); [done|].
      destruct (archiveIndex_spec s (Some b)) as [|j ob Hj [= Hob] _]; [lia|].
      rewrite Nat2Z.id. subst s'. simpl.
      rewrite list_lookup_insert_ne; [done|].
      intros ->. congruence.
    + subst s'. simpl. rewrite list_fmap_insert. simpl.
      apply list_insert_id. by rewrite list_lookup_fmap, Hoa.
  - rewrite setArchiveResource_absent
      by by apply archiveIndex_unregistered.
    split_and!; try done.
    intros _. unfold archiveIsResource.
    by rewrite archiveIndex_unregistered.
Qed.

End Registry.

(** ** Bookmarks: adding, finding and deleting *)

Lemma pruned_sublist {A} (P : A → Prop) (l l' : list A) :
  pruned P l l' → l' `sublist_of` l.
Proof.
  induction 1; [constructor|by apply sublist_cons|by apply sublist_skip].
Qed.

Lemma pruned_same {A} (P : A → Prop) (l l' : list A) :
  pruned P l l' → length l' = length l → l' = l.
Proof.
  induction 1 as [|x l l' Hx Hp IH|x l l' Hx Hp IH]; simpl; intros Hlen.
  - done.
  - apply pruned_length in Hp. lia.
  - f_equal. apply IH. lia.
Qed.

Section Bookmarks.
Context {W Opt : Type} {C : Collaborators W Opt} {M : MoreCollaborators W}.
Implicit Type s : Manager W.

(** The bookmarks that [deleteBookmarksInArchive] erases: those that no
    longer resolve and those of the entries whose archive is [a]. *)
Definition gone (w : W) (a : option aptr) (b : option eptr) : Prop :=
  lock w b = None
  ∨ ∃ e, lock w b = Some e ∧ ArchiveEntry_parent w e = a.

Lemma deleteBookmarksInArchive_in_gone w a l :
  pruned (gone w a) l (deleteBookmarksInArchive_in w a l).1
  ∧ ((deleteBookmarksInArchive_in w a l).2 = false →
     (deleteBookmarksInArchive_in w a l).1 = l)
  ∧ ((deleteBookmarksInArchive_in w a l).2 = true →
     (length (deleteBookmarksInArchive_in w a l).1 < length l)%nat).
Proof.
  induction l as [|b l IH]; simpl; [split_and!; [constructor|done|done]|].
  destruct (deleteBookmarksInArchive_in w a l) as [l' r]. simpl in *.
  destruct IH as (Hpr & Hsame & Hless).
  pose proof (pruned_length _ _ _ Hpr) as Hlen.
  destruct (lock w b) as [e|] eqn:Hl.
  - destruct (decide (ArchiveEntry_parent w e = a)) as [Hp|Hp]; simpl.
    + split_and!; [|done|lia].
      apply pruned_drop; [|done]. right. by exists e.
    + split_and!.
      * apply pruned_keep; [|done]. intros [?|(e' & Hl' & Hp')]; congruence.
      * intros Hr. by rewrite Hsame.
      * intros Hr. specialize (Hless Hr). lia.
  - simpl. split_and!; [|done|lia]. apply pruned_drop; [by left|done].
Qed.

Lemma deleteBookmarksInArchive_in_none w a l :
  (∀ b, b ∈ l → ¬ gone w a b) →
  deleteBookmarksInArchive_in w a l = (l, false).
Proof.
  induction l as [|b l IH]; intros Hl; simpl; [done|].
  rewrite IH by (intros b' Hb'; apply Hl; by right).
  assert (Hb : ¬ gone w a b) by (apply Hl; by left).
  destruct (lock w b) as [e|] eqn:Hlock.
  - destruct (decide (ArchiveEntry_parent w e = a)) as [Hp|Hp]; [|done].
    exfalso. apply Hb. right. by exists e.
  - exfalso. apply Hb. by left.
Qed.

Lemma deleteBookmark_in_first w entry l1 b l2 :
  lock w b = entry →
  (∀ b', b' ∈ l1 → lock w b' ≠ entry) →
  deleteBookmark_in w entry (l1 ++ b :: l2) = Some (l1 ++ l2).
Proof.
  intros Hb. induction l1 as [|x l1 IH]; intros Hl1; simpl.
  - by rewrite decide_True.
  - rewrite decide_False by (apply Hl1; by left).
    rewrite IH by (intros b' Hb'; apply Hl1; by right). done.
Qed.

Lemma deleteBookmark_sublist entry s :
  bookmarks_ (deleteBookmark entry s).2 `sublist_of` bookmarks_ s.
Proof.
  unfold deleteBookmark.
  destruct (deleteBookmark_in _ _ _) as [l|] eqn:Hdel; simpl; [|done].
  apply deleteBookmark_in_Some in Hdel as (l1 & b & l2 & -> & -> & _).
  apply sublist_app; [done|]. by apply sublist_cons.
Qed.

Lemma deleteBookmarksInDir_in_sublist fuel w a node l l' r :
  deleteBookmarksInDir_in fuel w a node l = Ok (l', r) →
  l' `sublist_of` l.
Proof.
  revert l' r. induction l as [|b l IH]; intros l' r; simpl.
  - by intros [= <- _].
  - match goal with
    | |- context [obind ?m _] => destruct m as [remove| |]
    | |- context [mbind _ ?m] => destruct m as [remove| |]
    end; [|done|done].
    simpl.
    destruct (deleteBookmarksInDir_in fuel w a node l) as [[l0 r0]| |];
      [|done|done].
    simpl. specialize (IH l0 r0 eq_refl).
    destruct remove; intros [= <- _];
      [by apply sublist_cons|by apply sublist_skip].
Qed.

(** X4.  The bookmark list stays free of duplicates.  From a list in which
    no bookmark occurs twice, [addBookmark] of a live entry or of the null
    pointer, [deleteBookmark] by entry and by position,
    [deleteBookmarksInArchive] and [deleteBookmarksInDir] all lead to a list
    in which no bookmark occurs twice. *)
Theorem X4_bookmarks_stay_distinct s :
  NoDup (bookmarks_ s) →
  (∀ e, ArchiveEntry_lock (world s) e = true →
        NoDup (bookmarks_ (addBookmark (Some e) s)))
  ∧ NoDup (bookmarks_ (addBookmark None s))
  ∧ (∀ entry, NoDup (bookmarks_ (deleteBookmark entry s).2))
  ∧ (∀ index, NoDup (bookmarks_ (deleteBookmark_at index s).2))
  ∧ (∀ a, NoDup (bookmarks_ (deleteBookmarksInArchive a s).2))
  ∧ (∀ fuel node r s',
       deleteBookmarksInDir fuel node s = Ok (r, s') →
       NoDup (bookmarks_ s')).
Proof.
  intros Hnd. split_and!.
  - intros e He. destruct (decide (Some e ∈ bookmarks_ s)) as [Hin|Hout].
    + by rewrite addBookmark_present.
    + rewrite addBookmark_fresh by done. simpl.
      apply NoDup_app. split_and!; [done| |apply NoDup_singleton].
      intros b Hb ->%list_elem_of_singleton. done.
  - unfold addBookmark.
    destruct (existsb _ _) eqn:Hex; [done|]. simpl.
    apply NoDup_app. split_and!; [done| |apply NoDup_singleton].
    intros b Hb ->%list_elem_of_singleton.
    apply not_true_iff_false in Hex. apply Hex.
    apply existsb_exists. exists None.
    split; [by apply list_elem_of_In|done].
  - intros entry. eapply sublist_NoDup; [done|apply deleteBookmark_sublist].
  - intros index. unfold deleteBookmark_at. case_decide; [done|]. simpl.
    eapply sublist_NoDup; [done|apply sublist_delete].
  - intros a.
    destruct (deleteBookmarksInArchive_fields a s) as (_ & _ & ->).
    eapply sublist_NoDup; [done|].
    eapply pruned_sublist, deleteBookmarksInArchive_in_gone.
  - intros fuel node r s'. unfold deleteBookmarksInDir.
    pose proof (deleteBookmark_sublist
                  (ArchiveDir_dirEntry (world s) node) s) as Hsub.
    destruct (deleteBookmark _ s) as [removed t]. simpl in Hsub.
    destruct (deleteBookmarksInDir_in _ _ _ _ _) as [[l r']| |] eqn:Hloop;
      [|done|done].
    apply deleteBookmarksInDir_in_sublist in Hloop. simpl.
    assert (Hl : NoDup l).
    { eapply sublist_NoDup; [|exact Hloop].
      eapply sublist_NoDup; [done|exact Hsub]. }
    destruct (removed || r'); by intros [= _ <-].
Qed.

(** X5.  [deleteBookmark] by entry erases the first bookmark that
    resolves to the entry, and no other: when none does, it answers false
    and the state stays; otherwise it answers true, the list is the old one
    without that bookmark, and [bookmarks_changed] is announced.  In a list
    without duplicates a live entry is then no longer bookmarked.  Deleting the
    bookmark of a live entry that [addBookmark] has just added gives the old
    list back. *)
Theorem X5_deleteBookmark_first_match s (entry : option eptr) :
  ((∀ b, b ∈ bookmarks_ s → lock (world s) b ≠ entry) →
   deleteBookmark entry s = (false, s))
  ∧ (∀ l1 b l2,
       bookmarks_ s = l1 ++ b :: l2 →
       lock (world s) b = entry →
       (∀ b', b' ∈ l1 → lock (world s) b' ≠ entry) →
       deleteBookmark entry s =
       (true, announce "bookmarks_changed" None (set_bookmarks (l1 ++ l2) s)))
  ∧ (∀ e, entry = Some e →
          ArchiveEntry_lock (world s) e = true →
          NoDup (bookmarks_ s) →
          Some e ∉ bookmarks_ (deleteBookmark entry s).2)
  ∧ (∀ e, entry = Some e →
          ArchiveEntry_lock (world s) e = true →
          Some e ∉ bookmarks_ s →
          (deleteBookmark entry (addBookmark entry s)).1 = true
          ∧ bookmarks_ (deleteBookmark entry (addBookmark entry s)).2
            = bookmarks_ s).
Proof.
  assert (Hnone : (∀ b, b ∈ bookmarks_ s → lock (world s) b ≠ entry) →
                  deleteBookmark entry s = (false, s)).
  { intros Hno. unfold deleteBookmark.
    destruct (deleteBookmark_in _ _ _) as [l|] eqn:Hdel; [|done].
    apply deleteBookmark_in_Some in Hdel as (l1 & b & l2 & Hl & _ & Hb).
    exfalso. apply (Hno b); [|done]. rewrite Hl.
    apply elem_of_app. right. by left. }
  assert (Hfirst : ∀ t l1 b l2,
            bookmarks_ t = l1 ++ b :: l2 →
            lock (world t) b = entry →
            (∀ b', b' ∈ l1 → lock (world t) b' ≠ entry) →
            deleteBookmark entry t =
            (true,
             announce "bookmarks_changed" None (set_bookmarks (l1 ++ l2) t))).
  { intros t l1 b l2 Hl Hb Hl1. unfold deleteBookmark.
    by rewrite Hl, (deleteBookmark_in_first _ _ _ _ _ Hb Hl1). }
  split; [exact Hnone|]. split; [apply Hfirst|]. split.
  - intros e -> He Hnd. unfold deleteBookmark.
    destruct (deleteBookmark_in _ _ _) as [l|] eqn:Hdel; simpl.
    + apply deleteBookmark_in_Some in Hdel as (l1 & b & l2 & Hl & -> & Hb).
      apply lock_Some in Hb as ->. rewrite Hl in Hnd.
      apply NoDup_app in Hnd as (_ & Hdis & Hnd2).
      apply NoDup_cons in Hnd2 as [Hnot2 _].
      intros [Hin|Hin]%elem_of_app; [|done].
      apply (Hdis _ Hin). by left.
    + intros Hin.
      apply (deleteBookmark_in_None _ _ _ Hdel _ Hin).
      by apply lock_alive.
  - intros e -> He Hout. rewrite addBookmark_fresh by done.
    rewrite (Hfirst _ (bookmarks_ s) (Some e) []).
    + simpl. by rewrite app_nil_r.
    + done.
    + simpl. by rewrite He.
    + simpl. intros b' Hb' Hl. apply lock_Some in Hl as ->. done.
Qed.

Lemma getBookmark_lookup s index :
  getBookmark s index = bookmarks_ s !! index ≫= lock (world s).
Proof.
  unfold getBookmark. case_decide as Hlen; [|done].
  by rewrite (lookup_ge_None_2 _ _ Hlen).
Qed.

(** X6.  Bookmarks by position.  At a position outside the list
    [getBookmark] answers null and [deleteBookmark] answers false and
    changes nothing.  Inside the list [deleteBookmark] answers true,
    announces [bookmarks_changed], and leaves a list one shorter in which
    the bookmarks before the position are where they were and the later
    ones have moved down by one.  [getBookmark] answers an entry exactly
    when that entry is bookmarked at the position and is still alive, and
    the bookmark of a live entry that [addBookmark] has just added is found
    at the last position. *)
Theorem X6_bookmark_positions s (index : nat) :
  ((length (bookmarks_ s) ≤ index)%nat →
   getBookmark s index = None ∧ deleteBookmark_at index s = (false, s))
  ∧ ((index < length (bookmarks_ s))%nat →
     ∃ s', deleteBookmark_at index s = (true, s')
           ∧ S (length (bookmarks_ s')) = length (bookmarks_ s)
           ∧ (∀ j, (j < index)%nat → getBookmark s' j = getBookmark s j)
           ∧ (∀ j, (index ≤ j)%nat → getBookmark s' j = getBookmark s (S j))
           ∧ announced s' =
               announced s ++ [mkAnnouncement "bookmarks_changed" None])
  ∧ (∀ e, getBookmark s index = Some e ↔
          bookmarks_ s !! index = Some (Some e)
          ∧ ArchiveEntry_lock (world s) e = true)
  ∧ (∀ e, ArchiveEntry_lock (world s) e = true →
          Some e ∉ bookmarks_ s →
          getBookmark (addBookmark (Some e) s) (length (bookmarks_ s))
          = Some e).
Proof.
  split_and!.
  - intros Hlen. unfold getBookmark, deleteBookmark_at.
    by rewrite !decide_True.
  - intros Hlt. unfold deleteBookmark_at. rewrite decide_False by lia.
    eexists. split; [done|]. simpl. split_and!; try done.
    + rewrite length_delete; [lia|]. by apply lookup_lt_is_Some.
    + intros j Hj. rewrite !getBookmark_lookup. simpl.
      by rewrite list_lookup_delete_lt.
    + intros j Hj. rewrite !getBookmark_lookup. simpl.
      by rewrite list_lookup_delete_ge.
  - intros e. rewrite getBookmark_lookup. split.
    + destruct (bookmarks_ s !! index) as [b|]; simpl; [|done].
      intros Hl. pose proof (lock_Some _ _ _ Hl) as ->. split; [done|].
      simpl in Hl. by destruct (ArchiveEntry_lock (world s) e).
    + intros [-> He]. simpl. by rewrite He.
  - intros e He Hout. rewrite addBookmark_fresh by done.
    rewrite getBookmark_lookup. simpl.
    rewrite list_lookup_middle by done. simpl. by rewrite He.
Qed.

(** X7.  [deleteBookmarksInArchive] erases exactly the bookmarks that no
    longer resolve and those of the entries whose archive is the one given,
    and keeps the others in their order.  It answers true, and announces
    [bookmarks_changed] once, exactly when the list has changed; nothing
    else changes.  A second call finds nothing to erase: it answers false
    and leaves the state as it is. *)
Theorem X7_deleteBookmarksInArchive_exact s (a : option aptr) :
  let r := (deleteBookmarksInArchive a s).1 in
  let s' := (deleteBookmarksInArchive a s).2 in
  pruned (gone (world s) a) (bookmarks_ s) (bookmarks_ s')
  ∧ (∀ b, b ∈ bookmarks_ s' ↔ b ∈ bookmarks_ s ∧ ¬ gone (world s) a b)
  ∧ (r = true ↔ bookmarks_ s' ≠ bookmarks_ s)
  ∧ announced s' =
      announced s
      ++ (if r then [mkAnnouncement "bookmarks_changed" None] else [])
  ∧ world s' = world s
  ∧ open_archives_ s' = open_archives_ s
  ∧ resources s' = resources s
  ∧ deleteBookmarksInArchive a s' = (false, s').
Proof.
  intros r s'. subst r s'. unfold deleteBookmarksInArchive.
  destruct (deleteBookmarksInArchive_in_gone (world s) a (bookmarks_ s))
    as (Hpr & Hsame & Hless).
  destruct (deleteBookmarksInArchive_in (world s) a (bookmarks_ s))
    as [l r] eqn:Hrun.
  simpl in Hpr, Hsame, Hless.
  assert (Hkeep : ∀ b, b ∈ l → ¬ gone (world s) a b).
  { intros b Hb. by apply (pruned_elem_of _ _ _ _ Hpr) in Hb as [_ ?]. }
  destruct r; simpl.
  - split_and!; try done.
    + intros b. by apply pruned_elem_of.
    + split; [intros _|done]. intros Heq. specialize (Hless eq_refl).
      rewrite Heq in Hless. lia.
    + by rewrite deleteBookmarksInArchive_in_none.
  - split_and!; try done.
    + intros b. by apply pruned_elem_of.
    + split; [done|]. intros Hne. by specialize (Hsame eq_refl).
    + by rewrite app_nil_r.
    + by rewrite deleteBookmarksInArchive_in_none.
Qed.

End Bookmarks.

(** ** Opening: what is registered, and what is not *)

Section Opening.
Context {W Opt : Type} {C : Collaborators W Opt} {M : MoreCollaborators W}.
Implicit Type s : Manager W.

Lemma archiveIndex_last s l a x :
  open_archives_ s = l ++ [x] → archive x = a → a ∉ archive <$> l →
  archiveIndex s (Some a) = Z.of_nat (length l).
Proof.
  intros Hl Ha Hout. apply (archiveIndex_found s _ (length l) x).
  - rewrite Hl. by apply list_lookup_middle.
  - by rewrite Ha.
  - intros j oa' Hj Hoa' [= Heq]. apply Hout.
    rewrite Hl, lookup_app_l in Hoa' by done.
    apply list_elem_of_fmap. exists oa'.
    split; [congruence|by eapply list_elem_of_lookup_2].
Qed.

Lemma announce_opened_position silent a s i :
  archiveIndex s (Some a) = Z.of_nat i →
  Z.of_nat i < 2 ^ 32 →
  announce_opened silent a s =
  if silent then s else announce "archive_opened" (Some (Z.of_nat i)) s.
Proof.
  intros Hi Hlt. unfold announce_opened. destruct silent; [done|].
  rewrite Hi. unfold to_uint32. rewrite Z.mod_small; [done|lia].
Qed.

(** X8.  An entry that is open already is not opened again.  When the
    record at position [i] is the first whose archive was opened from entry
    [e], [openArchive(e, manage, silent)] answers that archive and leaves
    the state as it is, announcing [archive_opened] with the position [i]
    unless [silent]; no fuel is used.  For the null entry the answer is null
    and nothing happens. *)
Theorem X8_reopen_entry (fuel : nat) s (e : eptr) (manage silent : bool)
    (i : nat) (oa : OpenArchive) :
  Z.of_nat (length (open_archives_ s)) < 2 ^ 31 →
  open_archives_ s !! i = Some oa →
  Archive_parentEntry (world s) (archive oa) = Some e →
  (∀ j oa', (j < i)%nat → open_archives_ s !! j = Some oa' →
            Archive_parentEntry (world s) (archive oa') ≠ Some e) →
  openArchive_entry fuel (Some e) manage silent s =
    Ok (Some (archive oa),
        if silent then s
        else announce "archive_opened" (Some (Z.of_nat i)) s)
  ∧ openArchive_entry fuel None manage silent s = Ok (None, s).
Proof.
  intros Hlen Hi He Hfirst. split; [|done].
  unfold openArchive_entry, openArchive_entry_with.
  assert (Hfind :
    List.find (λ oa, bool_decide
                 (Archive_parentEntry (world s) (archive oa) = Some e))
      (open_archives_ s) = Some oa).
  { clear Hlen. revert i Hi Hfirst.
    induction (open_archives_ s) as [|x l IH]; intros i Hi Hfirst; [done|].
    destruct i as [|i]; simpl in *.
    - injection Hi as ->. by rewrite bool_decide_eq_true_2.
    - rewrite bool_decide_eq_false_2
        by (apply (Hfirst 0%nat x); [lia|done]).
      apply (IH i Hi). intros j oa' Hj Hoa'.
      apply (Hfirst (S j) oa'); [lia|done]. }
  rewrite Hfind. f_equal. f_equal.
  apply announce_opened_position.
  - apply (archiveIndex_found s _ i oa); [done|done|].
    intros j oa' Hj Hoa' [= Heq]. apply (Hfirst j oa' Hj Hoa').
    by rewrite Heq.
  - apply lookup_lt_Some in Hi. lia.
Qed.

(** What an open leaves alone when it is not to manage the archive. *)
Definition registry_kept s s' : Prop :=
  open_archives_ s' = open_archives_ s
  ∧ resources s' = resources s
  ∧ database s' = database s
  ∧ bookmarks_ s' = bookmarks_ s
  ∧ listening s' = listening s
  ∧ base_resource_archive_ s' = base_resource_archive_ s.

Lemma registry_kept_announce_opened silent a s t :
  registry_kept s t → registry_kept s (announce_opened silent a t).
Proof. unfold announce_opened. by destruct silent. Qed.

(** X9.  An open that is not to manage the archive returns with any fuel
    and registers nothing: the open list, the Resource Index, the database,
    the bookmarks and the base resource slot are what they were, whether the
    open succeeds or not, for a file, a directory and an entry alike.  An
    announcement is made only when the archive was open already. *)
Theorem X9_unmanaged_open_registers_nothing (fuel : nat) s (silent : bool) :
  (∀ path,
     ∃ r s', openArchive fuel path false silent s = Ok (r, s')
             ∧ registry_kept s s'
             ∧ (getArchive s path = None → announced s' = announced s))
  ∧ (∀ entry,
       ∃ r s', openArchive_entry fuel entry false silent s = Ok (r, s')
               ∧ registry_kept s s'
               ∧ ((∀ e oa, entry = Some e → oa ∈ open_archives_ s →
                           Archive_parentEntry (world s) (archive oa)
                           ≠ Some e) →
                  announced s' = announced s)).
Proof.
  assert (Hrefl : registry_kept s s) by done.
  split.
  - intros path. unfold openArchive, openDirArchive.
    destruct (FileUtil_dirExists (world s) path).
    + destruct (getArchive s path) as [a|].
      { eexists _, _. split; [done|].
        split; [by apply registry_kept_announce_opened|done]. }
      destruct (make_shared Dir (world s)) as [a w].
      destruct (Archive_open_file a path w) as [[] w'];
        by eexists _, _.
    + destruct (getArchive s path) as [a|].
      { eexists _, _. split; [done|].
        split; [by apply registry_kept_announce_opened|done]. }
      destruct (detect_file (world s) path) as [f|]; [|by eexists _, _].
      destruct (make_shared f (world s)) as [a w].
      destruct (Archive_open_file a path w) as [[] w'];
        by eexists _, _.
  - intros entry. unfold openArchive_entry, openArchive_entry_with.
    destruct entry as [e|]; [|by eexists _, _].
    destruct (List.find _ _) as [oa|] eqn:Hfind.
    { eexists _, _. split; [done|].
      split; [by apply registry_kept_announce_opened|].
      intros Hnot. exfalso.
      apply find_some in Hfind as [Hin Hb].
      apply bool_decide_eq_true in Hb.
      apply (Hnot e oa eq_refl); [by apply list_elem_of_In|done]. }
    destruct (detect_entry (world s) e) as [f|]; [|by eexists _, _].
    destruct (make_shared f (world s)) as [a w].
    destruct (Archive_open_entry a e w) as [[] w'];
      by eexists _, _.
Qed.

Lemma addArchive_flat n a s :
  ¬ expands s a → addArchive (S n) (Some a) s = Ok (true, pushed a s).
Proof. intros Hne. rewrite addArchive_S. by rewrite decide_False. Qed.

Lemma unlink_from_parent_unlinked a t :
  (∀ x, x ∈ open_archives_ t → a ∉ open_children x) →
  unlink_from_parent a t = t.
Proof.
  intros Hno. unfold unlink_from_parent.
  destruct (Archive_parentEntry (world t) a) as [parent|]; [|done].
  destruct (ArchiveEntry_parent (world t) parent) as [gp|]; [|done].
  destruct (0 <=? archiveIndex t (Some gp)); [|done].
  assert (Hl : alter (λ oa, mkOpenArchive (archive oa) (resource oa)
                              (erase_child a (open_children oa)))
                 (Z.to_nat (archiveIndex t (Some gp))) (open_archives_ t)
               = open_archives_ t).
  { set (i := Z.to_nat (archiveIndex t (Some gp))).
    apply list_eq. intros j.
    destruct (decide (i = j)) as [<-|Hne].
    - rewrite list_lookup_alter_eq.
      destruct (open_archives_ t !! i) as [x|] eqn:Hx; simpl; [|done].
      rewrite erase_child_absent.
      + by destruct x.
      + apply Hno. by eapply list_elem_of_lookup_2.
    - by rewrite list_lookup_alter_ne. }
  rewrite Hl. by destruct t.
Qed.

(** The state after [closeArchive] on a record without child links. *)
Lemma closeArchive_leaf n s l1 oa l2 :
  open_archives_ s = l1 ++ oa :: l2 →
  open_children oa = [] →
  closeArchive (S n) (Z.of_nat (length l1)) s =
  after_children (Z.of_nat (length l1)) (before_children l1 oa l2 s).
Proof.
  intros Hl Hc. by rewrite (closeArchive_step n s l1 oa l2 Hl), Hc.
Qed.

(** The state in which a managed open of [path] as archive [a] ends, the
    parse having left the world [w] and [a] not being one to expand. *)
Definition opened (path : string) (a : aptr) (w : W) (silent : bool) s
    : Manager W :=
  announce_opened silent a
    (addOrUpdateArchiveDB path a (pushed a (set_world w s))).

Lemma openArchive_fresh n s path f silent :
  FileUtil_dirExists (world s) path = false →
  getArchive s path = None →
  detect_file (world s) path = Some f →
  let a := (make_shared f (world s)).1 in
  let parse := Archive_open_file a path (make_shared f (world s)).2 in
  parse.1 = true →
  ¬ expands (set_world parse.2 s) a →
  openArchive (S n) path true silent s =
  Ok (Some a, opened path a parse.2 silent s).
Proof.
  intros Hdir Hget Hdet a parse Hok Hflat. subst a parse.
  unfold openArchive. rewrite Hdir, Hget, Hdet.
  destruct (make_shared f (world s)) as [a w1]. cbn [fst snd] in *.
  destruct (Archive_open_file a path w1) as [ok w2]. cbn [fst snd] in *.
  subst ok. cbv beta iota zeta.
  by rewrite addArchive_flat.
Qed.

Lemma opened_fields path a w silent s :
  a ∉ archive <$> open_archives_ s →
  Z.of_nat (length (open_archives_ s)) < 2 ^ 31 →
  let s' := opened path a w silent s in
  open_archives_ s' = open_archives_ s ++ [mkOpenArchive a true []]
  ∧ world s' = w
  ∧ bookmarks_ s' = bookmarks_ s
  ∧ resources s' = res_addArchive a :: resources s
  ∧ listening s' = listening s ++ [a]
  ∧ announced s' =
      announced s
      ++ mkAnnouncement "archive_added" None
         :: (if silent then []
             else [mkAnnouncement "archive_opened"
                     (Some (Z.of_nat (length (open_archives_ s))))])
  ∧ database s' = database (addOrUpdateArchiveDB path a (set_world w s)).
Proof.
  intros Hout Hlen s'. subst s'. unfold opened.
  set (t := addOrUpdateArchiveDB path a (pushed a (set_world w s))).
  assert (Ht : open_archives_ t = open_archives_ s ++ [mkOpenArchive a true []]
               ∧ world t = w ∧ bookmarks_ t = bookmarks_ s
               ∧ resources t = res_addArchive a :: resources s
               ∧ listening t = listening s ++ [a]
               ∧ announced t =
                   announced s ++ [mkAnnouncement "archive_added" None]
               ∧ database t =
                   database (addOrUpdateArchiveDB path a (set_world w s))).
  { subst t. unfold addOrUpdateArchiveDB. simpl.
    by destruct (db_query_ok (database s)). }
  destruct Ht as (Hl & Hw & Hb & Hr & Hli & Han & Hdb).
  rewrite (announce_opened_position silent a t (length (open_archives_ s))).
  - destruct silent; simpl; rewrite ?Han, <- ?app_assoc; by split_and!.
  - by apply (archiveIndex_last t (open_archives_ s) a
                (mkOpenArchive a true [])).
  - lia.
Qed.

(** X10.  A managed open of a file that is not open yet, is recognised
    and parses, and whose archive is not one to expand, registers exactly
    one record: the archive is appended to the open list as a resource,
    without child links, and is found at the last position by
    [archiveIndex], [getArchive] and [archiveIsResource]; the Resource Index
    is told of it; [archive_added] is announced and then, unless [silent],
    [archive_opened] with that position; the row of the path is written to
    the database and no other row is touched; the bookmarks stay. *)
Theorem X10_managed_open_appends (n : nat) s (path : string) (f : Format)
    (silent : bool) :
  FileUtil_dirExists (world s) path = false →
  getArchive s path = None →
  detect_file (world s) path = Some f →
  let a := (make_shared f (world s)).1 in
  let parse := Archive_open_file a path (make_shared f (world s)).2 in
  parse.1 = true →
  ¬ expands (set_world parse.2 s) a →
  a ∉ archive <$> open_archives_ s →
  Z.of_nat (length (open_archives_ s)) < 2 ^ 31 →
  ∃ s',
    openArchive (S n) path true silent s = Ok (Some a, s')
    ∧ open_archives_ s' = open_archives_ s ++ [mkOpenArchive a true []]
    ∧ archiveIndex s' (Some a) = Z.of_nat (length (open_archives_ s))
    ∧ getArchive_at s' (Z.of_nat (length (open_archives_ s))) = Some a
    ∧ archiveIsResource s' (Some a) = true
    ∧ resources s' = res_addArchive a :: resources s
    ∧ announced s' =
        announced s
        ++ mkAnnouncement "archive_added" None
           :: (if silent then []
               else [mkAnnouncement "archive_opened"
                       (Some (Z.of_nat (length (open_archives_ s))))])
    ∧ (db_query_ok (database s) = true →
       is_Some (archive_file (database s') !! path))
    ∧ (∀ q, q ≠ path →
            archive_file (database s') !! q = archive_file (database s) !! q)
    ∧ base_resource_path (database s') = base_resource_path (database s)
    ∧ bookmarks_ s' = bookmarks_ s.
Proof.
  intros Hdir Hget Hdet a parse Hok Hflat Hout Hlen.
  exists (opened path a parse.2 silent s).
  split; [by apply openArchive_fresh|].
  destruct (opened_fields path a parse.2 silent s Hout Hlen)
    as (Hl & Hw & Hb & Hr & Hli & Han & Hdb).
  set (s' := opened path a parse.2 silent s) in *.
  assert (Hidx : archiveIndex s' (Some a)
                 = Z.of_nat (length (open_archives_ s))).
  { by apply (archiveIndex_last s' (open_archives_ s) a
                (mkOpenArchive a true [])). }
  assert (Hlast : open_archives_ s' !! length (open_archives_ s)
                  = Some (mkOpenArchive a true [])).
  { rewrite Hl. by apply list_lookup_middle. }
  split_and!; try done.
  - unfold getArchive_at. rewrite Hl, length_app. simpl.
    destruct (Z.ltb_spec (Z.of_nat (length (open_archives_ s))) 0); [lia|].
    destruct (Z.geb_spec (Z.of_nat (length (open_archives_ s)))
                (Z.of_nat (length (open_archives_ s) + 1))); [lia|].
    simpl. rewrite Nat2Z.id, <- Hl, Hlast. done.
  - unfold archiveIsResource. rewrite Hidx.
    destruct (Z.ltb_spec (Z.of_nat (length (open_archives_ s))) 0); [lia|].
    by rewrite Nat2Z.id, Hlast.
  - intros Hq. rewrite Hdb. unfold addOrUpdateArchiveDB. simpl.
    rewrite Hq. simpl. by rewrite lookup_insert_eq.
  - intros q Hne. rewrite Hdb. unfold addOrUpdateArchiveDB. simpl.
    destruct (db_query_ok (database s)); [|done].
    simpl. by rewrite lookup_insert_ne.
  - rewrite Hdb. unfold addOrUpdateArchiveDB. simpl.
    by destruct (db_query_ok (database s)).
Qed.

Lemma after_children_unlinked i l1 oa l2 t :
  i = Z.of_nat (length l1) →
  open_archives_ t = l1 ++ oa :: l2 →
  (∀ x, x ∈ open_archives_ t → archive oa ∉ open_children x) →
  after_children i t =
  Ok (true,
      announce "archive_closed" (Some i)
        (set_open_archives (l1 ++ l2)
           (set_world (Archive_close (archive oa) (world t)) t))).
Proof.
  intros -> Hl Hno. unfold after_children.
  rewrite (at_index_middle t l1 oa l2 Hl), bind_Ok.
  rewrite (unlink_from_parent_unlinked _ _ Hno).
  rewrite (at_index_middle t l1 oa l2 Hl), bind_Ok.
  rewrite Nat2Z.id. simpl. rewrite Hl.
  replace (delete (length l1) (l1 ++ oa :: l2)) with (l1 ++ l2); [done|].
  clear. induction l1; simpl; [done|]. by f_equal.
Qed.

Lemma close_leaf_state n s l1 oa l2 :
  open_archives_ s = l1 ++ oa :: l2 →
  open_children oa = [] →
  (∀ x, x ∈ open_archives_ s → archive oa ∉ open_children x) →
  let i := Z.of_nat (length l1) in
  let r := (deleteBookmarksInArchive_in (world s) (Some (archive oa))
              (bookmarks_ s)).2 in
  ∃ s',
    closeArchive (S n) i s = Ok (true, s')
    ∧ open_archives_ s' = l1 ++ l2
    ∧ pruned (gone (world s) (Some (archive oa)))
        (bookmarks_ s) (bookmarks_ s')
    ∧ (r = true ↔ bookmarks_ s' ≠ bookmarks_ s)
    ∧ world s' = Archive_close (archive oa) (world s)
    ∧ resources s' = res_removeArchive (archive oa) :: resources s
    ∧ announced s' =
        announced s
        ++ [mkAnnouncement "archive_closing" (Some i)]
        ++ (if r then [mkAnnouncement "bookmarks_changed" None] else [])
        ++ [mkAnnouncement "archive_closed" (Some i)]
    ∧ database s' = database s
    ∧ base_resource_archive_ s' = base_resource_archive_ s.
Proof.
  intros Hl Hc Hno i r. subst i.
  rewrite (closeArchive_leaf n s l1 oa l2 Hl Hc).
  set (t := before_children l1 oa l2 s).
  assert (Hrec : mkOpenArchive (archive oa) (resource oa) [] = oa).
  { destruct oa. simpl in *. by subst. }
  assert (Htl : open_archives_ t = l1 ++ oa :: l2).
  { subst t. unfold before_children. simpl. by rewrite Hrec. }
  rewrite (after_children_unlinked _ l1 oa l2 t eq_refl Htl).
  2:{ intros x Hx. rewrite Htl, <- Hl in Hx. by apply Hno. }
  eexists. split; [done|]. simpl.
  destruct (deleteBookmarksInArchive_in_gone (world s) (Some (archive oa))
              (bookmarks_ s)) as (Hpr & Hsame & Hless).
  subst t. unfold before_children. simpl.
  rewrite deleteBookmarksInArchive_state. simpl. fold r.
  fold r in Hsame, Hless.
  destruct r eqn:Hr; simpl.
  - split_and!; try done.
    + split; [intros _|done]. intros Heq. specialize (Hless eq_refl).
      rewrite Heq in Hless. lia.
    + by rewrite <- !app_assoc.
  - split_and!; try done.
    + split; [done|]. intros Hne. by specialize (Hsame eq_refl).
    + by rewrite <- !app_assoc.
Qed.

(** X11.  Closing an archive that has no child links and that no record
    links takes one unit of fuel and does this, in this order:
    [archive_closing] is announced with the position; the bookmarks that no
    longer resolve and those of the entries of the archive are erased
    ([bookmarks_changed] is announced if there were any); the Resource Index
    is told to remove the archive; [Archive::close] is called; the record is
    taken out of the list, the others keeping their order; and
    [archive_closed] is announced with the same position.  The database and
    the base resource slot are not touched. *)
Theorem X11_close_leaf (n : nat) s (l1 : list OpenArchive)
    (oa : OpenArchive) (l2 : list OpenArchive) :
  open_archives_ s = l1 ++ oa :: l2 →
  open_children oa = [] →
  (∀ x, x ∈ open_archives_ s → archive oa ∉ open_children x) →
  let i := Z.of_nat (length l1) in
  let r := (deleteBookmarksInArchive_in (world s) (Some (archive oa))
              (bookmarks_ s)).2 in
  ∃ s',
    closeArchive (S n) i s = Ok (true, s')
    ∧ open_archives_ s' = l1 ++ l2
    ∧ pruned (gone (world s) (Some (archive oa)))
        (bookmarks_ s) (bookmarks_ s')
    ∧ (r = true ↔ bookmarks_ s' ≠ bookmarks_ s)
    ∧ world s' = Archive_close (archive oa) (world s)
    ∧ resources s' = res_removeArchive (archive oa) :: resources s
    ∧ announced s' =
        announced s
        ++ [mkAnnouncement "archive_closing" (Some i)]
        ++ (if r then [mkAnnouncement "bookmarks_changed" None] else [])
        ++ [mkAnnouncement "archive_closed" (Some i)]
    ∧ database s' = database s
    ∧ base_resource_archive_ s' = base_resource_archive_ s.
Proof. apply close_leaf_state. Qed.


End Opening.

(** ** The base resource archive: selecting, failing, removing a path *)

Section BaseSelection.
Context {W Opt : Type} {C : Collaborators W Opt} {M : MoreCollaborators W}.
Implicit Type s : Manager W.

(** The state of [openBaseResource] after it has let go of the base
    archive it had. *)
Definition released s : Manager W :=
  match base_resource_archive_ s with
  | Some b => set_base_resource_archive None
                (call_resources (res_removeArchive b) s)
  | None => s
  end.

(** The class [openBaseResource] makes of a file: a wad, else a zip. *)
Definition base_class (w : W) (filename : string) : option Format :=
  if isArchive_file w Wad filename then Some Wad
  else if isArchive_file w Zip filename then Some Zip
  else None.

Lemma released_fields s :
  base_resource_archive_ (released s) = None
  ∧ resources (released s)
    = release_calls (base_resource_archive_ s) ++ resources s
  ∧ announced (released s) = announced s
  ∧ open_archives_ (released s) = open_archives_ s
  ∧ bookmarks_ (released s) = bookmarks_ s
  ∧ database (released s) = database s
  ∧ world (released s) = world s
  ∧ base_resource (released s) = base_resource s
  ∧ Global_error (released s) = Global_error s.
Proof.
  unfold released. by destruct (base_resource_archive_ s) eqn:Hb.
Qed.

Lemma openBaseResource_path s index filename :
  ¬ (is_Some (base_resource_archive_ s) ∧ base_resource s = index) →
  0 ≤ index →
  getBaseResourcePath s index = filename →
  filename ≠ "" →
  openBaseResource index s =
  match base_class (world s) filename with
  | None => (false, released s)
  | Some f =>
      let a := (make_shared f (world s)).1 in
      let parse := Archive_open_file a filename (make_shared f (world s)).2 in
      if parse.1 then
        (true,
         announce "base_resource_changed" None
           (call_resources (res_addArchive a)
              (set_base_resource index
                 (set_world parse.2
                    (set_base_resource_archive (Some a) (released s))))))
      else
        (false,
         announce "base_resource_changed" None
           (set_base_resource_archive None
              (set_world parse.2
                 (set_base_resource_archive (Some a) (released s)))))
  end.
Proof.
  intros Hother Hge Hpath Hne. unfold openBaseResource.
  assert (Hguard : bool_decide (is_Some (base_resource_archive_ s))
                   && (base_resource s =? index) = false).
  { apply andb_false_iff.
    destruct (decide (is_Some (base_resource_archive_ s))) as [Hb|Hb].
    - right. apply Z.eqb_neq. intros Heq. by apply Hother.
    - left. by apply bool_decide_eq_false_2. }
  rewrite Hguard. fold (released s).
  destruct (released_fields s) as (_ & _ & _ & _ & _ & Hd & Hw & _).
  assert (Hfile : (if 0 <=? index then getBaseResourcePath (released s) index
                   else "") = filename).
  { destruct (Z.leb_spec 0 index); [|lia].
    unfold getBaseResourcePath in *. by rewrite Hd. }
  rewrite Hfile, decide_False by done.
  rewrite Hw. fold (base_class (world s) filename).
  destruct (base_class (world s) filename) as [f|]; [|done].
  destruct (make_shared f (world s)) as [a w1]. cbn [fst snd].
  change (world (set_base_resource_archive (Some a)
                   (set_world w1 (released s)))) with w1.
  by destruct (Archive_open_file a filename w1) as [[] w2].
Qed.

(** X13.  Selecting a base resource.  When the path stored for [index]
    is that of a wad or a zip that parses, [openBaseResource] answers true:
    the archive it has made is the base resource archive, [base_resource] is
    [index], the Resource Index is told to remove the base archive there was
    and to add the new one, and [base_resource_changed] is announced once.
    The base archive is kept in its own slot: the open list, the bookmarks
    and the database are what they were.  Asking for the same index again,
    or calling [initBaseResource], then answers true and changes nothing;
    and a lookup by name falls back to the new archive. *)
Theorem X13_openBaseResource_selects s (index : Z) (filename : string)
    (f : Format) :
  ¬ (is_Some (base_resource_archive_ s) ∧ base_resource s = index) →
  0 ≤ index →
  getBaseResourcePath s index = filename →
  filename ≠ "" →
  base_class (world s) filename = Some f →
  let a := (make_shared f (world s)).1 in
  let parse := Archive_open_file a filename (make_shared f (world s)).2 in
  parse.1 = true →
  ∃ s',
    openBaseResource index s = (true, s')
    ∧ base_resource_archive_ s' = Some a
    ∧ base_resource s' = index
    ∧ resources s' =
        res_addArchive a
        :: release_calls (base_resource_archive_ s) ++ resources s
    ∧ announced s' =
        announced s ++ [mkAnnouncement "base_resource_changed" None]
    ∧ open_archives_ s' = open_archives_ s
    ∧ bookmarks_ s' = bookmarks_ s
    ∧ database s' = database s
    ∧ openBaseResource index s' = (true, s')
    ∧ initBaseResource s' = (true, s')
    ∧ (∀ name ignore,
         getResourceEntry s' name ignore =
         head (omap (λ x, Archive_entry parse.2 x name)
                 (consulted (open_archives_ s) ignore ++ [a]))).
Proof.
  intros Hother Hge Hpath Hne Hclass a parse Hok.
  rewrite (openBaseResource_path s index filename Hother Hge Hpath Hne).
  rewrite Hclass. cbv zeta. fold a. fold parse. rewrite Hok.
  destruct (released_fields s) as (Hb & Hr & Ha & Ho & Hbm & Hd & Hw & _).
  eexists. split; [done|]. simpl.
  split_and!; try done.
  - by rewrite Hr.
  - by rewrite Ha.
  - unfold openBaseResource. simpl.
    by rewrite Z.eqb_refl.
  - unfold initBaseResource, openBaseResource. simpl.
    by rewrite Z.eqb_refl.
  - intros name ignore. unfold getResourceEntry. simpl.
    rewrite Ho, getResourceEntry_in_consulted, head_omap_app.
    by destruct (head _).
Qed.










End BaseSelection.

(** ** Closing by name, by pointer, and all at once *)

Section Closing.
Context {W Opt : Type} {C : Collaborators W Opt} {M : MoreCollaborators W}.
Implicit Type s : Manager W.

Lemma first_position_None p a l :
  first_position p a l = None ↔ ∀ oa, oa ∈ l → p oa = false.
Proof.
  revert a. induction l as [|x l IH]; intros a; simpl.
  - split; [|done]. by intros _ oa ?%elem_of_nil.
  - destruct (p x) eqn:Hx.
    + split; [done|]. intros Hall.
      specialize (Hall x ltac:(by left)). congruence.
    + rewrite IH. split.
      * intros Hall oa [->|Hin]%elem_of_cons; [done|by apply Hall].
      * intros Hall oa Hin. apply Hall. by right.
Qed.

Lemma first_position_Some p a l k :
  first_position p a l = Some k →
  ∃ i oa, k = (a + i)%nat ∧ l !! i = Some oa ∧ p oa = true
          ∧ ∀ j oa', (j < i)%nat → l !! j = Some oa' → p oa' = false.
Proof.
  revert a. induction l as [|x l IH]; intros a; simpl; [done|].
  destruct (p x) eqn:Hx.
  - intros [= <-]. exists 0%nat, x. split_and!; [lia|done|done|].
    intros; lia.
  - intros (i & oa & -> & Hi & Hp & Hfirst)%IH.
    exists (S i), oa. split_and!; [lia|done|done|].
    intros [|j] oa' Hj Hoa'; simpl in Hoa'.
    + by injection Hoa' as <-.
    + apply (Hfirst j oa'); [lia|done].
Qed.

Lemma getArchive_in_None w l filename :
  getArchive_in w l filename = None ↔
  ∀ oa, oa ∈ l → Archive_filename w (archive oa) ≠ filename.
Proof.
  induction l as [|x l IH]; simpl.
  - split; [|done]. by intros _ oa ?%elem_of_nil.
  - destruct (decide (Archive_filename w (archive x) = filename)) as [Hx|Hx].
    + split; [done|]. intros Hall. by specialize (Hall x ltac:(by left)).
    + rewrite IH. split.
      * intros Hall oa [->|Hin]%elem_of_cons; [done|by apply Hall].
      * intros Hall oa Hin. apply Hall. by right.
Qed.

(** X16.  Closing by filename and by pointer is closing by position.
    When no open archive has the filename, and when the pointer is null or
    is to an archive that has no record, the answer is false and the state
    stays as it is, whatever the fuel.  Otherwise the call is
    [closeArchive] at the position [archiveIndex] gives for the archive
    found.  [closeArchive] at a position outside the list answers false and
    changes nothing. *)
Theorem X16_close_by_name_or_pointer (fuel : nat) s :
  (∀ filename, getArchive s filename = None →
               closeArchive_filename fuel filename s = Ok (false, s))
  ∧ (∀ filename a,
       getArchive s filename = Some a →
       closeArchive_filename fuel filename s =
       closeArchive fuel (archiveIndex s (Some a)) s)
  ∧ (∀ p, archiveIndex s p = -1 → closeArchive_ptr fuel p s = Ok (false, s))
  ∧ closeArchive_ptr fuel None s = Ok (false, s)
  ∧ (∀ p, 0 ≤ archiveIndex s p →
          closeArchive_ptr fuel p s = closeArchive fuel (archiveIndex s p) s)
  ∧ (∀ index,
       index < 0 ∨ Z.of_nat (length (open_archives_ s)) ≤ index →
       closeArchive (S fuel) index s = Ok (false, s)).
Proof.
  assert (Hptr : ∀ p,
    closeArchive_ptr fuel p s =
    if decide (archiveIndex s p = -1) then Ok (false, s)
    else closeArchive fuel (archiveIndex s p) s).
  { intros p. unfold closeArchive_ptr.
    destruct (first_position _ _ _) as [k|] eqn:Hfp.
    - apply first_position_Some in Hfp as (i & oa & -> & Hi & Hp & Hfirst).
      apply bool_decide_eq_true in Hp.
      rewrite (archiveIndex_found s p i oa Hi Hp).
      + rewrite decide_False by lia. done.
      + intros j oa' Hj Hoa'.
        specialize (Hfirst j oa' Hj Hoa').
        by apply bool_decide_eq_false in Hfirst.
    - rewrite decide_True; [done|].
      apply archiveIndex_absent. intros oa Hoa.
      rewrite first_position_None in Hfp.
      specialize (Hfp oa Hoa). by apply bool_decide_eq_false in Hfp. }
  split_and!.
  - intros filename Hget. unfold closeArchive_filename.
    destruct (first_position _ _ _) as [k|] eqn:Hfp; [|done].
    apply first_position_Some in Hfp as (i & oa & _ & Hi & Hp & _).
    apply bool_decide_eq_true in Hp. exfalso.
    unfold getArchive in Hget. rewrite getArchive_in_None in Hget.
    apply (Hget oa); [by eapply list_elem_of_lookup_2|done].
  - intros filename a Hget. unfold closeArchive_filename.
    apply getArchive_in_Some in Hget
      as (i & oa & Hi & Ha & Hname & Hfirst).
    destruct (first_position _ _ _) as [k|] eqn:Hfp.
    + apply first_position_Some in Hfp
        as (i' & oa' & -> & Hi' & Hp' & Hfirst').
      apply bool_decide_eq_true in Hp'.
      assert (i' = i) as ->.
      { destruct (lt_eq_lt_dec i i') as [[Hlt|]|Hgt]; [|done|].
        - specialize (Hfirst' i oa Hlt Hi).
          apply bool_decide_eq_false in Hfirst'.
          exfalso. apply Hfirst'. by rewrite Ha.
        - exfalso. by apply (Hfirst i' oa' Hgt Hi'). }
      f_equal. symmetry. simpl.
      apply (archiveIndex_found s _ i oa); [done|by rewrite Ha|].
      intros j oa'' Hj Hoa'' [= Heq].
      apply (Hfirst j oa'' Hj Hoa''). by rewrite Heq.
    + rewrite first_position_None in Hfp.
      specialize (Hfp oa ltac:(by eapply list_elem_of_lookup_2)).
      apply bool_decide_eq_false in Hfp. exfalso. apply Hfp. by rewrite Ha.
  - intros p Hp. by rewrite Hptr, decide_True.
  - by rewrite Hptr, decide_True by apply archiveIndex_null.
  - intros p Hp. rewrite Hptr, decide_False; [done|lia].
  - intros index Hout. cbn [closeArchive].
    assert (Hguard : (index <? 0)
                     || (index >=? Z.of_nat (length (open_archives_ s)))
                     = true).
    { apply orb_true_iff. destruct Hout as [Hneg|Hbig].
      - left. by apply Z.ltb_lt.
      - right. rewrite Z.geb_leb. by apply Z.leb_le. }
    by rewrite Hguard.
Qed.

(** What no [closeArchive] touches: the database and the base resource;
    and the bookmarks it leaves are some of those there were. *)
Definition close_keeps s s' : Prop :=
  database s' = database s
  ∧ base_resource_archive_ s' = base_resource_archive_ s
  ∧ base_resource s' = base_resource s
  ∧ bookmarks_ s' `sublist_of` bookmarks_ s.

Lemma close_keeps_refl s : close_keeps s s.
Proof. by split_and!. Qed.

Lemma close_keeps_trans s1 s2 s3 :
  close_keeps s1 s2 → close_keeps s2 s3 → close_keeps s1 s3.
Proof.
  intros (Hd1 & Hb1 & Hr1 & Hs1) (Hd2 & Hb2 & Hr2 & Hs2).
  split_and!; [congruence|congruence|congruence|by etrans].
Qed.

Lemma ofold_keeps {A} (body : Manager W → A → outcome (Manager W)) l s s' :
  (∀ t x t', body t x = Ok t' → close_keeps t t') →
  ofold body l s = Ok s' → close_keeps s s'.
Proof.
  intros Hbody. revert s. induction l as [|x l IH]; intros s.
  - intros [= <-]. apply close_keeps_refl.
  - rewrite ofold_cons. destruct (body s x) as [t| |] eqn:Hx; [|done|done].
    rewrite bind_Ok. intros Hrest.
    eapply close_keeps_trans; [by eapply Hbody|by apply IH].
Qed.

Lemma unlink_from_parent_keeps a t :
  close_keeps t (unlink_from_parent a t)
  ∧ world (unlink_from_parent a t) = world t.
Proof.
  unfold unlink_from_parent.
  destruct (Archive_parentEntry (world t) a) as [parent|]; [|done].
  destruct (ArchiveEntry_parent (world t) parent) as [gp|]; [|done].
  by destruct (0 <=? archiveIndex t (Some gp)).
Qed.

Lemma closeArchive_keeps n index s r s' :
  closeArchive n index s = Ok (r, s') → close_keeps s s'.
Proof.
  revert index s r s'. induction n as [|n IH]; intros index s r s'; [done|].
  cbn [closeArchive].
  destruct ((index <? 0) || _); [intros [= _ <-]; apply close_keeps_refl|].
  set (s0 := announce "archive_closing" (Some index) s).
  destruct (at_index s0 index) as [oa0| |]; [|done|done]. rewrite bind_Ok.
  set (s1 := (deleteBookmarksInArchive (Some (archive oa0)) s0).2).
  assert (H1 : close_keeps s s1).
  { subst s1. rewrite deleteBookmarksInArchive_state.
    assert (Hsub : (deleteBookmarksInArchive_in (world s0)
                      (Some (archive oa0)) (bookmarks_ s0)).1
                   `sublist_of` bookmarks_ s).
    { eapply pruned_sublist, deleteBookmarksInArchive_in_gone. }
    destruct (deleteBookmarksInArchive_in _ _ _) as [l []];
      by split_and!. }
  destruct (at_index s1 index) as [oa1| |]; [|done|done]. rewrite bind_Ok.
  set (s2 := call_resources (res_removeArchive (archive oa1)) s1).
  destruct (at_index s2 index) as [oa2| |]; [|done|done]. rewrite bind_Ok.
  set (s3 := set_open_archives _ s2).
  assert (H3 : close_keeps s s3) by exact H1.
  destruct (ofold _ (open_children oa2) s3) as [t| |] eqn:Hloop;
    [|done|done].
  rewrite bind_Ok.
  assert (Ht : close_keeps s3 t).
  { eapply ofold_keeps; [|exact Hloop].
    intros t0 child t1. cbv beta.
    destruct (0 <=? archiveIndex t0 (Some child)).
    - destruct (closeArchive n _ t0) as [[b u]| |] eqn:Hrun; [|done|done].
      simpl. intros [= <-]. by eapply IH.
    - intros [= <-]. apply close_keeps_refl. }
  destruct (at_index t index) as [oa3| |]; [|done|done]. rewrite bind_Ok.
  destruct (unlink_from_parent_keeps (archive oa3) t) as [Hu _].
  set (t1 := unlink_from_parent (archive oa3) t) in *.
  destruct (at_index t1 index) as [oa4| |]; [|done|done]. rewrite bind_Ok.
  intros [= _ <-].
  eapply close_keeps_trans; [exact H3|].
  eapply close_keeps_trans; [exact Ht|]. exact Hu.
Qed.

#[local] Existing Instance kept_dec.

(** An archive that is open together with the archive it was opened from
    is linked by the record of that archive. *)
Definition tight (w : W) (l : list OpenArchive) : Prop :=
  ∀ x P, registered l x → container w x = Some P → registered l P →
         linked l P x.

Lemma erase_child_other a x l : x ∈ l → x ≠ a → x ∈ erase_child a l.
Proof.
  induction l as [|c l IH]; simpl; [done|].
  intros [->|Hin]%elem_of_cons Hne.
  - rewrite decide_False by done. by left.
  - destruct (decide (c = a)); [done|]. right. by apply IH.
Qed.

Lemma closed_as_registered s l1 oa l2 R s' x :
  open_archives_ s = l1 ++ oa :: l2 →
  closed_as s l1 oa l2 R s' →
  registered (open_archives_ s') x ↔
  registered (open_archives_ s) x ∧ x ∉ archive oa :: R.
Proof.
  intros Hl Hca. unfold registered.
  rewrite (ca_list _ _ _ _ _ _ Hca), <- list_fmap_compose.
  rewrite !list_elem_of_fmap. split.
  - intros (y & -> & Hy). apply list_elem_of_filter in Hy as [Hk Hy].
    simpl. rewrite unlinked_archive. split; [by exists y|done].
  - intros [(y & -> & Hy) Hout]. exists y. simpl.
    rewrite unlinked_archive. split; [done|].
    by apply list_elem_of_filter.
Qed.

Lemma closed_as_in_list s l1 oa l2 R s' a :
  open_archives_ s = l1 ++ oa :: l2 →
  closed_as s l1 oa l2 R s' →
  a ∈ archive oa :: R → registered (open_archives_ s) a.
Proof.
  intros Hl Hca [->|Ha]%elem_of_cons; rewrite Hl; apply registered_middle.
  - right. by left.
  - right. right. by apply (ca_sub _ _ _ _ _ _ Hca).
Qed.

Lemma tight_closed s l1 oa l2 R s' :
  open_archives_ s = l1 ++ oa :: l2 →
  tight (world s) (open_archives_ s) →
  closed_as s l1 oa l2 R s' →
  tight (world s') (open_archives_ s').
Proof.
  intros Hl Ht Hca x P Hx Hc HP.
  apply (closed_as_registered s l1 oa l2 R s' x Hl Hca) in Hx as [Hx HxD].
  apply (closed_as_registered s l1 oa l2 R s' P Hl Hca) in HP as [HP HPD].
  pose proof (ca_world _ _ _ _ _ _ Hca) as Hag.
  assert (Hcw : container (world s) x = Some P).
  { destruct (container (world s) x) as [P0|] eqn:Hc0.
    - destruct (decide (P0 ∈ archive oa :: R)) as [Hin|Hout].
      + exfalso. apply HxD.
        apply (ca_closed _ _ _ _ _ _ Hca P0 x Hin); [|done].
        apply Ht; [done|done|].
        by apply (closed_as_in_list s l1 oa l2 R s').
      + rewrite (agree_container _ _ _ _ _ Hag HxD Hc0 Hout) in Hc.
        congruence.
    - by rewrite (agree_container_None _ _ _ _ Hag HxD Hc0) in Hc. }
  destruct (Ht x P Hx Hcw HP) as (oaP & HoaP & HaP & HxP).
  exists (unlinked (world s) (archive oa) oaP). split_and!.
  - rewrite (ca_list _ _ _ _ _ _ Hca). apply list_elem_of_fmap.
    exists oaP. split; [done|]. apply list_elem_of_filter.
    split; [|done]. unfold kept. by rewrite HaP.
  - by rewrite unlinked_archive.
  - unfold unlinked. case_decide; [|done]. simpl.
    apply erase_child_other; [done|]. intros ->. apply HxD. by left.
Qed.

Lemma tight_first w oa l :
  well_nested w (oa :: l) → tight w (oa :: l) →
  ∀ P, container w (archive oa) = Some P → P ∉ archive <$> (oa :: l).
Proof.
  intros Hwn Ht P Hc HP.
  destruct (Ht (archive oa) P) as (oaP & HoaP & _ & Hin);
    [by left|done|done|].
  destruct (wn_forward _ _ Hwn) as [Hhead _]. by apply (Hhead oaP).
Qed.

Lemma closed_as_shorter s oa l2 R s' :
  open_archives_ s = oa :: l2 →
  closed_as s [] oa l2 R s' →
  (length (open_archives_ s') ≤ length l2)%nat.
Proof.
  intros Hl Hca. rewrite (ca_list _ _ _ _ _ _ Hca), length_fmap, Hl.
  rewrite filter_cons_False.
  - apply length_filter.
  - intros Hk. apply Hk. by left.
Qed.

Lemma closeAll_empties :
  close_frame →
  ∀ fuel depth s,
    well_nested (world s) (open_archives_ s) →
    tight (world s) (open_archives_ s) →
    (length (open_archives_ s) ≤ fuel)%nat →
    (length (open_archives_ s) ≤ depth)%nat →
    ∃ s', closeAll fuel depth s = Ok s'
          ∧ open_archives_ s' = []
          ∧ close_keeps s s'
          ∧ ∀ b e a, b ∈ bookmarks_ s' →
                     lock (world s) b = Some e →
                     ArchiveEntry_parent (world s) e = Some a →
                     ¬ registered (open_archives_ s) a.
Proof.
  intros Hframe fuel depth.
  induction fuel as [|fuel IH]; intros s Hwn Ht Hfuel Hdepth.
  - destruct (open_archives_ s) as [|oa l2] eqn:Hl; [|simpl in Hfuel; lia].
    exists s. simpl. rewrite Hl.
    split; [done|]. split; [done|]. split; [apply close_keeps_refl|].
    intros b e a _ _ _ Hreg. by apply elem_of_nil in Hreg.
  - destruct (open_archives_ s) as [|oa l2] eqn:Hl.
    { exists s. simpl. rewrite Hl.
      split; [done|]. split; [done|]. split; [apply close_keeps_refl|].
      intros b e a _ _ _ Hreg. by apply elem_of_nil in Hreg. }
    simpl in Hfuel, Hdepth.
    destruct (closeArchive_closes Hframe depth s [] oa l2)
      as (R & s1 & Hrun & Hca); [done|by rewrite Hl| |lia|].
    { by apply tight_first. }
    change (Z.of_nat (length (@nil OpenArchive))) with 0 in Hrun.
    pose proof (closed_as_shorter s oa l2 R s1 Hl Hca) as Hshort.
    destruct (IH s1) as (s' & Hrest & Hnil & Hkeep & Hbm).
    { by eapply closed_as_well_nested; [rewrite Hl|]. }
    { eapply (tight_closed s [] oa l2); [exact Hl|by rewrite Hl|exact Hca]. }
    { lia. } { lia. }
    exists s'. cbn [closeAll]. rewrite Hl, Hrun, bind_Ok.
    split; [done|]. split; [done|]. split.
    + eapply close_keeps_trans; [by eapply closeArchive_keeps|done].
    + intros b e a Hb Hlock Hpar Hreg.
      pose proof (ca_bookmarks _ _ _ _ _ _ Hca) as Hpr.
      pose proof (ca_world _ _ _ _ _ _ Hca) as [_ Hag].
      destruct Hkeep as (_ & _ & _ & Hsub).
      assert (Hb1 : b ∈ bookmarks_ s1) by by eapply elem_of_sublist.
      apply (pruned_elem_of _ _ _ _ Hpr) in Hb1 as [_ Hne].
      assert (HaD : a ∉ archive oa :: R).
      { intros Hin. apply Hne. right. by exists e, a. }
      destruct (Hag e) as [Hp1 Hl1].
      { intros a' Hin. rewrite Hpar. by intros [= <-]. }
      apply (Hbm b e a Hb).
      * pose proof (lock_Some _ _ _ Hlock) as ->.
        simpl in Hlock |- *. by rewrite Hl1.
      * by rewrite Hp1.
      * apply (closed_as_registered s [] oa l2 R s1 a Hl Hca).
        split; [by rewrite Hl|done].
Qed.

(** X17.  [closeAll] closes everything.  From a registry that is well
    nested, in which an archive that is open together with the one it was
    opened from is linked by it, [closeAll] returns, given as many turns and
    as much depth as there are records, with the open list empty.  No
    bookmark is left that resolved to an entry of an archive that was open;
    the bookmarks that stay are some of those there were.  The database and
    the base resource are not touched. *)
Theorem X17_closeAll_empties (fuel depth : nat) s :
  close_frame →
  well_nested (world s) (open_archives_ s) →
  tight (world s) (open_archives_ s) →
  (length (open_archives_ s) ≤ fuel)%nat →
  (length (open_archives_ s) ≤ depth)%nat →
  ∃ s', closeAll fuel depth s = Ok s'
        ∧ open_archives_ s' = []
        ∧ bookmarks_ s' `sublist_of` bookmarks_ s
        ∧ (∀ b e a, b ∈ bookmarks_ s' →
                    lock (world s) b = Some e →
                    ArchiveEntry_parent (world s) e = Some a →
                    a ∉ archive <$> open_archives_ s)
        ∧ database s' = database s
        ∧ base_resource_archive_ s' = base_resource_archive_ s
        ∧ base_resource s' = base_resource s.
Proof.
  intros Hframe Hwn Ht Hfuel Hdepth.
  destruct (closeAll_empties Hframe fuel depth s Hwn Ht Hfuel Hdepth)
    as (s' & Hrun & Hnil & (Hd & Hb & Hr & Hsub) & Hbm).
  exists s'. by split_and!.
Qed.

(** Every child link is to an archive that is open. *)
Definition links_open (l : list OpenArchive) : Prop :=
  ∀ p c, linked l p c → registered l c.

Lemma lock_archive_registered s c :
  registered (open_archives_ s) c → lock_archive s c = Some c.
Proof.
  intros Hreg. unfold lock_archive.
  by rewrite (bool_decide_eq_true_2 _ Hreg).
Qed.

Lemma linked_record w l oa c :
  well_nested w l → oa ∈ l →
  linked l (archive oa) c ↔ c ∈ open_children oa.
Proof.
  intros Hwn Hoa. split.
  - intros (x & Hx & Ha & Hc).
    by rewrite <- (same_record l x oa (wn_once _ _ Hwn) Hx Hoa Ha).
  - intros Hc. by exists oa.
Qed.

Lemma nested_in_children w l oa x :
  well_nested w l → links_open l → oa ∈ l →
  nested_in l (archive oa) x ↔
  x = archive oa ∨ ∃ c, c ∈ open_children oa ∧ nested_in l c x.
Proof.
  intros Hwn Hlo Hoa. split.
  - inversion 1 as [|a c d Hl Hr Hn]; subst; [by left|].
    right. exists c. split; [|done].
    by apply (linked_record w l oa c Hwn Hoa).
  - intros [->|(c & Hc & Hn)]; [constructor|].
    assert (Hl : linked l (archive oa) c)
      by by apply (linked_record w l oa c Hwn Hoa).
    eapply nested_step; [exact Hl|by eapply Hlo|exact Hn].
Qed.

(** The loop of [getDependentArchivesInternal] over the child links. *)
Definition dependents_of (fuel : nat) s (vec : list aptr) (child : aptr)
    : outcome (list aptr) :=
  match lock_archive s child with
  | Some c => getDependentArchivesInternal fuel s (Some c) (vec ++ [c])
  | None => Ok vec
  end.

Lemma dependents_of_registered fuel s vec c :
  registered (open_archives_ s) c →
  dependents_of fuel s vec c =
  getDependentArchivesInternal fuel s (Some c) (vec ++ [c]).
Proof.
  intros Hreg. unfold dependents_of.
  by rewrite (lock_archive_registered s c Hreg).
Qed.

Lemma getDependentArchivesInternal_S fuel s l1 oa l2 vec :
  open_archives_ s = l1 ++ oa :: l2 →
  NoDup (archive <$> open_archives_ s) →
  getDependentArchivesInternal (S fuel) s (Some (archive oa)) vec =
  ofold (dependents_of fuel s) (open_children oa) vec.
Proof.
  intros Hl Hnd. cbn [getDependentArchivesInternal].
  rewrite (archiveIndex_middle s l1 oa l2 Hl Hnd).
  destruct (Z.ltb_spec (Z.of_nat (length l1)) 0); [lia|].
  by rewrite (at_index_middle s l1 oa l2 Hl), bind_Ok.
Qed.

Lemma dependents_run s :
  well_nested (world s) (open_archives_ s) →
  links_open (open_archives_ s) →
  ∀ fuel l1 oa l2 vec,
    open_archives_ s = l1 ++ oa :: l2 →
    (length l2 < fuel)%nat →
    ∃ deps,
      getDependentArchivesInternal fuel s (Some (archive oa)) vec
      = Ok (vec ++ deps)
      ∧ (∀ x, x ∈ deps ↔
              ∃ c, c ∈ open_children oa
                   ∧ nested_in (open_archives_ s) c x)
      ∧ (∀ x, x ∈ deps → x ∈ archive <$> l2).
Proof.
  intros Hwn Hlo.
  pose proof (wn_once _ _ Hwn) as Hnd.
  induction fuel as [|fuel IH]; intros l1 oa l2 vec Hl Hlen; [lia|].
  rewrite (getDependentArchivesInternal_S fuel s l1 oa l2 vec Hl Hnd).
  assert (Hoa : oa ∈ open_archives_ s).
  { rewrite Hl. apply elem_of_app. right. by left. }
  (* the links of [oa] are to records of [l2] *)
  assert (Hlater : ∀ c, c ∈ open_children oa → c ∈ archive <$> l2).
  { intros c Hc.
    assert (Hreg : registered (open_archives_ s) c).
    { apply (Hlo (archive oa)). by exists oa. }
    rewrite Hl in Hreg. apply registered_middle in Hreg.
    pose proof (wn_forward _ _ Hwn) as Hfwd. rewrite Hl in Hfwd.
    destruct Hreg as [Hin|[->|Hin]]; [| |done].
    - apply list_elem_of_fmap in Hin as (y & -> & Hy). exfalso.
      apply (forward_middle l1 oa l2 y oa Hfwd); [|by left|done].
      apply elem_of_app. by left.
    - exfalso. apply (forward_middle l1 oa l2 oa oa Hfwd); [|by left|done].
      apply elem_of_app. right. by left. }
  revert Hlater. generalize (open_children oa) as cs.
  intros cs. revert vec.
  induction cs as [|c cs IHcs]; intros vec Hlater.
  - exists []. rewrite app_nil_r. split; [done|]. split.
    + intros x. split; [by intros ?%elem_of_nil|].
      by intros (c & ?%elem_of_nil & _).
    + by intros x ?%elem_of_nil.
  - assert (Hc2 : c ∈ archive <$> l2) by (apply Hlater; by left).
    apply list_elem_of_fmap in Hc2 as (oc & -> & Hoc).
    apply list_elem_of_split in Hoc as (l2a & l2b & ->).
    assert (Hl' : open_archives_ s = (l1 ++ oa :: l2a) ++ oc :: l2b).
    { by rewrite Hl, <- app_assoc. }
    assert (Hreg : registered (open_archives_ s) (archive oc)).
    { rewrite Hl'. apply registered_middle. right. by left. }
    destruct (IH (l1 ++ oa :: l2a) oc l2b (vec ++ [archive oc]) Hl')
      as (dc & Hrunc & Hdc & Hdc2).
    { rewrite length_app in Hlen. simpl in Hlen. lia. }
    destruct (IHcs ((vec ++ [archive oc]) ++ dc)) as (dr & Hrunr & Hdr & Hdr2).
    { intros c' Hc'. apply Hlater. by right. }
    exists (archive oc :: dc ++ dr).
    rewrite ofold_cons, (dependents_of_registered fuel s vec _ Hreg).
    rewrite Hrunc, bind_Ok, Hrunr.
    split; [by rewrite <- !app_assoc|]. split.
    + intros x. rewrite elem_of_cons, elem_of_app, Hdc, Hdr.
      assert (Hocin : oc ∈ open_archives_ s).
      { rewrite Hl'. apply elem_of_app. right. by left. }
      split.
      * intros [->|[(c' & Hc' & Hn)|(c' & Hc' & Hn)]].
        -- exists (archive oc). split; [by left|constructor].
        -- exists (archive oc). split; [by left|].
           apply (nested_in_children (world s) _ oc x Hwn Hlo Hocin).
           right. by exists c'.
        -- exists c'. split; [by right|done].
      * intros (c' & [->|Hc']%elem_of_cons & Hn).
        -- apply (nested_in_children (world s) _ oc x Hwn Hlo Hocin) in Hn
             as [->|Hn]; [by left|right; by left].
        -- right. right. by exists c'.
    + intros x [->|[Hx|Hx]%elem_of_app]%elem_of_cons.
      * apply list_elem_of_fmap. exists oc. split; [done|].
        apply elem_of_app. right. by left.
      * apply Hdc2 in Hx. rewrite fmap_app, fmap_cons.
        apply elem_of_app. right. by right.
      * by apply Hdr2.
Qed.

(** X18.  [getDependentArchives] answers what is nested.  In a registry
    that is well nested and whose child links are all to open archives, for
    the archive of a record with fewer records behind it than there is fuel,
    the call returns, and the archives it lists are exactly those nested in
    the archive, the archive itself apart: its children, their children, and
    so on; all of them have their records further on in the list.  For the
    null pointer and for an archive that has no record the call indexes the
    list at -1. *)
Theorem X18_getDependentArchives_nested (fuel : nat) s
    (l1 : list OpenArchive) (oa : OpenArchive) (l2 : list OpenArchive) :
  well_nested (world s) (open_archives_ s) →
  links_open (open_archives_ s) →
  open_archives_ s = l1 ++ oa :: l2 →
  (length l2 < fuel)%nat →
  (∃ vec,
     getDependentArchives fuel s (Some (archive oa)) = Ok vec
     ∧ (∀ x, x ∈ vec ↔
             x ≠ archive oa ∧ nested_in (open_archives_ s) (archive oa) x)
     ∧ (∀ x, x ∈ vec → x ∈ archive <$> l2)
     ∧ (open_children oa = [] → vec = []))
  ∧ (∀ p n, archiveIndex s p = -1 →
            getDependentArchives (S n) s p = Fault).
Proof.
  intros Hwn Hlo Hl Hlen. split.
  - destruct (dependents_run s Hwn Hlo fuel l1 oa l2 [] Hl Hlen)
      as (vec & Hrun & Hvec & Hlater).
    exists vec. split; [exact Hrun|].
    assert (Hoa : oa ∈ open_archives_ s).
    { rewrite Hl. apply elem_of_app. right. by left. }
    assert (Hself : archive oa ∉ archive <$> l2).
    { pose proof (wn_once _ _ Hwn) as Hnd. rewrite Hl in Hnd.
      rewrite fmap_app, fmap_cons in Hnd.
      apply NoDup_app in Hnd as (_ & _ & Hnd).
      by apply NoDup_cons in Hnd as [? _]. }
    split_and!.
    + intros x. rewrite Hvec. split.
      * intros (c & Hc & Hn). split.
        -- intros ->. apply Hself, Hlater, Hvec. by exists c.
        -- apply (nested_in_children (world s) _ oa x Hwn Hlo Hoa).
           right. by exists c.
      * intros [Hne Hn].
        by apply (nested_in_children (world s) _ oa x Hwn Hlo Hoa) in Hn
          as [->|Hn].
    + exact Hlater.
    + intros Hnone. destruct vec as [|x vec]; [done|].
      exfalso. destruct (proj1 (Hvec x) ltac:(by left)) as (c & Hc & _).
      rewrite Hnone in Hc. by apply elem_of_nil in Hc.
  - intros p n Hp. unfold getDependentArchives.
    cbn [getDependentArchivesInternal]. by rewrite Hp.
Qed.

(** X19.  Closing an archive closes it and its dependents, no more and no
    less, and keeps the registry in shape.  Under the conditions of X18,
    with an [Archive::close] that keeps to its own archive and the archive's
    own container not registered at or after it: the archives that have a
    record after [closeArchive] are those that had one, without the archive
    and without what [getDependentArchives] lists for it; and the open list
    is well nested again, with all its links to open archives. *)
Theorem X19_close_closes_dependents (fuel : nat) s
    (l1 : list OpenArchive) (oa : OpenArchive) (l2 : list OpenArchive) :
  close_frame →
  well_nested (world s) (open_archives_ s) →
  links_open (open_archives_ s) →
  open_archives_ s = l1 ++ oa :: l2 →
  (∀ P, container (world s) (archive oa) = Some P →
        P ∉ archive <$> (oa :: l2)) →
  (length l2 < fuel)%nat →
  ∃ vec s',
    getDependentArchives fuel s (Some (archive oa)) = Ok vec
    ∧ closeArchive fuel (Z.of_nat (length l1)) s = Ok (true, s')
    ∧ (∀ x, x ∈ archive <$> open_archives_ s' ↔
            x ∈ archive <$> open_archives_ s ∧ x ∉ archive oa :: vec)
    ∧ well_nested (world s') (open_archives_ s')
    ∧ links_open (open_archives_ s').
Proof.
  intros Hframe Hwn Hlo Hl Hpre Hlen.
  destruct (dependents_run s Hwn Hlo fuel l1 oa l2 [] Hl Hlen)
    as (vec & Hrun & Hvec & Hlater).
  destruct (closeArchive_closes Hframe fuel s l1 oa l2 Hl Hwn Hpre Hlen)
    as (R & s' & Hclose & Hca).
  assert (Hoa : oa ∈ open_archives_ s).
  { rewrite Hl. apply elem_of_app. right. by left. }
  assert (HD : ∀ x, x ∈ archive oa :: R ↔ x ∈ archive oa :: vec).
  { intros x. rewrite !elem_of_cons, Hvec. split.
    - intros [->|Hx]; [by left|].
      apply (ca_sound _ _ _ _ _ _ Hca) in Hx.
      by apply (nested_in_children (world s) _ oa x Hwn Hlo Hoa) in Hx
        as [->|Hx]; [left|right].
    - intros [->|(c & Hc & Hn)]; [by left|].
      apply elem_of_cons.
      apply (nested_in_closed (open_archives_ s) (archive oa :: R)
               (archive oa));
        [apply (ca_closed _ _ _ _ _ _ Hca)|by left|].
      apply (nested_in_children (world s) _ oa x Hwn Hlo Hoa).
      right. by exists c. }
  exists vec, s'. split; [exact Hrun|]. split; [exact Hclose|].
  split; [|split].
  - intros x. rewrite <- HD.
    apply (closed_as_registered s l1 oa l2 R s' x Hl Hca).
  - by eapply closed_as_well_nested.
  - intros p c (x' & Hx' & Hp & Hc).
    rewrite (ca_list _ _ _ _ _ _ Hca) in Hx'.
    apply list_elem_of_fmap in Hx' as (x & -> & Hx).
    apply list_elem_of_filter in Hx as [Hk Hx].
    rewrite unlinked_archive in Hp.
    assert (Hcx : c ∈ open_children x).
    { eapply elem_of_sublist; [exact Hc|apply unlinked_children]. }
    apply (closed_as_registered s l1 oa l2 R s' c Hl Hca).
    split; [apply (Hlo (archive x)); by exists x|].
    intros HcD.
    (* a link to a closed archive would have been the link of the
       container, which is erased *)
    apply elem_of_cons in HcD as [->|HcR].
    + (* the link to [oa] itself *)
      assert (Hcont : container (world s) (archive oa) = Some (archive x)).
      { apply (wn_container _ _ Hwn x); [done|done|].
        rewrite Hl. apply registered_middle. right. by left. }
      unfold unlinked in Hc. rewrite decide_True in Hc by done.
      simpl in Hc. revert Hc. apply erase_child_gone.
      by apply (wn_links_once _ _ Hwn).
    + (* a link to an archive closed with [oa]: its container is closed *)
      pose proof (ca_sound _ _ _ _ _ _ Hca c HcR) as Hn.
      apply nested_in_last in Hn as [->|(q & Hq & Hqc & Hcreg)].
      * pose proof (ca_sub _ _ _ _ _ _ Hca _ HcR) as Hin.
        pose proof (wn_once _ _ Hwn) as Hnd. rewrite Hl in Hnd.
        rewrite fmap_app, fmap_cons in Hnd.
        apply NoDup_app in Hnd as (_ & _ & Hnd).
        by apply NoDup_cons in Hnd as [? _].
      * assert (Hcq : container (world s) c = Some q).
        { destruct Hqc as (y & Hy & <- & Hcy).
          by apply (wn_container _ _ Hwn y). }
        assert (Hcx' : container (world s) c = Some (archive x))
          by by apply (wn_container _ _ Hwn x).
        assert (q = archive x) as -> by congruence.
        apply Hk.
        apply (nested_in_closed (open_archives_ s) (archive oa :: R)
                 (archive oa));
          [apply (ca_closed _ _ _ _ _ _ Hca)|by left|done].
Qed.

End Closing.

(** ** New archives, relayed announcements, and the order of the
    recognisers *)

Lemma ofold_preorder {A S} (R : S → S → Prop)
    (body : S → A → outcome S) l (s s' : S) :
  (∀ t, R t t) →
  (∀ a b c, R a b → R b c → R a c) →
  (∀ t x t', body t x = Ok t' → R t t') →
  ofold body l s = Ok s' → R s s'.
Proof.
  intros Hrefl Htrans Hbody. revert s.
  induction l as [|x l IH]; intros s.
  - intros [= <-]. apply Hrefl.
  - rewrite ofold_cons. destruct (body s x) as [t| |] eqn:Hx; [|done|done].
    rewrite bind_Ok. intros Hrest.
    eapply Htrans; [by eapply Hbody|by apply IH].
Qed.

Section NewAndRelay.
Context {W Opt : Type} {C : Collaborators W Opt} {M : MoreCollaborators W}.
Implicit Type s : Manager W.

(** What adding an archive, and opening an entry, leave alone: the
    database, the bookmarks and the base resource. *)
Definition add_keeps s s' : Prop :=
  database s' = database s
  ∧ bookmarks_ s' = bookmarks_ s
  ∧ base_resource_archive_ s' = base_resource_archive_ s
  ∧ base_resource s' = base_resource s.

Lemma add_keeps_refl s : add_keeps s s.
Proof. by split_and!. Qed.

Lemma add_keeps_trans s1 s2 s3 :
  add_keeps s1 s2 → add_keeps s2 s3 → add_keeps s1 s3.
Proof.
  intros (Hd1 & Hb1 & Ha1 & Hr1) (Hd2 & Hb2 & Ha2 & Hr2).
  split_and!; congruence.
Qed.

Lemma add_keeps_announce_opened silent a s t :
  add_keeps s t → add_keeps s (announce_opened silent a t).
Proof. unfold announce_opened. by destruct silent. Qed.

Lemma openArchive_entry_keeps addA entry manage silent s r s' :
  (∀ p t b t', addA p t = Ok (b, t') → add_keeps t t') →
  openArchive_entry_with addA entry manage silent s = Ok (r, s') →
  add_keeps s s'.
Proof.
  intros HaddA. unfold openArchive_entry_with.
  destruct entry as [e|]; [|intros [= _ <-]; apply add_keeps_refl].
  destruct (List.find _ _).
  { intros [= _ <-]. apply add_keeps_announce_opened, add_keeps_refl. }
  destruct (detect_entry (world s) e) as [f|];
    [|by intros [= _ <-]].
  destruct (make_shared f (world s)) as [c w1].
  destruct (Archive_open_entry c e w1) as [[] w2];
    [|by intros [= _ <-]].
  destruct manage; [|by intros [= _ <-]].
  fold (child_linked e c w2 s).
  destruct (addA (Some c) (child_linked e c w2 s)) as [[b t]| |] eqn:Hadd;
    [|done|done].
  simpl. intros [= _ <-]. apply add_keeps_announce_opened.
  eapply add_keeps_trans; [|by eapply HaddA].
  unfold child_linked. cbv zeta. by case_match.
Qed.

Lemma addArchive_keeps n p s b s' :
  addArchive n p s = Ok (b, s') → add_keeps s s'.
Proof.
  revert p s b s'. induction n as [|n IH]; intros p s b s'; [done|].
  destruct p as [a|]; [|intros [= _ <-]; apply add_keeps_refl].
  rewrite addArchive_S. case_decide; [|by intros [= _ <-]].
  destruct (ofold _ _ _) as [t| |] eqn:Hloop; [|done|done].
  rewrite bind_Ok. intros [= _ <-].
  eapply add_keeps_trans; [|eapply (ofold_preorder add_keeps);
    [apply add_keeps_refl|apply add_keeps_trans| |exact Hloop]]; [done|].
  intros t0 x t'. rewrite auto_open_detected.
  assert (Hdet : add_keeps t0 (detected x t0)).
  { unfold detected. by case_decide. }
  case_decide; [|intros [= <-]; exact Hdet].
  destruct (openArchive_entry n _ _ _ _) as [[r u]| |] eqn:Hopen;
    [|done|done].
  simpl. intros [= <-].
  eapply add_keeps_trans; [exact Hdet|].
  eapply openArchive_entry_keeps; [|exact Hopen]. apply IH.
Qed.



Lemma addOrUpdateArchiveDB_rows path a s :
  base_resource_path (database (addOrUpdateArchiveDB path a s))
  = base_resource_path (database s)
  ∧ (∀ q, q ≠ path →
          archive_file (database (addOrUpdateArchiveDB path a s)) !! q
          = archive_file (database s) !! q)
  ∧ bookmarks_ (addOrUpdateArchiveDB path a s) = bookmarks_ s
  ∧ base_resource_archive_ (addOrUpdateArchiveDB path a s)
    = base_resource_archive_ s
  ∧ open_archives_ (addOrUpdateArchiveDB path a s) = open_archives_ s
  ∧ announced (addOrUpdateArchiveDB path a s) = announced s.
Proof.
  unfold addOrUpdateArchiveDB.
  destruct (db_query_ok (database s)); [|done]. simpl.
  split_and!; try done. intros q Hq. by rewrite lookup_insert_ne.
Qed.

(** What the open of a file or a directory leaves alone. *)
Definition file_keeps (path : string) s s' : Prop :=
  bookmarks_ s' = bookmarks_ s
  ∧ base_resource_archive_ s' = base_resource_archive_ s
  ∧ base_resource_path (database s') = base_resource_path (database s)
  ∧ ∀ q, q ≠ path →
         archive_file (database s') !! q = archive_file (database s) !! q.

Lemma file_keeps_announce_opened path silent a s :
  file_keeps path s (announce_opened silent a s).
Proof. unfold announce_opened. by destruct silent. Qed.

Lemma file_keeps_opened path silent a w s t :
  add_keeps (set_world w s) t →
  file_keeps path s (announce_opened silent a (addOrUpdateArchiveDB path a t)).
Proof.
  intros (Hd & Hb & Ha & _). simpl in *.
  destruct (addOrUpdateArchiveDB_rows path a t) as (Hp & Hq & Hbm & Hba & _).
  assert (Hf : file_keeps path s (addOrUpdateArchiveDB path a t)).
  { split; [congruence|]. split; [congruence|]. split; [congruence|].
    intros q Hne. rewrite (Hq q Hne). by rewrite Hd. }
  unfold announce_opened. by destruct silent.
Qed.

Lemma openArchive_keeps n path manage silent s r s' :
  openArchive n path manage silent s = Ok (r, s') → file_keeps path s s'.
Proof.
  unfold openArchive, openDirArchive.
  destruct (FileUtil_dirExists (world s) path).
  - destruct (getArchive s path) as [a|].
    { intros [= _ <-]. apply file_keeps_announce_opened. }
    destruct (make_shared Dir (world s)) as [a w1].
    destruct (Archive_open_file a path w1) as [[] w2];
      [|by intros [= _ <-]].
    destruct manage; [|by intros [= _ <-]].
    destruct (addArchive n _ _) as [[b t]| |] eqn:Hadd; [|done|done].
    simpl. intros [= _ <-].
    eapply file_keeps_opened. by eapply addArchive_keeps.
  - destruct (getArchive s path) as [a|].
    { intros [= _ <-]. apply file_keeps_announce_opened. }
    destruct (detect_file (world s) path) as [f|]; [|by intros [= _ <-]].
    destruct (make_shared f (world s)) as [a w1].
    destruct (Archive_open_file a path w1) as [[] w2];
      [|by intros [= _ <-]].
    destruct manage; [|by intros [= _ <-]].
    destruct (addArchive n _ _) as [[b t]| |] eqn:Hadd; [|done|done].
    simpl. intros [= _ <-].
    eapply file_keeps_opened. by eapply addArchive_keeps.
Qed.

(** X21.  What an open never writes.  Whenever it returns, an open of an
    entry, managed or not, and [addArchive], with all the archives they open
    in the root of a zip or a directory, leave the database, the bookmarks
    and the base resource as they were: an archive opened from an entry gets
    no row.  An open of a file or a directory leaves the bookmarks and the
    base resource as they were, and in the database touches no row but that
    of its own path. *)
Theorem X21_open_never_writes (n : nat) s :
  (∀ entry manage silent r s',
     openArchive_entry n entry manage silent s = Ok (r, s') →
     database s' = database s
     ∧ bookmarks_ s' = bookmarks_ s
     ∧ base_resource_archive_ s' = base_resource_archive_ s
     ∧ base_resource s' = base_resource s)
  ∧ (∀ p b s',
       addArchive n p s = Ok (b, s') →
       database s' = database s
       ∧ bookmarks_ s' = bookmarks_ s
       ∧ base_resource_archive_ s' = base_resource_archive_ s
       ∧ base_resource s' = base_resource s)
  ∧ (∀ path manage silent r s',
       openArchive n path manage silent s = Ok (r, s') →
       bookmarks_ s' = bookmarks_ s
       ∧ base_resource_archive_ s' = base_resource_archive_ s
       ∧ base_resource_path (database s')
         = base_resource_path (database s)
       ∧ ∀ q, q ≠ path →
              archive_file (database s') !! q
              = archive_file (database s) !! q).
Proof.
  split; [|split].
  - intros entry manage silent r s' Hrun.
    eapply openArchive_entry_keeps; [|exact Hrun].
    intros p t b t'. apply addArchive_keeps.
  - intros p b s'. apply addArchive_keeps.
  - intros path manage silent r s'. apply openArchive_keeps.
Qed.

(** X22.  Announcements of the archives are passed on with the position
    of the archive.  An announcement that comes from no archive, or from an
    archive that has no record, and an event other than [saved], [modified]
    and [entry_modified], change nothing.  For an archive whose first record
    is at position [i]: [saved] writes the row of the archive's filename to
    the database and announces [archive_saved] with [i]; [modified] and
    [entry_modified] announce [archive_modified] with [i] and write
    nothing.  The open list and the bookmarks are never touched.  Once an
    archive without child links has been closed, in a list where no archive
    has two records, what it still announces is ignored. *)
Theorem X22_onAnnouncement_relays s (announcer : option aptr)
    (event_name : string) :
  (archiveIndex s announcer = -1 →
   onAnnouncement announcer event_name s = s)
  ∧ (∀ a, a ∉ archive <$> open_archives_ s →
          onAnnouncement (Some a) event_name s = s)
  ∧ onAnnouncement None event_name s = s
  ∧ (event_name ≠ "saved" → event_name ≠ "modified" →
     event_name ≠ "entry_modified" →
     onAnnouncement announcer event_name s = s)
  ∧ (∀ a i,
       archiveIndex s (Some a) = Z.of_nat i →
       onAnnouncement (Some a) "saved" s =
         announce "archive_saved" (Some (Z.of_nat i))
           (addOrUpdateArchiveDB (Archive_filename (world s) a) a s)
       ∧ onAnnouncement (Some a) "modified" s =
           announce "archive_modified" (Some (Z.of_nat i)) s
       ∧ onAnnouncement (Some a) "entry_modified" s =
           announce "archive_modified" (Some (Z.of_nat i)) s)
  ∧ open_archives_ (onAnnouncement announcer event_name s) = open_archives_ s
  ∧ bookmarks_ (onAnnouncement announcer event_name s) = bookmarks_ s
  ∧ (∀ n l1 oa l2 r s',
       open_archives_ s = l1 ++ oa :: l2 →
       open_children oa = [] →
       (∀ x, x ∈ open_archives_ s → archive oa ∉ open_children x) →
       NoDup (archive <$> open_archives_ s) →
       closeArchive (S n) (Z.of_nat (length l1)) s = Ok (r, s') →
       onAnnouncement (Some (archive oa)) event_name s' = s').
Proof.
  assert (Habs : archiveIndex s announcer = -1 →
                 onAnnouncement announcer event_name s = s).
  { intros Hi. unfold onAnnouncement. by rewrite Hi. }
  split; [exact Habs|].
  split; [|split; [|split; [|split; [|split; [|split]]]]].
  - intros a Hout. unfold onAnnouncement.
    by rewrite archiveIndex_unregistered.
  - unfold onAnnouncement. by rewrite archiveIndex_null.
  - intros Hs Hm He. unfold onAnnouncement.
    destruct (0 <=? archiveIndex s announcer); [|done].
    rewrite decide_False by done.
    by rewrite !bool_decide_eq_false_2.
  - intros a i Hi. unfold onAnnouncement. rewrite Hi.
    destruct (Z.leb_spec 0 (Z.of_nat i)); [|lia]. by split_and!.
  - unfold onAnnouncement.
    destruct (0 <=? archiveIndex s announcer); [|done].
    destruct (decide (event_name = "saved")).
    + destruct announcer as [a|].
      * destruct (addOrUpdateArchiveDB_rows (Archive_filename (world s) a) a s)
          as (_ & _ & _ & _ & Ho & _).
        by destruct (bool_decide _ || bool_decide _).
      * by destruct (bool_decide _ || bool_decide _).
    + by destruct (bool_decide _ || bool_decide _).
  - unfold onAnnouncement.
    destruct (0 <=? archiveIndex s announcer); [|done].
    destruct (decide (event_name = "saved")).
    + destruct announcer as [a|].
      * destruct (addOrUpdateArchiveDB_rows (Archive_filename (world s) a) a s)
          as (_ & _ & Hb & _).
        by destruct (bool_decide _ || bool_decide _).
      * by destruct (bool_decide _ || bool_decide _).
    + by destruct (bool_decide _ || bool_decide _).
  - intros n l1 oa l2 r s' Hl Hc Hno Hnd Hrun.
    destruct (close_leaf_state n s l1 oa l2 Hl Hc Hno)
      as (s'' & Hrun' & Hl' & _).
    rewrite Hrun in Hrun'. injection Hrun' as _ <-.
    unfold onAnnouncement. rewrite archiveIndex_unregistered; [done|].
    unfold registered. rewrite Hl'. rewrite Hl in Hnd.
    rewrite fmap_app, fmap_cons in Hnd.
    apply NoDup_app in Hnd as (_ & Hdis & Hnd2).
    apply NoDup_cons in Hnd2 as [Hnot2 _].
    rewrite fmap_app. intros [Hin|Hin]%elem_of_app; [|done].
    apply (Hdis _ Hin). by left.
Qed.


End NewAndRelay.

(** ** Opening an entry keeps the registry well nested *)

Section OpenKeepsNesting.
Context {W Opt : Type} {C : Collaborators W Opt} {M : MoreCollaborators W}.
Implicit Type s : Manager W.

(** Record [x'] is record [x], possibly with a link to [c] appended, which
    happens only to a record of the archive [P]. *)
Definition grown (c : aptr) (P : option aptr) (x x' : OpenArchive) : Prop :=
  archive x' = archive x
  ∧ resource x' = resource x
  ∧ (open_children x' = open_children x
     ∨ (open_children x' = open_children x ++ [c] ∧ P = Some (archive x))).

Lemma grown_refl c P x : grown c P x x.
Proof. split_and!; [done|done|by left]. Qed.

Lemma Forall2_from_r {A B} (R : A → B → Prop) l k y :
  Forall2 R l k → y ∈ k → ∃ x, x ∈ l ∧ R x y.
Proof.
  induction 1 as [|x y' l k Hxy _ IH]; [by intros ?%elem_of_nil|].
  intros [->|Hin]%elem_of_cons.
  - exists x. split; [by left|done].
  - destruct (IH Hin) as (x' & Hx' & HR). exists x'. split; [by right|done].
Qed.

Lemma Forall2_from_l {A B} (R : A → B → Prop) l k x :
  Forall2 R l k → x ∈ l → ∃ y, y ∈ k ∧ R x y.
Proof.
  induction 1 as [|x' y l k Hxy _ IH]; [by intros ?%elem_of_nil|].
  intros [->|Hin]%elem_of_cons.
  - exists y. split; [by left|done].
  - destruct (IH Hin) as (y' & Hy' & HR). exists y'. split; [by right|done].
Qed.

Lemma grown_archives c P l l0 :
  Forall2 (grown c P) l l0 → archive <$> l0 = archive <$> l.
Proof.
  induction 1 as [|x x' l l0 (Ha & _) _ IH]; [done|].
  rewrite !fmap_cons. by f_equal.
Qed.

Lemma child_linked_grown e c w s :
  let P := ArchiveEntry_parent w e in
  Forall2 (grown c P) (open_archives_ s)
    (open_archives_ (child_linked e c w s))
  ∧ world (child_linked e c w s) = w
  ∧ (∀ p, P = Some p → p ∈ archive <$> open_archives_ s →
          linked (open_archives_ (child_linked e c w s)) p c).
Proof.
  intros P. split; [|split; [apply world_child_linked|]].
  - unfold child_linked. cbv zeta.
    change (world (set_world w s)) with w. fold P.
    destruct P as [p|] eqn:HP.
    2:{ simpl. apply Forall2_same_length_lookup. split; [done|].
        intros i x y Hx Hy. rewrite Hx in Hy. injection Hy as <-.
        apply grown_refl. }
    destruct (archiveIndex_spec (set_world w s) (Some p))
      as [Habs|i oa Hi [= Ha] _]; simpl in *.
    { apply Forall2_same_length_lookup. split; [done|].
      intros i x y Hx Hy. rewrite Hx in Hy. injection Hy as <-.
      apply grown_refl. }
    destruct (Z.leb_spec 0 (Z.of_nat i)); [|lia]. rewrite Nat2Z.id. simpl.
    apply Forall2_same_length_lookup. split.
    { unfold add_child. by rewrite length_alter. }
    intros j x y Hx Hy. unfold add_child in Hy.
    rewrite list_lookup_alter in Hy. case_decide as Hij.
    + subst j. rewrite Hx in Hy. simpl in Hy. injection Hy as <-.
      split_and!; [done|done|]. right. split; [done|].
      rewrite Hi in Hx. injection Hx as <-. by rewrite Ha.
    + rewrite Hx in Hy. injection Hy as <-. apply grown_refl.
  - intros p HP Hreg. unfold child_linked. cbv zeta.
    change (world (set_world w s)) with w. fold P. rewrite HP.
    destruct (archiveIndex_spec (set_world w s) (Some p))
      as [Habs|i oa Hi [= Ha] _]; simpl in *.
    { exfalso. apply list_elem_of_fmap in Hreg as (oa & -> & Hoa).
      by apply (Habs oa). }
    destruct (Z.leb_spec 0 (Z.of_nat i)); [|lia]. rewrite Nat2Z.id. simpl.
    exists (mkOpenArchive (archive oa) (resource oa) (open_children oa ++ [c])).
    split_and!; [|done|].
    + apply list_elem_of_lookup. exists i. unfold add_child.
      by rewrite list_lookup_alter_eq, Hi.
    + simpl. apply elem_of_app. right. by left.
Qed.

Lemma forward_grown c P l l0 (new : OpenArchive) :
  Forall2 (grown c P) l l0 →
  forward l →
  c ∉ archive <$> l →
  open_children new = [] →
  forward (l0 ++ [new]).
Proof.
  intros HF. induction HF as [|x x' l l0 Hx HF IH];
    intros Hfwd Hc Hnew; simpl.
  - split; [|done]. intros y ->%list_elem_of_singleton.
    rewrite Hnew. apply not_elem_of_nil.
  - destruct Hfwd as [Hhead Hrest].
    rewrite fmap_cons in Hc. apply not_elem_of_cons in Hc as [Hcx Hc].
    split; [|by apply IH].
    pose proof Hx as (Ha & _ & _). rewrite Ha.
    assert (Hgrown : ∀ y y', grown c P y y' → y ∈ x :: l →
                             archive x ∉ open_children y').
    { intros y y' (_ & _ & Hy') Hy.
      destruct Hy' as [->|[-> _]]; [by apply Hhead|].
      rewrite elem_of_app, list_elem_of_singleton.
      intros [Hin|Heq]; [by apply (Hhead y)|congruence]. }
    intros y' [->|Hy']%elem_of_cons.
    + apply (Hgrown x); [exact Hx|by left].
    + apply elem_of_app in Hy' as [Hy'| ->%list_elem_of_singleton].
      * destruct (Forall2_from_r _ _ _ _ HF Hy') as (y & Hy & Hg).
        apply (Hgrown y y' Hg). by right.
      * rewrite Hnew. apply not_elem_of_nil.
Qed.

Lemma well_nested_grown (w w2 : W) c P l l0 :
  well_nested w l →
  links_open l →
  Forall2 (grown c P) l l0 →
  c ∉ archive <$> l →
  (∀ x, x ∈ l → c ∉ open_children x) →
  container w2 c = P →
  (∀ b p, b ∈ archive <$> l → container w b = Some p →
          container w2 b = Some p) →
  well_nested w2 (l0 ++ [mkOpenArchive c true []])
  ∧ links_open (l0 ++ [mkOpenArchive c true []]).
Proof.
  intros Hwn Hlo HF Hc Hfresh Hcont Hframe.
  pose proof (grown_archives c P l l0 HF) as Harch.
  assert (Hreg : ∀ a, registered (l0 ++ [mkOpenArchive c true []]) a ↔
                      registered l a ∨ a = c).
  { intros a. unfold registered.
    rewrite fmap_app, elem_of_app, Harch. simpl.
    by rewrite list_elem_of_singleton. }
  assert (Hmem : ∀ y', y' ∈ l0 ++ [mkOpenArchive c true []] →
            open_children y' = []
            ∨ ∃ y, y ∈ l ∧ grown c P y y').
  { intros y' [Hy'| ->%list_elem_of_singleton]%elem_of_app; [|by left].
    right. by apply (Forall2_from_r _ _ _ _ HF). }
  split; [split|].
  - rewrite fmap_app, Harch. simpl.
    apply NoDup_app. split_and!; [apply (wn_once _ _ Hwn)| |].
    + by intros a Ha ->%list_elem_of_singleton.
    + apply NoDup_singleton.
  - intros y' Hy'. destruct (Hmem y' Hy') as [->|(y & Hy & _ & _ & Hch)];
      [apply NoDup_nil_2|].
    destruct Hch as [->|[-> _]]; [by apply (wn_links_once _ _ Hwn)|].
    apply NoDup_app. split_and!; [by apply (wn_links_once _ _ Hwn)| |].
    + intros a Ha ->%list_elem_of_singleton. by apply (Hfresh y).
    + apply NoDup_singleton.
  - intros y' c' Hy' Hc' Hregc.
    destruct (Hmem y' Hy') as [Hnil|(y & Hy & Ha & _ & Hch)].
    { rewrite Hnil in Hc'. by apply elem_of_nil in Hc'. }
    rewrite Ha.
    assert (Hold : c' ∈ open_children y → container w2 c' = Some (archive y)).
    { intros Hin.
      assert (Hr : registered l c') by (apply (Hlo (archive y)); by exists y).
      apply Hframe; [done|]. by apply (wn_container _ _ Hwn y). }
    destruct Hch as [Heq|[Heq HP]]; rewrite Heq in Hc'; [by apply Hold|].
    apply elem_of_app in Hc' as [Hin| ->%list_elem_of_singleton];
      [by apply Hold|].
    by rewrite Hcont.
  - apply (forward_grown c P l l0); [done|apply (wn_forward _ _ Hwn)|done|done].
  - intros p c' (y' & Hy' & Hp & Hc'). apply Hreg.
    destruct (Hmem y' Hy') as [Hnil|(y & Hy & Ha & _ & Hch)].
    { rewrite Hnil in Hc'. by apply elem_of_nil in Hc'. }
    destruct Hch as [Heq|[Heq HP]]; rewrite Heq in Hc'.
    + left. apply (Hlo (archive y)). by exists y.
    + apply elem_of_app in Hc' as [Hin| ->%list_elem_of_singleton];
        [|by right].
      left. apply (Hlo (archive y)). by exists y.
Qed.

(** X24.  Opening an entry keeps the registry well nested.  Let the open
    list be well nested with all its links to open archives, and let entry
    [e] be not open yet, recognised, and parsed into the archive [c], a new
    object that is not one to expand.  Let the codec record [e] as the entry
    [c] was opened from, and leave the containers of the archives that were
    open as they were.  Then the managed open returns [c]; its record is
    appended, the other records keeping their archives and their order; the
    record of the archive that holds [e], if it is open, now links [c], and
    no other link has changed; and the open list is well nested again, with
    all its links to open archives. *)
Theorem X24_open_entry_keeps_nesting (n : nat) s (e : eptr) (f : Format)
    (silent : bool) :
  well_nested (world s) (open_archives_ s) →
  links_open (open_archives_ s) →
  not_open s e →
  detect_entry (world s) e = Some f →
  let c := (make_shared f (world s)).1 in
  let parse := Archive_open_entry c e (make_shared f (world s)).2 in
  parse.1 = true →
  c ∉ archive <$> open_archives_ s →
  (∀ x, x ∈ open_archives_ s → c ∉ open_children x) →
  Archive_parentEntry parse.2 c = Some e →
  (∀ b p, b ∈ archive <$> open_archives_ s →
          container (world s) b = Some p → container parse.2 b = Some p) →
  ¬ expands (set_world parse.2 s) c →
  ∃ s',
    openArchive_entry (S n) (Some e) true silent s = Ok (Some c, s')
    ∧ archive <$> open_archives_ s' = (archive <$> open_archives_ s) ++ [c]
    ∧ well_nested (world s') (open_archives_ s')
    ∧ links_open (open_archives_ s')
    ∧ (∀ p, ArchiveEntry_parent parse.2 e = Some p →
            p ∈ archive <$> open_archives_ s →
            linked (open_archives_ s') p c)
    ∧ (∀ p c', linked (open_archives_ s) p c' →
               linked (open_archives_ s') p c')
    ∧ (∀ p c', linked (open_archives_ s') p c' →
               linked (open_archives_ s) p c'
               ∨ (c' = c ∧ ArchiveEntry_parent parse.2 e = Some p))
    ∧ archiveIsResource s' (Some c) = true.
Proof.
  intros Hwn Hlo Hnot Hdet c parse Hok Hc Hfresh Hparent Hframe Hflat.
  unfold openArchive_entry.
  rewrite (openArchive_entry_new _ e silent s f Hnot Hdet Hok).
  fold c. fold parse.
  destruct (child_linked_grown e c parse.2 s) as (HF & Hw & Hlink).
  set (tl := child_linked e c parse.2 s) in *.
  assert (Hflat' : ¬ expands tl c).
  { intros [Hfmt Hflag]. apply Hflat. split.
    - by rewrite Hw in Hfmt.
    - subst tl. by rewrite auto_open_wads_root_child_linked in Hflag. }
  rewrite (addArchive_flat n c tl Hflat'), bind_Ok.
  set (P := ArchiveEntry_parent parse.2 e) in *.
  assert (Hcont : container parse.2 c = P).
  { unfold container. by rewrite Hparent. }
  destruct (well_nested_grown (world s) parse.2 c P (open_archives_ s)
              (open_archives_ tl) Hwn Hlo HF Hc Hfresh Hcont Hframe)
    as [Hwn' Hlo'].
  pose proof (grown_archives c P _ _ HF) as Harch.
  set (s' := announce_opened silent c (pushed c tl)).
  assert (Hl' : open_archives_ s'
                = open_archives_ tl ++ [mkOpenArchive c true []]).
  { subst s'. unfold announce_opened. by destruct silent. }
  assert (Hw' : world s' = parse.2).
  { subst s'. unfold announce_opened. by destruct silent. }
  exists s'. split; [done|]. rewrite Hl', Hw'.
  split; [by rewrite fmap_app, Harch|].
  split; [done|]. split; [done|].
  split; [|split; [|split]].
  - intros p HP Hp. destruct (Hlink p HP Hp) as (y & Hy & Ha & Hcy).
    exists y. split_and!; [|done|done]. apply elem_of_app. by left.
  - intros p c' (y & Hy & Ha & Hc').
    destruct (Forall2_from_l _ _ _ _ HF Hy) as (y' & Hy' & Hay & _ & Hch).
    exists y'. split_and!; [apply elem_of_app; by left|congruence|].
    destruct Hch as [->|[-> _]]; [done|]. apply elem_of_app. by left.
  - intros p c' (y' & Hy' & Ha & Hc').
    apply elem_of_app in Hy' as [Hy'| ->%list_elem_of_singleton];
      [|by apply elem_of_nil in Hc'].
    destruct (Forall2_from_r _ _ _ _ HF Hy') as (y & Hy & Hay & _ & Hch).
    destruct Hch as [Heq|[Heq HP]]; rewrite Heq in Hc'.
    + left. exists y. split_and!; [done|congruence|done].
    + apply elem_of_app in Hc' as [Hin| ->%list_elem_of_singleton].
      * left. exists y. split_and!; [done|congruence|done].
      * right. split; [done|]. rewrite HP. f_equal. congruence.
  - unfold archiveIsResource.
    rewrite (archiveIndex_last s' (open_archives_ tl) c
               (mkOpenArchive c true []) Hl' eq_refl)
      by by rewrite Harch.
    destruct (Z.ltb_spec (Z.of_nat (length (open_archives_ tl))) 0); [lia|].
    rewrite Nat2Z.id, Hl', list_lookup_middle; done.
Qed.

End OpenKeepsNesting.

(** ** Pruning the bookmarks of a directory that has no archive *)

Section Detached.
Context {W Opt : Type} {C : Collaborators W Opt} {M : MoreCollaborators W}.
Implicit Type s : Manager W.

(** The bookmark resolves to an entry that has no archive. *)
Definition stray (w : W) (b : option eptr) : Prop :=
  ∃ e, lock w b = Some e ∧ ArchiveEntry_parent w e = None.

Lemma loop_detached_fault fuel w node l :
  (∃ b, b ∈ l ∧ stray w b) →
  deleteBookmarksInDir_in fuel w None node l = Fault.
Proof.
  induction l as [|b l IH]; intros (b0 & Hin & Hb0).
  { by apply elem_of_nil in Hin. }
  cbn [deleteBookmarksInDir_in].
  destruct (lock w b) as [e|] eqn:Hl.
  - destruct (decide (ArchiveEntry_parent w e = None)) as [Hp|Hp]; [done|].
    apply elem_of_cons in Hin as [->|Hin].
    { destruct Hb0 as (e0 & He0 & Hp0). congruence. }
    rewrite bind_Ok, IH; [done|by exists b0].
  - apply elem_of_cons in Hin as [->|Hin].
    { destruct Hb0 as (e0 & He0 & _). congruence. }
    rewrite bind_Ok, IH; [done|by exists b0].
Qed.

Lemma loop_detached_ok fuel w node l :
  (∀ b, b ∈ l → ¬ stray w b) →
  ∃ l' r, deleteBookmarksInDir_in fuel w None node l = Ok (l', r)
          ∧ pruned (λ b, lock w b = None) l l'.
Proof.
  induction l as [|b l IH]; intros Hl.
  { exists [], false. split; [done|constructor]. }
  destruct IH as (l' & r & Hrun & Hpr).
  { intros b' Hb'. apply Hl. by right. }
  cbn [deleteBookmarksInDir_in].
  destruct (lock w b) as [e|] eqn:Hlock.
  - destruct (decide (ArchiveEntry_parent w e = None)) as [Hp|Hp].
    { exfalso. apply (Hl b); [by left|]. by exists e. }
    rewrite bind_Ok, Hrun, bind_Ok. exists (b :: l'), r.
    split; [done|]. apply pruned_keep; [congruence|done].
  - rewrite bind_Ok, Hrun, bind_Ok. exists l', true.
    split; [done|]. by apply pruned_drop.
Qed.

(** X25.  A directory that has no archive.  When [node->archive()] is
    null, the loop of [deleteBookmarksInDir] takes the bookmarks of the
    entries that have no archive either for entries of the directory's
    archive, and asks the null archive for its root.  So if, after the
    bookmark of the directory entry is deleted, a bookmark is left that
    resolves to an entry without archive, the call dereferences the null
    pointer, with whatever fuel.  If there is none, the call returns and,
    apart from the bookmark of the directory entry, erases exactly the
    bookmarks that no longer resolve. *)
Theorem X25_deleteBookmarksInDir_detached (fuel : nat) s (node : dptr) :
  ArchiveDir_archive (world s) node = None →
  let after := bookmarks_ (deleteBookmark
                             (ArchiveDir_dirEntry (world s) node) s).2 in
  ((∃ b, b ∈ after ∧ stray (world s) b) →
   deleteBookmarksInDir fuel node s = Fault)
  ∧ ((∀ b, b ∈ after → ¬ stray (world s) b) →
     ∃ r s', deleteBookmarksInDir fuel node s = Ok (r, s')
             ∧ pruned (λ b, lock (world s) b = None) after (bookmarks_ s'))
  ∧ (∀ e, Some e ∈ bookmarks_ s →
          ArchiveEntry_lock (world s) e = true →
          ArchiveEntry_parent (world s) e = None →
          ArchiveDir_dirEntry (world s) node ≠ Some e →
          deleteBookmarksInDir fuel node s = Fault).
Proof.
  intros Harch after.
  assert (Hworld : world (deleteBookmark
                            (ArchiveDir_dirEntry (world s) node) s).2
                   = world s).
  { unfold deleteBookmark. by destruct (deleteBookmark_in _ _ _). }
  assert (Hfault : (∃ b, b ∈ after ∧ stray (world s) b) →
                   deleteBookmarksInDir fuel node s = Fault).
  { intros Hstray. unfold deleteBookmarksInDir. rewrite Harch.
    subst after.
    destruct (deleteBookmark _ s) as [removed t]. simpl in *.
    rewrite Hworld. by rewrite loop_detached_fault. }
  split; [exact Hfault|]. split.
  - intros Hnone. unfold deleteBookmarksInDir. rewrite Harch.
    subst after.
    destruct (deleteBookmark _ s) as [removed t]. simpl in *.
    rewrite Hworld.
    destruct (loop_detached_ok fuel (world s) node (bookmarks_ t) Hnone)
      as (l' & r & Hrun & Hpr).
    rewrite Hrun, bind_Ok.
    destruct (removed || r); eexists _, _; (split; [done|done]).
  - intros e Hin Halive Hpar Hdir. apply Hfault.
    exists (Some e). split.
    + subst after. unfold deleteBookmark.
      destruct (deleteBookmark_in _ _ _) as [l|] eqn:Hdel; [|done].
      apply deleteBookmark_in_Some in Hdel as (l1 & b & l2 & Hl & -> & Hb).
      simpl. rewrite Hl in Hin.
      apply elem_of_app in Hin as [Hin|[<-|Hin]%elem_of_cons].
      * apply elem_of_app. by left.
      * exfalso. apply Hdir. rewrite <- Hb. by apply lock_alive.
      * apply elem_of_app. by right.
    + exists e. split; [by apply lock_alive|done].
Qed.

End Detached.
(** * Scenarios

    The theorems above, run on small worlds. *)

Module Scenario.
Import Toy.
Local Open Scope nat_scope.

Lemma named_parent w a name e :
  e ∈ named w a name → entry_parent w e = Some a.
Proof.
  intros Hin. apply list_elem_of_In in Hin.
  apply filter_In in Hin as [Hin _].
  apply filter_In in Hin as [_ Hb].
  apply andb_true_iff in Hb as [_ Hb]. by apply bool_decide_eq_true in Hb.
Qed.

Lemma toy_answers_own_entries w : answers_own_entries w.
Proof.
  split_and!; simpl.
  - intros a name e He. apply (named_parent w a name).
    destruct (named w a name) as [|e' l]; [done|].
    injection He as ->. by left.
  - intros a name e He. apply (named_parent w a name).
    apply last_Some in He as [l' ->]. apply elem_of_app. right. by left.
  - intros a name e. apply named_parent.
Qed.

(** Three archives: 0 is [a.wad], 1 is [b.zip] with the directories [maps]
    (3) and [gfx] (4) under its root (1), 2 is [doom.wad].  Entry 7 is gone. *)
Definition lump (name type : string) : blob := Blob name type None false [].

Definition w3 : heap :=
  mk_heap
    [mk_archive "a.wad" Wad None 0; mk_archive "b.zip" Zip None 1;
     mk_archive "doom.wad" Wad None 2]
    [mk_dir (Some 0) None None; mk_dir (Some 1) None None;
     mk_dir (Some 2) None None; mk_dir (Some 1) (Some 3) (Some 1);
     mk_dir (Some 1) (Some 4) (Some 1)]
    [mk_entry true (Some 0) "map" (lump "MAP01" "map");
     mk_entry true (Some 1) "map" (lump "MAP01" "map");
     mk_entry true (Some 2) "map" (lump "MAP01" "map");
     mk_entry true (Some 1) "folder" (lump "maps" "folder");
     mk_entry true (Some 1) "folder" (lump "gfx" "folder");
     mk_entry true (Some 3) "map" (lump "E1M1" "map");
     mk_entry true (Some 4) "gfx" (lump "TITLE" "gfx");
     mk_entry false (Some 3) "map" (lump "E1M2" "map")]
    [] [] 0%Z.

Definition both_open : list OpenArchive :=
  [mkOpenArchive 0 true []; mkOpenArchive 1 false []].

(** [a.wad] and [b.zip] are open, [b.zip] not as a resource; [doom.wad] is
    the base resource archive, selected as index 0. *)
Definition s3 : Manager heap := manager w3 both_open [] (Some 2) 0%Z.

Lemma C10_witness :
  archiveIndex s3 (Some 1) = 1%Z
  ∧ open_archives_ (setArchiveResource (Some 1) true s3) =
      [mkOpenArchive 0 true []; mkOpenArchive 1 true []]
  ∧ resources (setArchiveResource (Some 1) true s3) = [res_addArchive 1]
  ∧ setArchiveResource (Some 1) false s3 = s3
  ∧ setArchiveResource (Some 5) true s3 = s3.
Proof.
  destruct (C10_setArchiveResource_sync s3 (Some 1) true) as [_ Hon].
  destruct (C10_setArchiveResource_sync s3 (Some 1) false) as [_ Hoff].
  destruct (C10_setArchiveResource_sync s3 (Some 5) true) as [Habs _].
  destruct (Hon 1 (mkOpenArchive 1 false []) eq_refl eq_refl)
    as (Hl & Hr & _).
  destruct (Hoff 1 (mkOpenArchive 1 false []) eq_refl eq_refl)
    as (_ & _ & _ & _ & Hsame).
  split_and!; [done|exact Hl|exact Hr|by apply Hsame|].
  apply Habs. intros oa Hoa Heq.
  repeat (apply elem_of_cons in Hoa as [->|Hoa]; [done|]).
  by apply elem_of_nil in Hoa.
Defined.

Lemma C8_witness :
  ArchiveEntry_lock (world s3) 5 = true
  ∧ bookmarks_ (addBookmark (Some 5) (addBookmark (Some 5) s3)) =
      [Some 5]
  ∧ addBookmark (Some 5) (addBookmark (Some 5) s3) =
      addBookmark (Some 5) s3.
Proof.
  assert (Halive : ArchiveEntry_lock (world s3) 5 = true) by done.
  destruct (C8_addBookmark_idempotent s3 5 Halive)
    as (_ & _ & Hsecond & Hone).
  destruct Hone as [Hl _]; [apply not_elem_of_nil|].
  by split_and!.
Defined.

Lemma C5_witness :
  base_resource_archive_ s3 = Some 2
  ∧ findAllResourceEntries s3 "MAP01" None = [2; 0]
  ∧ getResourceEntry s3 "MAP01" None = Some 0
  ∧ getResourceEntry s3 "MAP01" (Some 0) = Some 2.
Proof.
  assert (Hb : base_resource_archive_ s3 = Some 2) by done.
  destruct (C5_lookup_order s3 2 None Hb) as (Hall & Hone & _).
  destruct (C5_lookup_order s3 2 (Some 0) Hb) as (_ & Hone' & _).
  split_and!; [done| | |].
  - by rewrite Hall.
  - by rewrite Hone.
  - by rewrite Hone'.
Defined.

Lemma C4_witness :
  answers_own_entries (world s3)
  ∧ (∀ oa, oa ∈ open_archives_ s3 → archive oa = 1 →
           resource oa = false)
  ∧ base_resource_archive_ s3 ≠ Some 1
  ∧ Archive_entry (world s3) 1 "MAP01" = Some 1
  ∧ getResourceEntry s3 "MAP01" None ≠ Some 1
  ∧ 1 ∉ findAllResourceEntries s3 "MAP01" None.
Proof.
  assert (Hown : answers_own_entries (world s3))
    by apply toy_answers_own_entries.
  assert (Hflag : ∀ oa, oa ∈ open_archives_ s3 → archive oa = 1 →
                        resource oa = false).
  { intros oa Hoa Heq.
    repeat (apply elem_of_cons in Hoa as [->|Hoa]; [done|]).
    by apply elem_of_nil in Hoa. }
  assert (Hbase : base_resource_archive_ s3 ≠ Some 1) by done.
  destruct (C4_non_resource_never_answered s3 1 None Hown Hflag Hbase)
    as (Hget & _ & Hall).
  split_and!; [exact Hown|exact Hflag|exact Hbase|reflexivity| |].
  - intros He. by apply (Hget "MAP01" 1 He).
  - intros He. by apply (Hall "MAP01" 1 He).
Defined.

Lemma C2_witness :
  (Z.of_nat (length (open_archives_ s3)) < 2 ^ 31)%Z
  ∧ getArchive s3 "a.wad" = Some 0
  ∧ openArchive 0 "a.wad" true false s3 =
      Ok (Some 0, announce "archive_opened" (Some 0%Z) s3)
  ∧ openArchive 0 "a.wad" true true s3 = Ok (Some 0, s3).
Proof.
  assert (Hlen : (Z.of_nat (length (open_archives_ s3)) < 2 ^ 31)%Z) by done.
  assert (Hget : getArchive s3 "a.wad" = Some 0) by done.
  destruct (C2_reopen_answers_existing 0 s3 "a.wad" true false 0 Hlen Hget)
    as (i & oa & _ & _ & _ & Hidx & Hloud & _).
  destruct (C2_reopen_answers_existing 0 s3 "a.wad" true true 0 Hlen Hget)
    as (_ & _ & _ & _ & _ & _ & Hsilent & _).
  assert (i = 0) as ->.
  { change (archiveIndex s3 (Some 0)) with 0%Z in Hidx. lia. }
  by split_and!.
Defined.

(** [w3] with a file that is recognised as a wad and cannot be parsed, and
    an entry (8) of [b.zip] of the same kind. *)
Definition broken : blob := Blob "bad.wad" "wad" (Some Wad) false [].

Definition w4 : heap :=
  mk_heap (archives w3) (dirs w3)
    (entries w3 ++ [mk_entry true (Some 1) "wad" broken])
    [("bad.wad", broken)] ["some/dir"] 0%Z.

Definition s4 : Manager heap := manager w4 both_open [] None (-1)%Z.

Lemma C3_witness :
  (∃ s', openArchive 1 "junk.bin" true false s4 = Ok (None, s')
         ∧ Global_error s' = "Unsupported or invalid Archive format"
         ∧ stores_kept s4 s')
  ∧ (∃ s', openArchive 1 "bad.wad" true false s4 = Ok (None, s')
           ∧ stores_kept s4 s')
  ∧ (∃ s', openArchive 1 "some/dir" true false s4 = Ok (None, s')
           ∧ stores_kept s4 s')
  ∧ (∃ s', openArchive_entry 1 (Some 0) true false s4 = Ok (None, s')
           ∧ Global_error s' = "Unsupported or invalid Archive format"
           ∧ stores_kept s4 s')
  ∧ (∃ s', openArchive_entry 1 (Some 8) true false s4 = Ok (None, s')
           ∧ stores_kept s4 s').
Proof.
  destruct (C3_failed_open_registers_nothing 1 s4 true false)
    as (Hfile & Hparse & Hdir & Hentry & Hentry_parse & _).
  assert (Hnot : ∀ e oa, oa ∈ open_archives_ s4 →
                         Archive_parentEntry (world s4) (archive oa) ≠ Some e).
  { intros e oa Hoa.
    repeat (apply elem_of_cons in Hoa as [->|Hoa]; [done|]).
    by apply elem_of_nil in Hoa. }
  split_and!.
  - by apply Hfile.
  - by apply (Hparse "bad.wad" Wad).
  - by apply Hdir.
  - apply Hentry; [apply Hnot|done].
  - apply (Hentry_parse 8 Wad); [apply Hnot|done|done].
Defined.

Lemma C6_witness :
  ¬ (is_Some (base_resource_archive_ s3) ∧ base_resource s3 = (-1)%Z)
  ∧ ((-1 < 0)%Z ∨ getBaseResourcePath s3 (-1) = "")
  ∧ openBaseResource (-1) s3 =
      (false,
       announce "base_resource_changed" None
         (set_base_resource (-1)
            (set_base_resource_archive None
               (call_resources (res_removeArchive 2) s3))))
  ∧ getResourceEntry (openBaseResource (-1) s3).2 "MAP01" (Some 0) = None.
Proof.
  assert (Hother : ¬ (is_Some (base_resource_archive_ s3)
                      ∧ base_resource s3 = (-1)%Z)) by (by intros [_ ?]).
  assert (Hneg : (-1 < 0)%Z ∨ getBaseResourcePath s3 (-1) = "") by (by left).
  destruct (C6_openBaseResource_clears s3 (-1) Hother Hneg)
    as (s' & Hrun & _ & _ & _ & _ & _ & _ & _ & _ & _ & Hget).
  split_and!; [exact Hother|exact Hneg|done|].
  rewrite Hrun. simpl. by rewrite Hget.
Defined.

(** C6 needs its guard: clearing does not happen where the index asked
    for is the current selection.  Two base resource paths are stored, [plutonia.wad]
    (index 0) and [doom.wad] (index 1), and nothing is open.
    [openBaseResource 1] makes [doom.wad] the base archive;
    [removeBaseResourcePath 0] deletes the row of [plutonia.wad] and moves
    the selection to 0, where no row is left.  [openBaseResource 0] then
    answers true, keeps the base archive and announces nothing, although
    the path of index 0 is empty. *)
Definition iwad (name : string) : blob :=
  Blob name "wad" (Some Wad) true [lump "MAP01" "map"].

Definition w6 : heap :=
  mk_heap [] [] []
    [("plutonia.wad", iwad "plutonia.wad"); ("doom.wad", iwad "doom.wad")]
    [] 0%Z.

Definition s6 : Manager heap :=
  set_database
    (mkDatabase true true ∅
       (<[1%Z := "plutonia.wad"]> (<[2%Z := "doom.wad"]> ∅)))
    (manager w6 [] [] None (-1)%Z).

Definition s6_selected : Manager heap := (openBaseResource 1 s6).2.

Definition s6_removed : Manager heap :=
  removeBaseResourcePath 0 s6_selected.

Lemma C6_counterexample :
  (openBaseResource 1 s6).1 = true
  ∧ base_resource_archive_ s6_selected = Some 0
  ∧ base_resource s6_selected = 1%Z
  ∧ base_resource_archive_ s6_removed = Some 0
  ∧ base_resource s6_removed = 0%Z
  ∧ getBaseResourcePath s6_removed 0 = ""
  ∧ openBaseResource 0 s6_removed = (true, s6_removed)
  ∧ announced (openBaseResource 0 s6_removed).2 = announced s6_removed
  ∧ getResourceEntry (openBaseResource 0 s6_removed).2 "MAP01" None
    = Some 0.
Proof. split_and!; by vm_compute. Qed.

(** Bookmarks on [E1M1] (under [maps]), [TITLE] (under [gfx]), the
    directory entry of [maps], [MAP01] of [a.wad], and the lost [E1M2]. *)
Definition s9 : Manager heap :=
  manager w3 both_open [Some 5; Some 6; Some 3; Some 0; Some 7] None (-1)%Z.

Lemma w3_chains : chains_end_at_root 2 w3 1 (bookmarks_ s9).
Proof.
  intros e He Halive Hparent.
  assert (Hchain3 : chain w3 1 (Some 3) [3]).
  { apply chain_step; [done|]. apply chain_root. }
  assert (Hchain4 : chain w3 1 (Some 4) [4]).
  { apply chain_step; [done|]. apply chain_root. }
  repeat (apply elem_of_cons in He as [[= ->]|He]).
  - exists [3]. split; [exact Hchain3|simpl; lia].
  - exists [4]. split; [exact Hchain4|simpl; lia].
  - exists []. split; [apply chain_root|simpl; lia].
  - by vm_compute in Hparent.
  - by vm_compute in Halive.
  - by apply elem_of_nil in He.
Qed.

Lemma C9_witness :
  ArchiveDir_archive (world s9) 3 = Some 1
  ∧ NoDup (bookmarks_ s9)
  ∧ chains_end_at_root 2 (world s9) 1 (bookmarks_ s9)
  ∧ ∃ s', deleteBookmarksInDir 2 3 s9 = Ok (true, s')
          ∧ bookmarks_ s' = [Some 6; Some 0]
          ∧ pruned (to_erase w3 1 3) (bookmarks_ s9) (bookmarks_ s').
Proof.
  assert (Harch : ArchiveDir_archive (world s9) 3 = Some 1) by done.
  assert (Hnodup : NoDup (bookmarks_ s9)).
  { refine (bool_decide_unpack _ _). by vm_compute. }
  destruct (C9_deleteBookmarksInDir_exact 2 s9 3 1 Harch Hnodup w3_chains)
    as (r & s' & Hrun & Hpr & _).
  split_and!; [done|done|exact w3_chains|].
  exists s'. vm_compute in Hrun. injection Hrun as <- <-.
  split_and!; [done|done|exact Hpr].
Defined.

Lemma toy_close_frame : close_frame (W := heap).
Proof.
  intros w a.
  assert (Hparent : ∀ e, entry_parent (close a w) e = entry_parent w e).
  { intros e. unfold entry_parent, close. simpl.
    rewrite list_lookup_imap. unfold eptr in *.
    destruct (entries w !! e) as [o|]; simpl; [|done].
    by case_bool_decide. }
  split; [done|]. intros e Hne. split; [apply Hparent|].
  simpl. unfold entry_alive, close. simpl.
  rewrite list_lookup_imap. unfold eptr in *.
  destruct (entries w !! e) as [o|]; simpl; [|done].
  by rewrite bool_decide_eq_false_2.
Qed.

(** [other.wad] (3) and [a.zip] (0) are open; [inner.zip] (1) was opened
    from entry 0 of [a.zip], and [deep.wad] (2) from entry 1 of
    [inner.zip].  Entries 2, 3 and 4 are lumps of [deep.wad], [other.wad]
    and [a.zip]. *)
Definition w1 : heap :=
  mk_heap
    [mk_archive "a.zip" Zip None 0; mk_archive "inner.zip" Zip (Some 0) 1;
     mk_archive "deep.wad" Wad (Some 1) 2; mk_archive "other.wad" Wad None 3]
    [mk_dir (Some 0) None None; mk_dir (Some 1) None None;
     mk_dir (Some 2) None None; mk_dir (Some 3) None None]
    [mk_entry true (Some 0) "zip" (lump "inner.zip" "zip");
     mk_entry true (Some 1) "wad" (lump "deep.wad" "wad");
     mk_entry true (Some 2) "map" (lump "MAP01" "map");
     mk_entry true (Some 3) "map" (lump "MAP01" "map");
     mk_entry true (Some 0) "text" (lump "README" "text")]
    [] [] 0%Z.

Definition nest : list OpenArchive :=
  [mkOpenArchive 3 true []; mkOpenArchive 0 true [1];
   mkOpenArchive 1 true [2]; mkOpenArchive 2 true []].

Definition s1 : Manager heap :=
  manager w1 nest [Some 4; Some 1; Some 2; Some 3] None (-1)%Z.

Lemma nest_well_nested : well_nested w1 nest.
Proof.
  split.
  - refine (bool_decide_unpack _ _). by vm_compute.
  - intros oa Hoa.
    repeat (apply elem_of_cons in Hoa as [->|Hoa]);
      [apply NoDup_nil_2|by apply NoDup_singleton|by apply NoDup_singleton
      |apply NoDup_nil_2|by apply elem_of_nil in Hoa].
  - intros oa c Hoa Hc _.
    repeat (apply elem_of_cons in Hoa as [->|Hoa]);
      try (by apply elem_of_nil in Hc); try (by apply elem_of_nil in Hoa);
      apply list_elem_of_singleton in Hc as ->; reflexivity.
  - simpl. split_and!; try done; intros x Hx;
      repeat (apply elem_of_cons in Hx as [->|Hx]);
      try (by apply elem_of_nil in Hx); simpl;
      try apply not_elem_of_nil;
      by intros ?%list_elem_of_singleton.
Qed.

Lemma C1_witness :
  close_frame (W := heap)
  ∧ well_nested (world s1) (open_archives_ s1)
  ∧ (∃ s', closeArchive 3 1 s1 = Ok (true, s')
           ∧ open_archives_ s' = [mkOpenArchive 3 true []]
           ∧ bookmarks_ s' = [Some 3])
  ∧ (∃ s', closeArchive 2 2 s1 = Ok (true, s')
           ∧ open_archives_ s' =
               [mkOpenArchive 3 true []; mkOpenArchive 0 true []]
           ∧ bookmarks_ s' = [Some 4; Some 3]).
Proof.
  split; [exact toy_close_frame|]. split; [exact nest_well_nested|].
  split.
  - destruct (C1_closeArchive_closes_nested 3 s1
                [mkOpenArchive 3 true []] (mkOpenArchive 0 true [1])
                [mkOpenArchive 1 true [2]; mkOpenArchive 2 true []]
                toy_close_frame nest_well_nested eq_refl)
      as (D & s' & Hrun & _); [by intros P [=]|simpl; lia|].
    exists s'. vm_compute in Hrun. injection Hrun as <-. by split_and!.
  - destruct (C1_closeArchive_closes_nested 2 s1
                [mkOpenArchive 3 true []; mkOpenArchive 0 true [1]]
                (mkOpenArchive 1 true [2]) [mkOpenArchive 2 true []]
                toy_close_frame nest_well_nested eq_refl)
      as (D & s' & Hrun & _); [|simpl; lia|].
    { intros P [= <-]. refine (bool_decide_unpack _ _). by vm_compute. }
    exists s'. vm_compute in Hrun. injection Hrun as <-. by split_and!.
Defined.

(** The file [a.zip] holds [e1m1.wad], itself an archive, and a text
    lump.  [parsed7] is the state in which [openArchive] hands the parsed
    [a.zip] (archive 0) to [addArchive]. *)
Definition a_zip : blob :=
  Blob "a.zip" "zip" (Some Zip) true
    [Blob "e1m1.wad" "wad" (Some Wad) true [lump "MAP01" "map"];
     lump "README" "text"].

Definition w7 : heap := mk_heap [] [] [] [("a.zip", a_zip)] [] 0%Z.

Definition s7 : Manager heap := manager w7 [] [] None (-1)%Z.

Definition parsed7 : Manager heap :=
  set_world (open_file 0 "a.zip" (alloc Zip w7).2).2 s7.

Lemma parsed7_flat es1 e es2 t :
  ArchiveDir_allEntries (world parsed7) (Archive_rootDir (world parsed7) 0)
  = es1 ++ e :: es2 →
  ofold (auto_open (openArchive_entry 1)) es1 (pushed 0 parsed7) = Ok t →
  ArchiveEntry_type (world (detected e t)) e = "wad" →
  flat_child (detected e t) e.
Proof.
  intros Hes Hrun Hty.
  change [0; 1] with (es1 ++ e :: es2) in Hes.
  destruct es1 as [|x [|y es1]]; simpl in Hes.
  - injection Hes as <- <-. injection Hrun as <-.
    intros f Hdet c parse Hok. vm_compute in Hdet. injection Hdet as <-.
    split; by vm_compute.
  - injection Hes as <- <- <-. vm_compute in Hrun. injection Hrun as <-.
    by vm_compute in Hty.
  - injection Hes as _ _ Hes. by destruct es1.
Qed.

Lemma C7_witness :
  expands parsed7 0
  ∧ (∃ s', openArchive 2 "a.zip" true false s7 = Ok (Some 0, s')
           ∧ open_archives_ s' =
               [mkOpenArchive 0 true [1]; mkOpenArchive 1 true []])
  ∧ ∃ s', addArchive 2 (Some 0) parsed7 = Ok (true, s')
          ∧ open_archives_ s' =
              [mkOpenArchive 0 true [1]; mkOpenArchive 1 true []]
          ∧ Archive_parentEntry (world s') 1 = Some 0
          ∧ event_name <$> announced s' = ["archive_added"; "archive_added"]
          ∧ ∃ s'', closeArchive 2 0 s' = Ok (true, s'')
                   ∧ open_archives_ s'' = [].
Proof.
  assert (Hexp : expands parsed7 0) by (split; [by left|done]).
  destruct (C7_auto_open_children 0 parsed7 0 Hexp)
    as (_ & _ & _ & _ & _ & Htotal).
  destruct (Htotal parsed7_flat) as [s' Hrun].
  split; [exact Hexp|]. split.
  - eexists. split; [by vm_compute|done].
  - exists s'. split; [exact Hrun|].
    vm_compute in Hrun. injection Hrun as <-.
    split_and!; [done|done|done|].
    eexists. split; [by vm_compute|done].
Defined.

End Scenario.

(** * More scenarios *)

Module Examples.
Import Toy.
Import Scenario.
Local Open Scope nat_scope.

(** Nobody but the manager holds an archive; a format is named by its
    id. *)
#[global] Instance more_collaborators : MoreCollaborators heap := {|
  Archive_held w a := false;
  Archive_setFilename a name w :=
    mk_heap
      (alter (λ o, mk_archive name (a_class o) (a_parentEntry o)
                     (a_rootDir o)) a (archives w))
      (dirs w) (entries w) (files w) (folders w) (clock w);
  Archive_formatName w a := default "" (class_id ∘ a_class <$> archives w !! a)
|}.

Lemma X4_witness :
  NoDup (bookmarks_ s9)
  ∧ bookmarks_ (addBookmark (Some 1) s9)
    = [Some 5; Some 6; Some 3; Some 0; Some 7; Some 1]
  ∧ NoDup (bookmarks_ (addBookmark (Some 1) s9))
  ∧ NoDup (bookmarks_ (deleteBookmarksInArchive (Some 1) s9).2).
Proof.
  assert (Hnd : NoDup (bookmarks_ s9)).
  { refine (bool_decide_unpack _ _). by vm_compute. }
  destruct (X4_bookmarks_stay_distinct s9 Hnd) as (Hadd & _ & _ & _ & Harch & _).
  split_and!; [exact Hnd|done|by apply Hadd|apply Harch].
Defined.

Lemma X8_witness :
  (Z.of_nat (length (open_archives_ s1)) < 2 ^ 31)%Z
  ∧ Archive_parentEntry (world s1) 1 = Some 0
  ∧ openArchive_entry 0 (Some 0) true false s1 =
      Ok (Some 1, announce "archive_opened" (Some 2%Z) s1)
  ∧ openArchive_entry 0 (Some 0) true true s1 = Ok (Some 1, s1).
Proof.
  assert (Hlen : (Z.of_nat (length (open_archives_ s1)) < 2 ^ 31)%Z) by done.
  assert (Hfirst : ∀ j oa', j < 2 → open_archives_ s1 !! j = Some oa' →
                            Archive_parentEntry (world s1) (archive oa')
                            ≠ Some 0).
  { intros [|[|j]] oa' Hj Hoa'; [| |lia];
      injection Hoa' as <-; by vm_compute. }
  assert (Hp : Archive_parentEntry (world s1)
                 (archive (mkOpenArchive 1 true [2])) = Some 0)
    by by vm_compute.
  destruct (X8_reopen_entry 0 s1 0 true false 2 (mkOpenArchive 1 true [2])
              Hlen eq_refl Hp Hfirst) as [Hloud _].
  destruct (X8_reopen_entry 0 s1 0 true true 2 (mkOpenArchive 1 true [2])
              Hlen eq_refl Hp Hfirst) as [Hquiet _].
  by split_and!.
Defined.

(** [doom.wad] is opened from the state in which nothing is open. *)
Lemma doom_flat :
  ¬ expands
      (set_world
         (Archive_open_file (make_shared Wad (world s6)).1 "doom.wad"
            (make_shared Wad (world s6)).2).2 s6)
      (make_shared Wad (world s6)).1.
Proof. intros [[H|H] _]; by vm_compute in H. Qed.

Lemma X10_witness :
  getArchive s6 "doom.wad" = None
  ∧ detect_file (world s6) "doom.wad" = Some Wad
  ∧ ∃ s', openArchive 1 "doom.wad" true false s6 = Ok (Some 0, s')
          ∧ open_archives_ s' = [mkOpenArchive 0 true []]
          ∧ announced s' =
              [mkAnnouncement "archive_added" None;
               mkAnnouncement "archive_opened" (Some 0%Z)]
          ∧ is_Some (archive_file (database s') !! "doom.wad").
Proof.
  assert (Hdir : FileUtil_dirExists (world s6) "doom.wad" = false)
    by by vm_compute.
  assert (Hget : getArchive s6 "doom.wad" = None) by by vm_compute.
  assert (Hdet : detect_file (world s6) "doom.wad" = Some Wad)
    by by vm_compute.
  assert (Hok : (Archive_open_file (make_shared Wad (world s6)).1 "doom.wad"
                   (make_shared Wad (world s6)).2).1 = true)
    by by vm_compute.
  assert (Hout : (make_shared Wad (world s6)).1
                 ∉ archive <$> open_archives_ s6) by apply not_elem_of_nil.
  assert (Hlen : (Z.of_nat (length (open_archives_ s6)) < 2 ^ 31)%Z) by done.
  destruct (X10_managed_open_appends 0 s6 "doom.wad" Wad false
              Hdir Hget Hdet Hok doom_flat Hout Hlen)
    as (s' & Hrun & Hl & _ & _ & _ & _ & Han & Hrow & _).
  split; [exact Hget|]. split; [exact Hdet|].
  exists s'. split; [exact Hrun|]. split; [exact Hl|].
  split; [exact Han|]. by apply Hrow.
Defined.

(** [b.zip] is closed in the state with the bookmarks: those on its
    entries and the lost one go, the one on [a.wad] stays. *)
Lemma X11_witness :
  open_archives_ s9 = [mkOpenArchive 0 true []] ++ mkOpenArchive 1 false [] :: []
  ∧ ∃ s', closeArchive 1 1 s9 = Ok (true, s')
          ∧ open_archives_ s' = [mkOpenArchive 0 true []]
          ∧ bookmarks_ s' = [Some 0]
          ∧ announced s' =
              [mkAnnouncement "archive_closing" (Some 1%Z);
               mkAnnouncement "bookmarks_changed" None;
               mkAnnouncement "archive_closed" (Some 1%Z)]
          ∧ resources s' = [res_removeArchive 1].
Proof.
  assert (Hl : open_archives_ s9
               = [mkOpenArchive 0 true []] ++ mkOpenArchive 1 false [] :: [])
    by done.
  assert (Hno : ∀ x, x ∈ open_archives_ s9 →
                     archive (mkOpenArchive 1 false []) ∉ open_children x).
  { intros x Hx.
    repeat (apply elem_of_cons in Hx as [->|Hx]; [apply not_elem_of_nil|]).
    by apply elem_of_nil in Hx. }
  destruct (X11_close_leaf 0 s9 [mkOpenArchive 0 true []]
              (mkOpenArchive 1 false []) [] Hl eq_refl Hno)
    as (s' & Hrun & Hl' & _ & _ & _ & Hr & Han & _).
  split; [exact Hl|]. exists s'.
  split; [exact Hrun|]. split; [exact Hl'|].
  vm_compute in Hrun. injection Hrun as <-. by split_and!.
Defined.


(** The base resource: [doom.wad] is selected as index 1. *)
Lemma X13_witness :
  getBaseResourcePath s6 1 = "doom.wad"
  ∧ base_class (world s6) "doom.wad" = Some Wad
  ∧ ∃ s', openBaseResource 1 s6 = (true, s')
          ∧ base_resource_archive_ s' = Some 0
          ∧ base_resource s' = 1%Z
          ∧ open_archives_ s' = []
          ∧ openBaseResource 1 s' = (true, s')
          ∧ getResourceEntry s' "MAP01" None = Some 0.
Proof.
  assert (Hother : ¬ (is_Some (base_resource_archive_ s6)
                      ∧ base_resource s6 = 1%Z)) by (by intros [_ ?]).
  assert (Hpath : getBaseResourcePath s6 1 = "doom.wad") by by vm_compute.
  assert (Hclass : base_class (world s6) "doom.wad" = Some Wad)
    by by vm_compute.
  assert (Hok : (Archive_open_file (make_shared Wad (world s6)).1 "doom.wad"
                   (make_shared Wad (world s6)).2).1 = true)
    by by vm_compute.
  destruct (X13_openBaseResource_selects s6 1 "doom.wad" Wad Hother
              ltac:(done) Hpath ltac:(done) Hclass Hok)
    as (s' & Hrun & Hb & Hi & _ & _ & Ho & _ & _ & Hagain & _ & Hget).
  split; [exact Hpath|]. split; [exact Hclass|]. exists s'.
  split_and!; [exact Hrun|exact Hb|exact Hi|exact Ho|exact Hagain|].
  rewrite Hget. by vm_compute.
Defined.




Lemma nest_tight : tight w1 nest.
Proof.
  intros x P Hx Hc _. unfold registered in Hx. simpl in Hx.
  repeat (apply elem_of_cons in Hx as [->|Hx]);
    [by vm_compute in Hc|by vm_compute in Hc| | |by apply elem_of_nil in Hx].
  - vm_compute in Hc. injection Hc as <-.
    exists (mkOpenArchive 0 true [1]).
    split_and!; [|done|by left]. right. by left.
  - vm_compute in Hc. injection Hc as <-.
    exists (mkOpenArchive 1 true [2]).
    split_and!; [|done|by left]. right. right. by left.
Qed.

Lemma nest_links_open : links_open nest.
Proof.
  intros p c (oa & Hoa & _ & Hc). unfold registered. simpl.
  repeat (apply elem_of_cons in Hoa as [->|Hoa]); simpl in Hc;
    try (by apply elem_of_nil in Hc); try (by apply elem_of_nil in Hoa);
    apply list_elem_of_singleton in Hc as ->.
  - right. right. by left.
  - right. right. right. by left.
Qed.

Lemma X17_witness :
  close_frame (W := heap)
  ∧ well_nested (world s1) (open_archives_ s1)
  ∧ tight (world s1) (open_archives_ s1)
  ∧ ∃ s', closeAll 4 4 s1 = Ok s'
          ∧ open_archives_ s' = []
          ∧ bookmarks_ s' = [].
Proof.
  split; [exact toy_close_frame|]. split; [exact nest_well_nested|].
  split; [exact nest_tight|].
  destruct (X17_closeAll_empties 4 4 s1 toy_close_frame nest_well_nested
              nest_tight) as (s' & Hrun & Hnil & _); [simpl; lia..|].
  exists s'. split; [exact Hrun|]. split; [exact Hnil|].
  vm_compute in Hrun. by injection Hrun as <-.
Defined.

Lemma X18_witness :
  well_nested (world s1) (open_archives_ s1)
  ∧ links_open (open_archives_ s1)
  ∧ getDependentArchives 3 s1 (Some 0) = Ok [1; 2]
  ∧ getDependentArchives 3 s1 (Some 3) = Ok []
  ∧ getDependentArchives 3 s1 (Some 7) = Fault.
Proof.
  destruct (X18_getDependentArchives_nested 3 s1
              [mkOpenArchive 3 true []] (mkOpenArchive 0 true [1])
              [mkOpenArchive 1 true [2]; mkOpenArchive 2 true []]
              nest_well_nested nest_links_open eq_refl)
    as [(vec & Hrun & _) Hfault]; [simpl; lia|].
  split; [exact nest_well_nested|]. split; [exact nest_links_open|].
  split_and!.
  - etrans; [exact Hrun|]. vm_compute in Hrun. by injection Hrun as <-.
  - by vm_compute.
  - by apply Hfault.
Defined.

Lemma X19_witness :
  close_frame (W := heap)
  ∧ ∃ s', getDependentArchives 3 s1 (Some 0) = Ok [1; 2]
          ∧ closeArchive 3 1 s1 = Ok (true, s')
          ∧ archive <$> open_archives_ s' = [3]
          ∧ well_nested (world s') (open_archives_ s').
Proof.
  split; [exact toy_close_frame|].
  destruct (X19_close_closes_dependents 3 s1
              [mkOpenArchive 3 true []] (mkOpenArchive 0 true [1])
              [mkOpenArchive 1 true [2]; mkOpenArchive 2 true []]
              toy_close_frame nest_well_nested nest_links_open eq_refl)
    as (vec & s' & Hdeps & Hclose & _ & Hwn & _);
    [by intros P [=]|simpl; lia|].
  exists s'. split_and!; [|exact Hclose| |exact Hwn].
  - etrans; [exact Hdeps|]. vm_compute in Hdeps. by injection Hdeps as <-.
  - vm_compute in Hclose. by injection Hclose as <-.
Defined.

(** [a.zip] is open, parsed, and its entry [e1m1.wad] (0) is opened by
    hand. *)
Definition s24 : Manager heap :=
  set_open_archives [mkOpenArchive 0 true []] parsed7.

Lemma s24_well_nested : well_nested (world s24) (open_archives_ s24).
Proof.
  split.
  - apply NoDup_singleton.
  - intros oa ->%list_elem_of_singleton. apply NoDup_nil_2.
  - intros oa c ->%list_elem_of_singleton Hc. by apply elem_of_nil in Hc.
  - simpl. split; [|done].
    intros x ->%list_elem_of_singleton. apply not_elem_of_nil.
Qed.

Lemma X24_witness :
  well_nested (world s24) (open_archives_ s24)
  ∧ detect_entry (world s24) 0 = Some Wad
  ∧ ∃ s', openArchive_entry 1 (Some 0) true true s24 = Ok (Some 1, s')
          ∧ open_archives_ s' =
              [mkOpenArchive 0 true [1]; mkOpenArchive 1 true []]
          ∧ well_nested (world s') (open_archives_ s')
          ∧ linked (open_archives_ s') 0 1.
Proof.
  assert (Hlo : links_open (open_archives_ s24)).
  { intros p c (oa & ->%list_elem_of_singleton & _ & Hc).
    by apply elem_of_nil in Hc. }
  assert (Hnot : not_open s24 0).
  { intros oa ->%list_elem_of_singleton. by vm_compute. }
  assert (Hdet : detect_entry (world s24) 0 = Some Wad) by by vm_compute.
  assert (Hok : (Archive_open_entry (make_shared Wad (world s24)).1 0
                   (make_shared Wad (world s24)).2).1 = true)
    by by vm_compute.
  assert (Hc : (make_shared Wad (world s24)).1
               ∉ archive <$> open_archives_ s24).
  { by intros ?%list_elem_of_singleton. }
  assert (Hfresh : ∀ x, x ∈ open_archives_ s24 →
                        (make_shared Wad (world s24)).1 ∉ open_children x).
  { intros x ->%list_elem_of_singleton. apply not_elem_of_nil. }
  assert (Hparent :
    Archive_parentEntry
      (Archive_open_entry (make_shared Wad (world s24)).1 0
         (make_shared Wad (world s24)).2).2
      (make_shared Wad (world s24)).1 = Some 0) by by vm_compute.
  assert (Hframe : ∀ b p,
    b ∈ archive <$> open_archives_ s24 →
    container (world s24) b = Some p →
    container
      (Archive_open_entry (make_shared Wad (world s24)).1 0
         (make_shared Wad (world s24)).2).2 b = Some p).
  { intros b p ->%list_elem_of_singleton Hb. by vm_compute in Hb. }
  assert (Hflat :
    ¬ expands
        (set_world
           (Archive_open_entry (make_shared Wad (world s24)).1 0
              (make_shared Wad (world s24)).2).2 s24)
        (make_shared Wad (world s24)).1).
  { intros [[H|H] _]; by vm_compute in H. }
  destruct (X24_open_entry_keeps_nesting 0 s24 0 Wad true
              s24_well_nested Hlo Hnot Hdet Hok Hc Hfresh Hparent Hframe
              Hflat)
    as (s' & Hrun & _ & Hwn & _ & Hlink & _).
  split; [exact s24_well_nested|]. split; [exact Hdet|].
  exists s'. split; [exact Hrun|]. split; [|split; [exact Hwn|]].
  - vm_compute in Hrun. by injection Hrun as <-.
  - apply Hlink; [by vm_compute|]. by apply list_elem_of_singleton.
Defined.

(** [w3] with a directory (5) that belongs to no archive, and an entry (8)
    in it. *)
Definition w25 : heap :=
  mk_heap (archives w3) (dirs w3 ++ [mk_dir None None None])
    (entries w3 ++ [mk_entry true (Some 5) "map" (lump "LOOSE" "map")])
    [] [] 0%Z.

Definition s25 (bm : list (option eptr)) : Manager heap :=
  manager w25 both_open bm None (-1)%Z.

Lemma X25_witness :
  ArchiveDir_archive w25 5 = None
  ∧ ArchiveEntry_parent w25 8 = None
  ∧ deleteBookmarksInDir 1 5 (s25 [Some 0; Some 8]) = Fault
  ∧ ∃ s', deleteBookmarksInDir 1 5 (s25 [Some 0; Some 7]) = Ok (true, s')
          ∧ bookmarks_ s' = [Some 0].
Proof.
  assert (Harch : ∀ bm, ArchiveDir_archive (world (s25 bm)) 5 = None)
    by done.
  destruct (X25_deleteBookmarksInDir_detached 1 (s25 [Some 0; Some 8]) 5
              (Harch _)) as (_ & _ & Hfault).
  destruct (X25_deleteBookmarksInDir_detached 1 (s25 [Some 0; Some 7]) 5
              (Harch _)) as (_ & Hok & _).
  split; [done|]. split; [done|]. split.
  - apply (Hfault 8); [right; by left|done|done|done].
  - destruct Hok as (r & s' & Hrun & _).
    { intros b Hb (e & He & Hp).
      change (b ∈ [Some 0]) in Hb.
      apply list_elem_of_singleton in Hb as ->.
      vm_compute in He. injection He as <-. by vm_compute in Hp. }
    exists s'. vm_compute in Hrun. injection Hrun as <- <-.
    split; [by vm_compute|done].
Defined.

End Examples.
